(** * Paysage: the unit-layer core of [paysage/layers.py]

    A shallow embedding of the layer classes ([Layer], [Weights],
    [GaussianLayer], [IsingLayer], [BernoulliLayer], [ExponentialLayer])
    and of the registry function [get], together with the part of the
    tensor backend they call.

    Conventions of the embedding:
    - a Python exception is a value of [exn]; a call that may raise
      returns a [result];
    - a method that mutates [self] is a computation in [St], a state and
      error monad over the object, so whatever was stored before an
      exception stays stored;
    - tensor elements are real numbers (the 32-bit floats of the source
      are idealised); a tensor is 1-d (a list) or 2-d (a list of rows), and
      an operation checks the shapes it is given when it runs, as Python
      does;
    - the dictionaries [int_params], [ext_params], [penalties],
      [constraints] are finite maps keyed by strings. *)

From Stdlib Require Import Reals Lra Lia Ascii.
From stdpp Require Import gmap strings list.

(** ** Exceptions and results *)

Inductive exn : Set :=
| AttributeError
| KeyError
| TypeError
| ValueError
| ZeroDivisionError
| NotImplementedError.

Inductive result (A : Type) : Type :=
| Ok (a : A)
| Raise (e : exn).
Arguments Ok {A} a.
Arguments Raise {A} e.

Definition rbind {A B} (r : result A) (k : A -> result B) : result B :=
  match r with
  | Ok a => k a
  | Raise e => Raise e
  end.

Notation "x <~ r ;; k" := (rbind r (fun x => k))
  (at level 100, r at next level, k at level 200, right associativity).

(** ** The state and error monad of a mutable object *)

Definition St (S A : Type) : Type := S -> S * result A.

Definition ret {S A} (a : A) : St S A := fun s => (s, Ok a).
Definition raise {S A} (e : exn) : St S A := fun s => (s, Raise e).
Definition lift {S A} (r : result A) : St S A := fun s => (s, r).
Definition reads {S A} (f : S -> result A) : St S A := fun s => (s, f s).
Definition gets {S A} (f : S -> A) : St S A := fun s => (s, Ok (f s)).
Definition modify {S} (f : S -> S) : St S unit := fun s => (f s, Ok tt).

Definition bind {S A B} (m : St S A) (k : A -> St S B) : St S B :=
  fun s =>
    match m s with
    | (s', Ok a) => k a s'
    | (s', Raise e) => (s', Raise e)
    end.

Notation "x <- m ;; k" := (bind m (fun x => k))
  (at level 100, m at next level, k at level 200, right associativity).
Notation "m ;; k" := (bind m (fun _ => k))
  (at level 100, k at level 200, right associativity).

(** [for x in xs: body(x)] *)
Fixpoint for_each {S X} (xs : list X) (body : X -> St S unit) : St S unit :=
  match xs with
  | [] => ret tt
  | x :: xs' => body x ;; for_each xs' body
  end.

(** [{key: f(key) for key in keys}], built from left to right on top of
    [acc]. *)
Fixpoint dict_of {S V} (keys : list string) (f : string -> St S V)
    (acc : gmap string V) : St S (gmap string V) :=
  match keys with
  | [] => ret acc
  | key :: keys' => v <- f key ;; dict_of keys' f (<[key := v]> acc)
  end.

(** Run a computation on a component of the state. *)
Definition zoom {S S' A} (get : S -> S') (set : S -> S' -> S)
    (m : St S' A) : St S A :=
  fun s => let '(s', r) := m (get s) in (set s s', r).

(** ** Python builtins used by the layers *)

(** [d[key]] *)
Definition getitem {V} (d : gmap string V) (key : string) : result V :=
  match d !! key with
  | Some v => Ok v
  | None => Raise KeyError
  end.

(** [a / b] on two Python ints (true division). *)
Definition truediv (a b : nat) : result R :=
  if decide (b = 0) then Raise ZeroDivisionError else Ok (INR a / INR b)%R.

(** A call [f(args)] of a bound method declared with [arity] positional
    parameters besides [self]: the argument count is checked before the
    body runs. *)
Definition call_method {S A X} (arity : nat) (args : list X)
    (body : St S A) : St S A :=
  if decide (length args = arity) then body else raise TypeError.

(** ** Tensors *)

Inductive tensor : Type :=
| Vec (v : list R)
| Mat (a : list (list R)).

(** [len(t)]: the size of the first axis. *)
Definition py_len (t : tensor) : nat :=
  match t with
  | Vec v => length v
  | Mat a => length a
  end.

Definition shape2 (a : list (list R)) : list nat := fmap (M:=list) length a.

Definition tmap (f : R -> R) (t : tensor) : tensor :=
  match t with
  | Vec v => Vec (fmap (M:=list) f v)
  | Mat a => Mat (fmap (M:=list) (fmap (M:=list) f) a)
  end.

(** Modelled from the spec: the elementwise binary operations of the
    backend contract (section 6: add/subtract/multiply/divide). The
    operands have one shape; a disagreement is the contract violation of
    section 7(c), signalled and not silently broadcast. *)
Definition tzip (f : R -> R -> R) (x y : tensor) : result tensor :=
  match x, y with
  | Vec v, Vec w =>
      if decide (length v = length w) then Ok (Vec (zip_with f v w))
      else Raise ValueError
  | Mat a, Mat b =>
      if decide (shape2 a = shape2 b) then Ok (Mat (zip_with (zip_with f) a b))
      else Raise ValueError
  | _, _ => Raise ValueError
  end.

Section TensorArithmetic.
Local Open Scope R_scope.

Definition add : tensor -> tensor -> result tensor := tzip Rplus.
Definition sub : tensor -> tensor -> result tensor := tzip Rminus.
Definition mul : tensor -> tensor -> result tensor := tzip Rmult.
Definition div : tensor -> tensor -> result tensor := tzip Rdiv.
(** [c * x], [x * c] and [x / c] for a scalar [c], and [-x]. *)
Definition smul (c : R) : tensor -> tensor := tmap (Rmult c).
Definition muls (x : tensor) (c : R) : tensor := tmap (fun e => e * c) x.
Definition divs (x : tensor) (c : R) : tensor := tmap (fun e => e / c) x.
Definition neg : tensor -> tensor := tmap Ropp.
(** [x ** 2] *)
Definition pow2 : tensor -> tensor := tmap (fun x => x ^ 2).
End TensorArithmetic.

(** ** Comparisons

    [x > c] against a scalar gives a tensor of booleans, one per element;
    [x - c] subtracts a scalar from every element. *)
Inductive btensor : Type :=
| BVec (v : list bool)
| BMat (a : list (list bool)).

Definition Rgtb (x c : R) : bool := if Rlt_dec c x then true else false.

Definition gts (x : tensor) (c : R) : btensor :=
  match x with
  | Vec v => BVec (fmap (M:=list) (fun e => Rgtb e c) v)
  | Mat a => BMat (fmap (M:=list) (fmap (M:=list) (fun e => Rgtb e c)) a)
  end.

Definition subs (x : tensor) (c : R) : tensor := tmap (fun e => (e - c)%R) x.

(** ** The backend [be]

    [layers.py] reaches every tensor operation through the module
    alias [be]. *)

Module be.
Section Nonlinearity.
Local Open Scope R_scope.

(** Modelled from the spec: the transcendental functions of the backend
    contract (section 6: exp, log, tanh, atanh, logistic, logit,
    reciprocal, square), whose module is not among the sources. Each is
    the real function on its analytic domain; outside it (log of a
    non-positive number, atanh at 1, reciprocal of 0) the real-valued
    model carries no information about the IEEE value. *)
Definition atanh1 (x : R) : R := ln ((1 + x) / (1 - x)) / 2.
Definition expit1 (x : R) : R := 1 / (1 + Rtrigo_def.exp (- x)).
Definition logit1 (x : R) : R := ln (x / (1 - x)).

Definition exp : tensor -> tensor := tmap Rtrigo_def.exp.
Definition log : tensor -> tensor := tmap ln.
Definition tanh : tensor -> tensor := tmap Rtrigo_def.tanh.
Definition atanh : tensor -> tensor := tmap atanh1.
Definition expit : tensor -> tensor := tmap expit1.
Definition logit : tensor -> tensor := tmap logit1.
Definition reciprocal : tensor -> tensor := tmap Rinv.
Definition square : tensor -> tensor := tmap (fun x => x * x).
End Nonlinearity.

Definition entry_of (r : list R) : R :=
  match r with
  | [x] => x
  | _ => 0%R
  end.

(** Modelled from the spec: [broadcast(vec, matrix)], the broadcast-to-match
    utility of section 6. A 1-d tensor of one entry per unit is repeated
    along the sample axis; a column of one entry per sample (shape
    [(num_samples, 1)], the inverse temperatures) is repeated along the
    unit axis. Any other shape is the contract violation of section 7(c). *)
Definition broadcast (vec : tensor) (target : tensor) : result tensor :=
  match target with
  | Mat a =>
      match vec with
      | Vec v =>
          if decide (Forall (fun r => length r = length v) a)
          then Ok (Mat (fmap (M:=list) (fun _ => v) a))
          else Raise ValueError
      | Mat c =>
          if decide (length c = length a /\ Forall (fun r => length r = 1) c)
          then Ok (Mat (zip_with
                          (fun b r => fmap (M:=list) (fun _ => entry_of b) r)
                          c a))
          else Raise ValueError
      end
  | Vec _ => Raise ValueError
  end.

(** Modelled from the spec: [subtract_dicts_inplace(dict1, dict2)], the
    helper behind [parameter_step] (section 4.1): for every entry of
    [dict2], subtract it from the entry of [dict1] of the same name, in
    place; a name absent from [dict1] is a [KeyError]. *)
Definition subtract_dicts_inplace (dict2 : gmap string tensor)
    : St (gmap string tensor) unit :=
  for_each (map_to_list dict2) (fun '(key, delta) =>
    p <- reads (fun dict1 => getitem dict1 key) ;;
    r <- lift (sub p delta) ;;
    modify <[key := r]>).
(** Modelled from the spec: [softplus] and [logcosh] of the backend
    contract (section 6), the real functions [log(1 + exp x)] and
    [log(cosh x)]. *)
Definition softplus1 (x : R) : R := ln (1 + Rtrigo_def.exp x).
Definition logcosh1 (x : R) : R := ln (cosh x).
Definition softplus : tensor -> tensor := tmap softplus1.
Definition logcosh : tensor -> tensor := tmap logcosh1.

End be.

(** The functions of [backends/pytorch_backend/matrix.py] that the layers
    call. They are fields of a record so that the layer code is written
    once, over any backend, the way the source dispatches through [be]. *)
Record Backend : Type := {
  be_zeros : nat -> result tensor;
  be_ones_like : tensor -> result tensor;
  be_mix_inplace : R -> tensor -> tensor -> result tensor;
  (** [mean(x, axis)], [keepdims=False] *)
  be_mean : tensor -> nat -> result tensor;
  be_dot : tensor -> tensor -> result tensor;
  (** [batch_dot(vis, W, hid, axis)] *)
  be_batch_dot : tensor -> tensor -> tensor -> nat -> result tensor
}.

(** [backends/pytorch_backend/matrix.py], as it stands: [zeros] is
    [torch.zeros]; every other function the layers call is a stub. *)
Definition pytorch_backend : Backend := {|
  be_zeros n := Ok (Vec (replicate n 0%R));
  be_ones_like _ := Raise NotImplementedError;
  be_mix_inplace _ _ _ := Raise NotImplementedError;
  be_mean _ _ := Raise NotImplementedError;
  be_dot _ _ := Raise NotImplementedError;
  be_batch_dot _ _ _ _ := Raise NotImplementedError
|}.

(** [float_tensor] of [matrix.py] ([torch.FloatTensor(tensor)]) on a tensor
    of booleans: [True] becomes [1.0] and [False] becomes [0.0]. *)
Definition float_of_bool (b : bool) : R := if b then 1%R else 0%R.

Definition float_tensor (x : btensor) : tensor :=
  match x with
  | BVec v => Vec (fmap (M:=list) float_of_bool v)
  | BMat a => Mat (fmap (M:=list) (fmap (M:=list) float_of_bool) a)
  end.

(** ** [class Layer] *)

Module Layer.

(** A penalty object ([paysage.penalties]): its [value] and [grad]. *)
Record penalty : Type := { value : tensor -> R; grad : tensor -> tensor }.

(** A constraint object ([paysage.constraints]): a callable that rewrites
    the tensor it is given, in place. *)
Definition constraint : Type := tensor -> tensor.

Record t : Type := mk {
  int_params : gmap string tensor;
  penalties : gmap string penalty;
  constraints : gmap string constraint
}.

(** [__init__] *)
Definition init : t := mk ∅ ∅ ∅.

Definition set_int_params (self : t) (d : gmap string tensor) : t :=
  mk d (penalties self) (constraints self).
Definition set_penalties (self : t) (d : gmap string penalty) : t :=
  mk (int_params self) d (constraints self).
Definition set_constraints (self : t) (d : gmap string constraint) : t :=
  mk (int_params self) (penalties self) d.

(** The value of an instance attribute. *)
Inductive attribute : Type :=
| ParamsDict (d : gmap string tensor)
| PenaltiesDict (d : gmap string penalty)
| ConstraintsDict (d : gmap string constraint).

(** [self.<name>]: the attributes [__init__] binds are [int_params],
    [penalties] and [constraints]; any other data attribute is missing. *)
Definition getattr (name : string) : St t attribute :=
  fun self =>
    (self,
     if decide (name = "int_params")
     then Ok (ParamsDict (int_params self))
     else if decide (name = "penalties")
     then Ok (PenaltiesDict (penalties self))
     else if decide (name = "constraints")
     then Ok (ConstraintsDict (constraints self))
     else Raise AttributeError).

Definition as_params (a : attribute) : result (gmap string tensor) :=
  match a with ParamsDict d => Ok d | _ => Raise TypeError end.
Definition as_penalties (a : attribute) : result (gmap string penalty) :=
  match a with PenaltiesDict d => Ok d | _ => Raise TypeError end.
Definition as_constraints (a : attribute) : result (gmap string constraint) :=
  match a with ConstraintsDict d => Ok d | _ => Raise TypeError end.

(** [self.constraint.update(constraint)] *)
Definition add_constraint (c : gmap string constraint) : St t unit :=
  a <- getattr "constraint" ;;
  d <- lift (as_constraints a) ;;
  modify (fun self => set_constraints self (c ∪ d)).

(** [for param_name in self.constraints:
       self.constraint[param_name](self.int_params[param_name])]
    The keys come in the order of the finite map, not in Python's
    insertion order; each constraint rewrites its own parameter only. *)
Definition enforce_constraints : St t unit :=
  a <- getattr "constraints" ;;
  cs <- lift (as_constraints a) ;;
  for_each (map_to_list cs).*1 (fun param_name =>
    a <- getattr "constraint" ;;
    d <- lift (as_constraints a) ;;
    f <- lift (getitem d param_name) ;;
    a <- getattr "int_params" ;;
    ps <- lift (as_params a) ;;
    p <- lift (getitem ps param_name) ;;
    modify (fun self => set_int_params self (<[param_name := f p]> ps))).

(** [self.penalties.update(penalty)] *)
Definition add_penalty (p : gmap string penalty) : St t unit :=
  a <- getattr "penalties" ;;
  d <- lift (as_penalties a) ;;
  modify (fun self => set_penalties self (p ∪ d)).

(** [be.subtract_dicts_inplace(self.int_params, deltas)
     self.enforce_constraints()] *)
Definition parameter_step (deltas : gmap string tensor) : St t unit :=
  zoom int_params set_int_params (be.subtract_dicts_inplace deltas) ;;
  enforce_constraints.

(** [for param_name in self.penalties:
       self.penalties[param_name].value(self.int_params[param_name])]
    Each value is computed and dropped: the method has no [return]. *)
Definition get_penalties : St t unit :=
  a <- getattr "penalties" ;;
  ps <- lift (as_penalties a) ;;
  for_each (map_to_list ps).*1 (fun param_name =>
    a <- getattr "penalties" ;;
    d <- lift (as_penalties a) ;;
    pen <- lift (getitem d param_name) ;;
    a <- getattr "int_params" ;;
    ps <- lift (as_params a) ;;
    p <- lift (getitem ps param_name) ;;
    let _ := value pen p in
    ret tt).

(** [pen = {param_name:
            self.penalties[param_name].grad(self.int_params[param_name])
            for param_name in self.penalties}
     return pen] *)
Definition get_penalty_gradients : St t (gmap string tensor) :=
  a <- getattr "penalties" ;;
  ps <- lift (as_penalties a) ;;
  dict_of (map_to_list ps).*1 (fun param_name =>
    a <- getattr "penalties" ;;
    d <- lift (as_penalties a) ;;
    pen <- lift (getitem d param_name) ;;
    a <- getattr "int_params" ;;
    ps <- lift (as_params a) ;;
    p <- lift (getitem ps param_name) ;;
    ret (grad pen p)) ∅.

End Layer.

(** ** The unit layers

    The four classes share their attributes: the dictionaries of [Layer],
    the number of units [len], the running [sample_size] and the extrinsic
    parameters, each [None] until the first [update]. *)

Record unit_layer : Type := UnitLayer {
  base : Layer.t;
  len : nat;
  sample_size : nat;
  ext_params : gmap string (option tensor)
}.

Definition set_base (self : unit_layer) (b : Layer.t) : unit_layer :=
  UnitLayer b (len self) (sample_size self) (ext_params self).
Definition set_sample_size (n : nat) (self : unit_layer) : unit_layer :=
  UnitLayer (base self) (len self) n (ext_params self).
Definition set_ext_params (self : unit_layer)
    (d : gmap string (option tensor)) : unit_layer :=
  UnitLayer (base self) (len self) (sample_size self) d.

Definition int_params (self : unit_layer) : gmap string tensor :=
  Layer.int_params (base self).

(** The methods inherited from [Layer]. *)
Definition inherited {A} : St Layer.t A -> St unit_layer A :=
  zoom base set_base.

(** [self.int_params[name]] and [self.int_params[name] = v] *)
Definition get_int (name : string) : St unit_layer tensor :=
  reads (fun self => getitem (int_params self) name).
Definition set_int (name : string) (v : tensor) : St unit_layer unit :=
  modify (fun self =>
    set_base self (Layer.set_int_params (base self)
                     (<[name := v]> (int_params self)))).

(** [self.ext_params[name]] and [self.ext_params[name] = v] *)
Definition get_ext (name : string) : St unit_layer (option tensor) :=
  reads (fun self => getitem (ext_params self) name).
Definition set_ext (name : string) (v : tensor) : St unit_layer unit :=
  modify (fun self =>
    set_ext_params self (<[name := Some v]> (ext_params self))).

(** A value used as a tensor operand: [None] is a [TypeError]. *)
Definition operand (o : option tensor) : result tensor :=
  match o with
  | Some t => Ok t
  | None => Raise TypeError
  end.

Module GaussianLayer.
Section Methods.
Variable backend : Backend.
Local Open Scope R_scope.

Definition init (num_units : nat) : result unit_layer :=
  loc <~ be_zeros backend num_units ;;
  log_var <~ be_zeros backend num_units ;;
  Ok {| base := Layer.set_int_params Layer.init
                  {[ "loc" := loc; "log_var" := log_var ]};
        len := num_units;
        sample_size := 0;
        ext_params := {[ "mean" := None; "variance" := None ]} |}.

Definition log_partition_function (self : unit_layer) (phi : tensor)
    : result tensor :=
  log_var <~ getitem (int_params self) "log_var" ;;
  let scale := be.exp log_var in
  loc <~ getitem (int_params self) "loc" ;;
  b <~ be.broadcast loc phi ;;
  logZ <~ mul b phi ;;
  b <~ be.broadcast scale phi ;;
  t <~ mul b (be.square phi) ;;
  logZ <~ add logZ t ;;
  b <~ be.broadcast scale phi ;;
  logZ <~ add logZ (be.log b) ;;
  Ok logZ.

Definition online_param_update (data : tensor) : St unit_layer unit :=
  let n := py_len data in
  ss <- gets sample_size ;;
  let new_sample_size := (n + ss)%nat in
  (* compute the current value of the second moment *)
  log_var <- get_int "log_var" ;;
  let x2 := be.exp log_var in
  loc <- get_int "loc" ;;
  x2 <- lift (add x2 (pow2 loc)) ;;
  (* update the first moment / location parameter *)
  loc <- get_int "loc" ;;
  r <- lift (truediv ss new_sample_size) ;;
  set_int "loc" (muls loc r) ;;
  loc <- get_int "loc" ;;
  m <- lift (be_mean backend data 0) ;;
  loc <- lift (add loc (divs (smul (INR n) m) (INR new_sample_size))) ;;
  set_int "loc" loc ;;
  (* update the second moment *)
  r <- lift (truediv ss new_sample_size) ;;
  let x2 := muls x2 r in
  m <- lift (be_mean backend (be.square data) 0) ;;
  x2 <- lift (add x2 (divs (smul (INR n) m) (INR new_sample_size))) ;;
  (* update the log_var parameter from the second moment *)
  loc <- get_int "loc" ;;
  d <- lift (sub x2 (pow2 loc)) ;;
  set_int "log_var" (be.log d) ;;
  (* update the sample size *)
  modify (set_sample_size new_sample_size).

Definition shrink_parameters (shrinkage : R) : St unit_layer unit :=
  log_var <- get_int "log_var" ;;
  let var := be.exp log_var in
  ones <- lift (be_ones_like backend var) ;;
  var <- lift (be_mix_inplace backend (1 - shrinkage) var ones) ;;
  set_int "log_var" (be.log var).

Definition update (scaled_units weights : tensor) (beta : option tensor)
    : St unit_layer unit :=
  phi <- lift (be_dot backend scaled_units weights) ;;
  set_ext "mean" phi ;;
  (match beta with
   | Some b =>
       m <- get_ext "mean" ;;
       m <- lift (operand m) ;;
       bb <- lift (be.broadcast b m) ;;
       m <- lift (mul m bb) ;;
       set_ext "mean" m
   | None => ret tt
   end) ;;
  m <- get_ext "mean" ;;
  m <- lift (operand m) ;;
  loc <- get_int "loc" ;;
  bl <- lift (be.broadcast loc m) ;;
  m <- lift (add m bl) ;;
  set_ext "mean" m ;;
  log_var <- get_int "log_var" ;;
  m <- get_ext "mean" ;;
  m <- lift (operand m) ;;
  bv <- lift (be.broadcast (be.exp log_var) m) ;;
  set_ext "variance" bv.

Definition mode (self : unit_layer) : result (option tensor) :=
  getitem (ext_params self) "mean".

Definition mean (self : unit_layer) : result (option tensor) :=
  getitem (ext_params self) "mean".
Definition energy (self : unit_layer) (vis : tensor) : result tensor :=
  log_var <~ getitem (int_params self) "log_var" ;;
  let scale := be.exp log_var in
  loc <~ getitem (int_params self) "loc" ;;
  b <~ be.broadcast loc vis ;;
  result <~ sub vis b ;;
  let result := be.square result in
  b <~ be.broadcast scale vis ;;
  result <~ div result b ;;
  m <~ be_mean backend result 1 ;;
  Ok (smul 0.5 m).

Definition rescale (self : unit_layer) (observations : tensor)
    : result tensor :=
  log_var <~ getitem (int_params self) "log_var" ;;
  let scale := be.exp log_var in
  b <~ be.broadcast scale observations ;;
  div observations b.

End Methods.
End GaussianLayer.

Module IsingLayer.
Section Methods.
Variable backend : Backend.
Local Open Scope R_scope.

Definition init (num_units : nat) : result unit_layer :=
  loc <~ be_zeros backend num_units ;;
  Ok {| base := Layer.set_int_params Layer.init {[ "loc" := loc ]};
        len := num_units;
        sample_size := 0;
        ext_params := {[ "field" := None ]} |}.

Definition online_param_update (data : tensor) : St unit_layer unit :=
  let n := py_len data in
  ss <- gets sample_size ;;
  let new_sample_size := (n + ss)%nat in
  (* update the first moment *)
  loc <- get_int "loc" ;;
  let x := be.tanh loc in
  r <- lift (truediv ss new_sample_size) ;;
  let x := muls x r in
  m <- lift (be_mean backend data 0) ;;
  x <- lift (add x (divs (smul (INR n) m) (INR new_sample_size))) ;;
  (* update the location parameter *)
  set_int "loc" (be.atanh x) ;;
  (* update the sample size *)
  modify (set_sample_size new_sample_size).

Definition shrink_parameters (shrinkage : R) : St unit_layer unit :=
  ret tt.

Definition update (scaled_units weights : tensor) (beta : option tensor)
    : St unit_layer unit :=
  phi <- lift (be_dot backend scaled_units weights) ;;
  set_ext "field" phi ;;
  (match beta with
   | Some b =>
       f <- get_ext "field" ;;
       f <- lift (operand f) ;;
       bb <- lift (be.broadcast b f) ;;
       f <- lift (mul f bb) ;;
       set_ext "field" f
   | None => ret tt
   end) ;;
  f <- get_ext "field" ;;
  f <- lift (operand f) ;;
  loc <- get_int "loc" ;;
  bl <- lift (be.broadcast loc f) ;;
  f <- lift (add f bl) ;;
  set_ext "field" f.
Definition energy (self : unit_layer) (data : tensor) : result tensor :=
  loc <~ getitem (int_params self) "loc" ;;
  d <~ be_dot backend data loc ;;
  Ok (divs (neg d) (INR (len self))).

Definition rescale (self : unit_layer) (observations : tensor)
    : result tensor :=
  Ok observations.

Definition mode (self : unit_layer) : result tensor :=
  field <~ getitem (ext_params self) "field" ;;
  field <~ operand field ;;
  Ok (subs (smul 2 (float_tensor (gts field 0))) 1).

Definition mean (self : unit_layer) : result tensor :=
  field <~ getitem (ext_params self) "field" ;;
  field <~ operand field ;;
  Ok (be.tanh field).

Definition log_partition_function (self : unit_layer) (phi : tensor)
    : result tensor :=
  loc <~ getitem (int_params self) "loc" ;;
  b <~ be.broadcast loc phi ;;
  logZ <~ add b phi ;;
  Ok (be.logcosh logZ).

End Methods.
End IsingLayer.

Module BernoulliLayer.
Section Methods.
Variable backend : Backend.
Local Open Scope R_scope.

Definition init (num_units : nat) : result unit_layer :=
  loc <~ be_zeros backend num_units ;;
  Ok {| base := Layer.set_int_params Layer.init {[ "loc" := loc ]};
        len := num_units;
        sample_size := 0;
        ext_params := {[ "field" := None ]} |}.

Definition online_param_update (data : tensor) : St unit_layer unit :=
  let n := py_len data in
  ss <- gets sample_size ;;
  let new_sample_size := (n + ss)%nat in
  (* update the first moment *)
  loc <- get_int "loc" ;;
  let x := be.expit loc in
  r <- lift (truediv ss new_sample_size) ;;
  let x := muls x r in
  m <- lift (be_mean backend data 0) ;;
  x <- lift (add x (divs (smul (INR n) m) (INR new_sample_size))) ;;
  (* update the location parameter *)
  set_int "loc" (be.logit x) ;;
  (* update the sample size *)
  modify (set_sample_size new_sample_size).

Definition shrink_parameters (shrinkage : R) : St unit_layer unit :=
  ret tt.

Definition update (scaled_units weights : tensor) (beta : option tensor)
    : St unit_layer unit :=
  phi <- lift (be_dot backend scaled_units weights) ;;
  set_ext "field" phi ;;
  (match beta with
   | Some b =>
       f <- get_ext "field" ;;
       f <- lift (operand f) ;;
       bb <- lift (be.broadcast b f) ;;
       f <- lift (mul f bb) ;;
       set_ext "field" f
   | None => ret tt
   end) ;;
  f <- get_ext "field" ;;
  f <- lift (operand f) ;;
  loc <- get_int "loc" ;;
  bl <- lift (be.broadcast loc f) ;;
  f <- lift (add f bl) ;;
  set_ext "field" f.
Definition energy (self : unit_layer) (data : tensor) : result tensor :=
  loc <~ getitem (int_params self) "loc" ;;
  d <~ be_dot backend data loc ;;
  Ok (divs (neg d) (INR (len self))).

Definition rescale (self : unit_layer) (observations : tensor)
    : result tensor :=
  Ok observations.

Definition mode (self : unit_layer) : result tensor :=
  field <~ getitem (ext_params self) "field" ;;
  field <~ operand field ;;
  Ok (float_tensor (gts field 0)).

Definition mean (self : unit_layer) : result tensor :=
  field <~ getitem (ext_params self) "field" ;;
  field <~ operand field ;;
  Ok (be.expit field).

Definition log_partition_function (self : unit_layer) (phi : tensor)
    : result tensor :=
  loc <~ getitem (int_params self) "loc" ;;
  b <~ be.broadcast loc phi ;;
  logZ <~ add b phi ;;
  Ok (be.softplus logZ).

End Methods.
End BernoulliLayer.

Module ExponentialLayer.
Section Methods.
Variable backend : Backend.
Local Open Scope R_scope.

Definition init (num_units : nat) : result unit_layer :=
  loc <~ be_zeros backend num_units ;;
  Ok {| base := Layer.set_int_params Layer.init {[ "loc" := loc ]};
        len := num_units;
        sample_size := 0;
        ext_params := {[ "rate" := None ]} |}.

(** [def mean(self)]: no parameter besides [self]. *)
Definition mean (self : unit_layer) : result tensor :=
  rate <~ getitem (ext_params self) "rate" ;;
  rate <~ operand rate ;;
  Ok (be.reciprocal rate).

Definition mode (self : unit_layer) : result (option tensor) :=
  Raise NotImplementedError.

Definition online_param_update (data : tensor) : St unit_layer unit :=
  let n := py_len data in
  ss <- gets sample_size ;;
  let new_sample_size := (n + ss)%nat in
  (* update the first moment *)
  loc <- get_int "loc" ;;
  x <- call_method 0 [loc] (reads mean) ;;
  r <- lift (truediv ss new_sample_size) ;;
  let x := muls x r in
  m <- lift (be_mean backend data 0) ;;
  x <- lift (add x (divs (smul (INR n) m) (INR new_sample_size))) ;;
  (* update the location parameter *)
  set_int "loc" (be.reciprocal x) ;;
  (* update the sample size *)
  modify (set_sample_size new_sample_size).

Definition shrink_parameters (shrinkage : R) : St unit_layer unit :=
  ret tt.

Definition update (scaled_units weights : tensor) (beta : option tensor)
    : St unit_layer unit :=
  phi <- lift (be_dot backend scaled_units weights) ;;
  set_ext "rate" (neg phi) ;;
  (match beta with
   | Some b =>
       f <- get_ext "rate" ;;
       f <- lift (operand f) ;;
       bb <- lift (be.broadcast b f) ;;
       f <- lift (mul f bb) ;;
       set_ext "rate" f
   | None => ret tt
   end) ;;
  f <- get_ext "rate" ;;
  f <- lift (operand f) ;;
  loc <- get_int "loc" ;;
  bl <- lift (be.broadcast loc f) ;;
  f <- lift (add f bl) ;;
  set_ext "rate" f.
Definition energy (self : unit_layer) (data : tensor) : result tensor :=
  loc <~ getitem (int_params self) "loc" ;;
  d <~ be_dot backend data loc ;;
  Ok (divs d (INR (len self))).

Definition log_partition_function (self : unit_layer) (phi : tensor)
    : result tensor :=
  loc <~ getitem (int_params self) "loc" ;;
  b <~ be.broadcast loc phi ;;
  logZ <~ sub b phi ;;
  Ok (neg (be.log logZ)).

Definition rescale (self : unit_layer) (observations : tensor)
    : result tensor :=
  Ok observations.

End Methods.
End ExponentialLayer.

(** ** [class Weights] *)

Module Weights.
Record t : Type := mk { base : Layer.t; shape : nat * nat }.

Definition W (self : t) : result tensor :=
  getitem (Layer.int_params (base self)) "matrix".

Definition energy (backend : Backend) (self : t) (vis hid : tensor)
    : result tensor :=
  w <~ getitem (Layer.int_params (base self)) "matrix" ;;
  e <~ be_batch_dot backend vis w hid 1 ;;
  Ok (neg e).
End Weights.

(** ** Dispatch over the four unit-layer classes *)

Inductive layer_class : Set :=
| GaussianLayer
| IsingLayer
| BernoulliLayer
| ExponentialLayer.

(** The methods of a unit layer that assign to [self]; every other method
    ([energy], [log_partition_function], [derivatives], [rescale], [mode],
    [mean], [sample_state], [random], [get_penalties],
    [get_penalty_gradients]) only reads it. *)
Inductive method : Type :=
| AddConstraint (c : gmap string Layer.constraint)
| EnforceConstraints
| AddPenalty (p : gmap string Layer.penalty)
| ParameterStep (deltas : gmap string tensor)
| OnlineParamUpdate (data : tensor)
| ShrinkParameters (shrinkage : R)
| Update (scaled_units weights : tensor) (beta : option tensor).

(** [cls(num_units)] *)
Definition init (backend : Backend) (cls : layer_class)
    : nat -> result unit_layer :=
  match cls with
  | GaussianLayer => GaussianLayer.init backend
  | IsingLayer => IsingLayer.init backend
  | BernoulliLayer => BernoulliLayer.init backend
  | ExponentialLayer => ExponentialLayer.init backend
  end.

Definition online_param_update (backend : Backend) (cls : layer_class)
    : tensor -> St unit_layer unit :=
  match cls with
  | GaussianLayer => GaussianLayer.online_param_update backend
  | IsingLayer => IsingLayer.online_param_update backend
  | BernoulliLayer => BernoulliLayer.online_param_update backend
  | ExponentialLayer => ExponentialLayer.online_param_update backend
  end.

Definition shrink_parameters (backend : Backend) (cls : layer_class)
    : R -> St unit_layer unit :=
  match cls with
  | GaussianLayer => GaussianLayer.shrink_parameters backend
  | IsingLayer => IsingLayer.shrink_parameters
  | BernoulliLayer => BernoulliLayer.shrink_parameters
  | ExponentialLayer => ExponentialLayer.shrink_parameters
  end.

Definition update (backend : Backend) (cls : layer_class)
    : tensor -> tensor -> option tensor -> St unit_layer unit :=
  match cls with
  | GaussianLayer => GaussianLayer.update backend
  | IsingLayer => IsingLayer.update backend
  | BernoulliLayer => BernoulliLayer.update backend
  | ExponentialLayer => ExponentialLayer.update backend
  end.

Definition call (backend : Backend) (cls : layer_class) (m : method)
    : St unit_layer unit :=
  match m with
  | AddConstraint c => inherited (Layer.add_constraint c)
  | EnforceConstraints => inherited Layer.enforce_constraints
  | AddPenalty p => inherited (Layer.add_penalty p)
  | ParameterStep deltas => inherited (Layer.parameter_step deltas)
  | OnlineParamUpdate data => online_param_update backend cls data
  | ShrinkParameters shrinkage => shrink_parameters backend cls shrinkage
  | Update scaled_units weights beta =>
      update backend cls scaled_units weights beta
  end.

(** A client that calls one method after the other and carries on after
    an exception, as a trainer that catches it would. *)
Fixpoint run (backend : Backend) (cls : layer_class) (ms : list method)
    (self : unit_layer) : unit_layer :=
  match ms with
  | [] => self
  | m :: ms' => run backend cls ms' (call backend cls m self).1
  end.

(** The rows a call absorbs: those of its batch when it is an
    [online_param_update] that returned, none otherwise. *)
Definition rows_of (m : method) (r : result unit) : nat :=
  match m, r with
  | OnlineParamUpdate data, Ok _ => py_len data
  | _, _ => 0
  end.

(** The rows absorbed along a run. *)
Fixpoint rows_absorbed (backend : Backend) (cls : layer_class)
    (ms : list method) (self : unit_layer) : nat :=
  match ms with
  | [] => 0
  | m :: ms' =>
      let '(self', r) := call backend cls m self in
      rows_of m r + rows_absorbed backend cls ms' self'
  end.

(** ** The registry [get] *)

(** [key.lower()], on the ASCII letters. *)
Definition lower_char (c : ascii) : ascii :=
  let n := nat_of_ascii c in
  if (65 <=? n) && (n <=? 90) then ascii_of_nat (n + 32) else c.

Fixpoint lower (s : string) : string :=
  match s with
  | EmptyString => EmptyString
  | String c s' => String (lower_char c) (lower s')
  end.

Fixpoint starts_with (p s : string) : bool :=
  match p, s with
  | EmptyString, _ => true
  | String a p', String b s' =>
      if decide (a = b) then starts_with p' s' else false
  | String _ _, EmptyString => false
  end.

(** [needle in s] *)
Fixpoint contains (needle s : string) : bool :=
  starts_with needle s ||
  match s with
  | EmptyString => false
  | String _ s' => contains needle s'
  end.

Definition get (key : string) : result layer_class :=
  if contains "gauss" (lower key) then Ok GaussianLayer
  else if contains "ising" (lower key) then Ok IsingLayer
  else if contains "bern" (lower key) then Ok BernoulliLayer
  else if contains "expo" (lower key) then Ok ExponentialLayer
  else Raise ValueError.

(** ** A reference backend over exact reals *)

(** Modelled from the spec: the matrix functions of the backend contract
    (section 6: zeros, ones, mean along an axis, dot, the batched bilinear
    contraction, and the running-average mix that [matrix.py] documents as
    "a weighted average of two matrices (x and y), stored in x"), over
    exact reals. The contraction is the vectorised expression
    [(dot(vis, W) * hid)] summed along [axis]: along axis 1, one value
    [v_k^T W h_k] per sample. The mean of an empty batch has no real value
    and is signalled. *)
Module reference.
Section Functions.
Local Open Scope R_scope.

Definition vsum (v : list R) : R := foldr Rplus 0 v.

Definition column (j : nat) (a : list (list R)) : list R :=
  fmap (M:=list) (fun r => nth j r 0) a.

Definition width (a : list (list R)) : nat :=
  match a with
  | [] => 0
  | r :: _ => length r
  end.

Definition rectangular (a : list (list R)) : Prop :=
  Forall (fun r => length r = width a) a.

Definition zeros (n : nat) : result tensor := Ok (Vec (replicate n 0)).

Definition ones_like (x : tensor) : result tensor :=
  Ok (tmap (fun _ => 1) x).

Definition mix_inplace (w : R) (x y : tensor) : result tensor :=
  add (smul w x) (smul (1 - w) y).

Definition tsum (x : tensor) (axis : nat) : result tensor :=
  match x, axis with
  | Mat a, O =>
      if decide (a <> [] /\ rectangular a)
      then Ok (Vec (fmap (M:=list) (fun j => vsum (column j a))
                      (seq 0 (width a))))
      else Raise ValueError
  | Mat a, S O => Ok (Vec (fmap (M:=list) vsum a))
  | _, _ => Raise ValueError
  end.

Definition mean (x : tensor) (axis : nat) : result tensor :=
  match x, axis with
  | Mat a, O =>
      s <~ tsum x 0 ;; Ok (divs s (INR (length a)))
  | Mat a, S O =>
      Ok (Vec (fmap (M:=list) (fun r => vsum r / INR (length r)) a))
  | _, _ => Raise ValueError
  end.

Definition dot (x y : tensor) : result tensor :=
  match x, y with
  | Mat a, Mat b =>
      if decide (Forall (fun r => length r = length b) a /\ rectangular b)
      then Ok (Mat (fmap (M:=list)
                      (fun row =>
                         fmap (M:=list)
                           (fun j => vsum (zip_with Rmult row (column j b)))
                           (seq 0 (width b)))
                      a))
      else Raise ValueError
  | _, _ => Raise ValueError
  end.

Definition batch_dot (vis w hid : tensor) (axis : nat) : result tensor :=
  vw <~ dot vis w ;;
  p <~ mul vw hid ;;
  tsum p axis.
End Functions.

Definition backend : Backend := {|
  be_zeros := zeros;
  be_ones_like := ones_like;
  be_mix_inplace := mix_inplace;
  be_mean := mean;
  be_dot := dot;
  be_batch_dot := batch_dot
|}.
End reference.

(** ** Reference values and example states *)

(** The value the documented formula gives for one unit and one sample:
    [loc*phi + var*phi^2/2 + log(var)]. *)
Definition documented_log_partition (loc var phi : R) : R :=
  (loc * phi + var * phi ^ 2 / 2 + ln var)%R.

(** A Gaussian layer of one unit. *)
Definition gaussian_unit (loc log_var : R) : unit_layer := {|
  base := Layer.set_int_params Layer.init
            {[ "loc" := Vec [loc]; "log_var" := Vec [log_var] ]};
  len := 1;
  sample_size := 0;
  ext_params := {[ "mean" := None; "variance" := None ]}
|}.

(** [GaussianLayer(1)] as its constructor leaves it: [loc = 0] and
    [log_var = 0]. *)
Definition standard_gaussian : unit_layer := gaussian_unit 0 0.

(** [needle] occurs in [s] as a contiguous substring. *)
Definition substring_of (needle s : string) : Prop :=
  exists pre post : string, s = pre +:+ needle +:+ post.

(** ** Predicates on computations *)

(** A computation that leaves [sample_size] as it found it, whether it
    returns or raises. *)
Definition keeps_size {A} (m : St unit_layer A) : Prop :=
  forall s, sample_size (m s).1 = sample_size s.

(** A computation that stores [new] in [sample_size] when it returns and
    leaves it alone when it raises. *)
Definition sets_size_on_return {A} (new : nat) (m : St unit_layer A) : Prop :=
  forall s,
    sample_size (m s).1 =
    match (m s).2 with
    | Ok _ => new
    | Raise _ => sample_size s
    end.

(** ** The extrinsic parameters an [update] should leave *)

Definition vec_at (v : list R) (j : nat) : R := nth j v 0%R.
Definition mat_at (a : list (list R)) (k j : nat) : R := nth j (nth k a []) 0%R.

(** The [n] by [m] matrix whose entry [(k, j)] is [f k j]. *)
Definition tabulate (n m : nat) (f : nat -> nat -> R) : list (list R) :=
  fmap (M:=list) (fun k => fmap (M:=list) (f k) (seq 0 m)) (seq 0 n).

(** The inverse temperatures as [update] takes them: a tensor of shape
    [(num_samples, 1)], or [None]. *)
Definition beta_column (betas : option (list R)) : option tensor :=
  match betas with
  | Some bs => Some (Mat (fmap (M:=list) (fun b => [b]) bs))
  | None => None
  end.

(** [beta_k * x], and [x] itself when no [beta] is given. *)
Definition tempered (betas : option (list R)) (k : nat) (x : R) : R :=
  match betas with
  | Some bs => (vec_at bs k * x)%R
  | None => x
  end.

(** The entries [update] writes, as functions of the field [phi], the
    inverse temperatures and the intrinsic parameters alone. *)
Definition extrinsic (cls : layer_class) (betas : option (list R))
    (phi : list (list R)) (loc log_var : list R)
    : gmap string (option tensor) :=
  let n := length phi in
  let m := length loc in
  let field k j := tempered betas k (mat_at phi k j) in
  match cls with
  | GaussianLayer =>
      {[ "mean" :=
           Some (Mat (tabulate n m (fun k j => field k j + vec_at loc j)%R));
         "variance" :=
           Some (Mat (tabulate n m
                        (fun k j => Rtrigo_def.exp (vec_at log_var j)))) ]}
  | IsingLayer | BernoulliLayer =>
      {[ "field" :=
           Some (Mat (tabulate n m (fun k j => field k j + vec_at loc j)%R)) ]}
  | ExponentialLayer =>
      {[ "rate" :=
           Some (Mat (tabulate n m (fun k j => vec_at loc j - field k j)%R)) ]}
  end.

(** ** Moment matching of the Ising and Bernoulli layers *)

(** The mean of a unit as a function of [loc], its inverse, and the open
    interval of means that some finite [loc] produces. *)
Definition mean_of_loc (cls : layer_class) : R -> R :=
  match cls with
  | BernoulliLayer => be.expit1
  | _ => Rtrigo_def.tanh
  end.

Definition loc_of_mean (cls : layer_class) : R -> R :=
  match cls with
  | BernoulliLayer => be.logit1
  | _ => be.atanh1
  end.

Definition interior (cls : layer_class) (x : R) : Prop :=
  match cls with
  | BernoulliLayer => (0 < x < 1)%R
  | _ => (-1 < x < 1)%R
  end.

(** The vector of length [m] whose entry [j] is [f j]. *)
Definition vtab (m : nat) (f : nat -> R) : list R := fmap (M:=list) f (seq 0 m).

(** The running mean after a batch, unit by unit: the previous mean
    weighted by [n_prev / (n_prev + n)] plus the batch mean weighted by
    [n / (n_prev + n)]. *)
Definition running_mean (cls : layer_class) (loc : list R) (n_prev : nat)
    (batch : list (list R)) : list R :=
  let n := length batch in
  vtab (length loc) (fun j =>
    mean_of_loc cls (vec_at loc j) * (INR n_prev / INR (n + n_prev))
    + INR n * (reference.vsum (reference.column j batch) / INR n)
      / INR (n + n_prev))%R.

(** The layer with a new [loc] and a new [sample_size]. *)
Definition absorbed (self : unit_layer) (loc : list R) (n : nat) : unit_layer :=
  set_sample_size n
    (set_base self
       (Layer.set_int_params (base self)
          (<["loc" := Vec loc]> (int_params self)))).

(** [BernoulliLayer(1)] as its constructor leaves it. *)
Definition fresh_bernoulli : unit_layer := {|
  base := Layer.set_int_params Layer.init {[ "loc" := Vec [0%R] ]};
  len := 1;
  sample_size := 0;
  ext_params := {[ "field" := None ]}
|}.

(** ** The energy of the weights by explicit loops *)

(** The energy of one sample, by a loop over the visible units [i] and,
    inside it, a loop over the hidden units [j]:
    [- sum_i sum_j W_ij * v_i * h_j]. *)
Definition energy_by_loops (w : list (list R)) (v h : list R) : R :=
  (- reference.vsum
       (vtab (length v) (fun i =>
          reference.vsum
            (vtab (length h) (fun j =>
               mat_at w i j * vec_at v i * vec_at h j)))))%R.

(** ** The energy of a Gaussian layer, unit by unit *)

(** The energy the code gives one sample [row]: half the mean over the
    units of [(v_j - loc_j)^2 / exp(log_var_j)]. *)
Definition quadratic_energy (loc log_var row : list R) : R :=
  (0.5 * (reference.vsum
            (vtab (length loc) (fun j =>
               (vec_at row j - vec_at loc j) * (vec_at row j - vec_at loc j)
               / Rtrigo_def.exp (vec_at log_var j)))
          / INR (length loc)))%R.

(** The energy the docstring of [GaussianLayer.energy] writes for one
    sample: [1/2 * sum_i (v_i - loc_i)^2 / var_i], a sum over the units. *)
Definition documented_energy (loc log_var row : list R) : R :=
  (0.5 * reference.vsum
           (vtab (length loc) (fun j =>
              (vec_at row j - vec_at loc j) ^ 2
              / Rtrigo_def.exp (vec_at log_var j))))%R.

(** ** Readout *)

(** The elements of a tensor, row after row. *)
Definition elements (t : tensor) : list R :=
  match t with
  | Vec v => v
  | Mat a => concat a
  end.

(** [+1] where [x > c], [-1] elsewhere; [1] where [x > c], [0] elsewhere. *)
Definition sign_above (c x : R) : R := if Rlt_dec c x then 1%R else (-1)%R.
Definition step_above (c x : R) : R := if Rlt_dec c x then 1%R else 0%R.

(** ** Penalties *)

(** Every penalised name is a parameter of the layer. *)
Definition penalties_bound (self : Layer.t) : Prop :=
  forall name, is_Some (Layer.penalties self !! name) ->
               is_Some (Layer.int_params self !! name).

(** A computation that leaves the component [f] of the layer as it found
    it, whether it returns or raises. *)
Definition preserves {A B} (f : unit_layer -> B) (m : St unit_layer A)
    : Prop :=
  forall s, f (m s).1 = f s.
(** ** Moment matching of the Gaussian layer *)








(** ** Shapes *)

(** Two tensors of one shape: two vectors of one length, or two matrices
    whose rows have the same lengths. *)
Definition same_shape (x y : tensor) : Prop :=
  match x, y with
  | Vec v, Vec w => length v = length w
  | Mat a, Mat b => shape2 a = shape2 b
  | _, _ => False
  end.

(** * Properties *)

(** ** The monad *)

Lemma bind_ok {S A B} (m : St S A) (k : A -> St S B) s s' a :
  m s = (s', Ok a) -> bind m k s = k a s'.
Proof. intros E. unfold bind. now rewrite E. Qed.

(** A successful [bind] splits into two successful halves. *)
Lemma bind_inv {S A B} (m : St S A) (k : A -> St S B) s s'' b :
  bind m k s = (s'', Ok b) ->
  exists s' a, m s = (s', Ok a) /\ k a s' = (s'', Ok b).
Proof.
  unfold bind. destruct (m s) as [s' [a | e]]; [eauto | discriminate].
Qed.

(** ** [Layer]: constraints *)

Lemma set_base_id (self : unit_layer) : set_base self (base self) = self.
Proof. now destruct self. Qed.

Lemma layer_add_constraint_raises (self : Layer.t)
    (c : gmap string Layer.constraint) :
  Layer.add_constraint c self = (self, Raise AttributeError).
Proof. reflexivity. Qed.

(** With a constraint in the dictionary (put there directly, since
    [add_constraint] cannot), the loop of [enforce_constraints] stops at
    its first [self.constraint]. *)
Lemma layer_enforce_constraints_raises (self : Layer.t) :
  Layer.constraints self <> ∅ ->
  Layer.enforce_constraints self = (self, Raise AttributeError).
Proof.
  intros Hne. unfold Layer.enforce_constraints.
  erewrite bind_ok by reflexivity.
  erewrite bind_ok by reflexivity.
  destruct (map_to_list (Layer.constraints self)) as [| [k f] rest] eqn:E.
  - now apply map_to_list_empty_iff in E.
  - reflexivity.
Qed.

Lemma layer_enforce_constraints_empty (self : Layer.t) :
  Layer.constraints self = ∅ ->
  Layer.enforce_constraints self = (self, Ok tt).
Proof.
  intros He. unfold Layer.enforce_constraints.
  erewrite bind_ok by reflexivity.
  erewrite bind_ok by reflexivity.
  now rewrite He, map_to_list_empty.
Qed.

Lemma subtract_keeps_constraints (deltas : gmap string tensor)
    (self : Layer.t) :
  Layer.constraints
    (zoom Layer.int_params Layer.set_int_params
       (be.subtract_dicts_inplace deltas) self).1 =
  Layer.constraints self.
Proof.
  unfold zoom.
  now destruct (be.subtract_dicts_inplace deltas (Layer.int_params self)).
Qed.

(** C3 (as the code has it). [add_constraint] registers nothing: on every
    layer, and so on every unit layer of every class over every backend,
    the call raises [AttributeError] at [self.constraint] and leaves the
    layer, its [constraints] dictionary included, as it was. And were a
    constraint in the dictionary, [parameter_step] would not return: after
    the subtraction, [enforce_constraints] raises at the same misspelt
    attribute. *)
Theorem add_constraint_raises (backend : Backend) (cls : layer_class)
    (c : gmap string Layer.constraint) :
  (forall self : Layer.t,
     Layer.add_constraint c self = (self, Raise AttributeError)) /\
  (forall self : unit_layer,
     call backend cls (AddConstraint c) self =
     (self, Raise AttributeError)) /\
  (forall (self : Layer.t) (deltas : gmap string tensor),
     Layer.constraints self <> ∅ ->
     exists e, (Layer.parameter_step deltas self).2 = Raise e).
Proof.
  split; [reflexivity |]. split.
  - intros self. cbn. unfold inherited, zoom.
    rewrite layer_add_constraint_raises. now rewrite set_base_id.
  - intros self deltas Hne. unfold Layer.parameter_step, bind.
    pose proof (subtract_keeps_constraints deltas self) as Hc.
    destruct (zoom _ _ _ self) as [self' [[] | e]]; cbn in Hc.
    + rewrite layer_enforce_constraints_raises by now rewrite Hc.
      now exists AttributeError.
    + now exists e.
Qed.

(** ** [ExponentialLayer]: [online_param_update] and [mode] *)

(** C2 (as the code has it). [ExponentialLayer.online_param_update] never
    updates anything: [self.mean] takes no argument, so the call
    [self.mean(self.int_params['loc'])] raises [TypeError] (or the lookup
    of ['loc'] before it raises [KeyError]), and neither [loc] nor
    [sample_size] is touched. *)
Theorem exponential_online_param_update_raises (backend : Backend)
    (data : tensor) (self : unit_layer) :
  ExponentialLayer.online_param_update backend data self =
  (self, match int_params self !! "loc" with
         | Some _ => Raise TypeError
         | None => Raise KeyError
         end).
Proof.
  unfold ExponentialLayer.online_param_update, bind, gets, get_int, reads,
    getitem.
  now destruct (int_params self !! "loc").
Qed.

(** C9. [mode()] of an Exponential layer raises [NotImplementedError] in
    every state: it returns no value, and the exception is not the one
    the registry raises for an unknown layer type. *)
Theorem exponential_mode_raises (self : unit_layer) :
  ExponentialLayer.mode self = Raise NotImplementedError /\
  (forall v, ExponentialLayer.mode self <> Ok v) /\
  NotImplementedError <> ValueError.
Proof. repeat split; intros; discriminate. Qed.

(** ** [Weights]: the energy *)

(** Over [pytorch_backend/matrix.py] as it stands, whose [batch_dot] is
    still a stub, [Weights.energy] raises [NotImplementedError] once the
    weight matrix has been read. *)
Theorem weights_energy_pytorch_raises (self : Weights.t) (vis hid : tensor) :
  Weights.energy pytorch_backend self vis hid =
  (w <~ Weights.W self ;; Raise NotImplementedError).
Proof.
  unfold Weights.energy, Weights.W.
  now destruct (getitem _ _).
Qed.

(** ** Inversion of successful computations *)

Lemma lift_inv {S A} (r : result A) (s s' : S) a :
  lift r s = (s', Ok a) -> s' = s /\ r = Ok a.
Proof. unfold lift. now intros [= -> ->]. Qed.

Lemma reads_inv {S A} (f : S -> result A) (s s' : S) a :
  reads f s = (s', Ok a) -> s' = s /\ f s = Ok a.
Proof. unfold reads. now intros [= -> ->]. Qed.

Lemma modify_inv {S} (f : S -> S) (s s' : S) u :
  modify f s = (s', Ok u) -> s' = f s.
Proof. unfold modify. now intros [= <-]. Qed.

Lemma ret_inv {S A} (a b : A) (s s' : S) :
  ret a s = (s', Ok b) -> s' = s /\ a = b.
Proof. unfold ret. now intros [= -> ->]. Qed.

Ltac st_inv H :=
  repeat first
    [ apply bind_inv in H as (? & ? & ?%lift_inv & H); destruct_and?
    | apply bind_inv in H as (? & ? & ?%reads_inv & H); destruct_and?
    | apply bind_inv in H as (? & ? & ?%modify_inv & H)
    | apply bind_inv in H as (? & ? & ?%ret_inv & H); destruct_and?
    | apply modify_inv in H
    | apply ret_inv in H as [? ?] ];
  subst.

(** ** [GaussianLayer]: readout and log-partition function *)

Lemma gaussian_mode_mean_any_state (self : unit_layer) :
  GaussianLayer.mode self = GaussianLayer.mean self.
Proof. reflexivity. Qed.

(** C10. Once [update] has returned, [mode()] and [mean()] of a Gaussian
    layer return the same value, the tensor stored under
    [ext_params['mean']]. *)
Theorem gaussian_mode_is_mean (backend : Backend)
    (scaled_units weights : tensor) (beta : option tensor)
    (self self' : unit_layer) :
  GaussianLayer.update backend scaled_units weights beta self =
    (self', Ok tt) ->
  GaussianLayer.mode self' = GaussianLayer.mean self' /\
  exists m : tensor,
    ext_params self' !! "mean" = Some (Some m) /\
    GaussianLayer.mode self' = Ok (Some m) /\
    GaussianLayer.mean self' = Ok (Some m).
Proof.
  intros H. split; [reflexivity |].
  unfold GaussianLayer.update, get_ext, get_int, set_ext in H.
  apply bind_inv in H as (? & ? & _ & H).
  apply bind_inv in H as (? & ? & _ & H).
  apply bind_inv in H as (? & ? & _ & H).
  st_inv H.
  eexists. unfold GaussianLayer.mode, GaussianLayer.mean, getitem. cbn.
  rewrite lookup_insert_ne by done. rewrite lookup_insert_eq. done.
Qed.

Lemma gaussian_mode_is_mean_witness :
  exists self' : unit_layer,
    GaussianLayer.update reference.backend (Mat [[1%R]]) (Mat [[1%R]]) None
      standard_gaussian = (self', Ok tt) /\
    (GaussianLayer.mode self' = GaussianLayer.mean self' /\
     exists m : tensor,
       ext_params self' !! "mean" = Some (Some m) /\
       GaussianLayer.mode self' = Ok (Some m) /\
       GaussianLayer.mean self' = Ok (Some m)).
Proof.
  eexists. split; [reflexivity |].
  apply (gaussian_mode_is_mean reference.backend (Mat [[1%R]]) (Mat [[1%R]])
           None standard_gaussian).
  reflexivity.
Defined.

(** C1 (as the code has it). For one unit and one sample,
    [log_partition_function] returns [loc*phi + var*phi^2 + log(var)] with
    [var = exp(log_var)]: the quadratic term is not halved, so the result
    exceeds the documented [loc*phi + var*phi^2/2 + log(var)] by
    [var*phi^2/2]. With [loc = 0], [log_var = 0] and [phi = 1] the code
    returns [1] and the documented value is [1/2]. *)
Theorem gaussian_log_partition_not_halved :
  (forall loc log_var phi : R,
     let var := Rtrigo_def.exp log_var in
     GaussianLayer.log_partition_function (gaussian_unit loc log_var)
       (Mat [[phi]]) =
       Ok (Mat [[(loc * phi + var * (phi * phi) + ln var)%R]]) /\
     (loc * phi + var * (phi * phi) + ln var
      - documented_log_partition loc var phi = var * phi ^ 2 / 2)%R) /\
  GaussianLayer.log_partition_function standard_gaussian (Mat [[1%R]]) =
    Ok (Mat [[1%R]]) /\
  documented_log_partition 0 (Rtrigo_def.exp 0) 1 = (1 / 2)%R.
Proof.
  split; [| split].
  - intros loc log_var phi var. split; [reflexivity |].
    unfold documented_log_partition. lra.
  - transitivity
      (Ok (Mat [[(0 * 1 + Rtrigo_def.exp 0 * (1 * 1)
                  + ln (Rtrigo_def.exp 0))%R]])); [reflexivity |].
    do 4 f_equal. rewrite exp_0, ln_1. lra.
  - unfold documented_log_partition. rewrite exp_0, ln_1. lra.
Qed.

(** ** The registry *)

Lemma starts_with_spec (p s : string) :
  starts_with p s = true <-> exists post, s = p +:+ post.
Proof.
  revert s. induction p as [| a p IH]; intros s; cbn.
  - split; [intros _; now exists s | done].
  - destruct s as [| b s]; cbn.
    + split; [done | intros [post [=]]].
    + destruct (decide (a = b)) as [-> | Hne].
      * rewrite IH. split; intros [post E]; exists post.
        -- cbn. now rewrite E.
        -- cbn in E. now injection E.
      * split; [done | intros [post [= E _]]; done].
Qed.

Lemma contains_spec (needle s : string) :
  contains needle s = true <-> substring_of needle s.
Proof.
  unfold substring_of. induction s as [| c s IH].
  - cbn. rewrite orb_false_r, starts_with_spec. split.
    + intros [post E]. now exists EmptyString, post.
    + intros [[| c pre] [post E]]; [now exists post | discriminate].
  - cbn [contains]. rewrite orb_true_iff, starts_with_spec, IH. split.
    + intros [[post E] | [pre [post E]]].
      * now exists EmptyString, post.
      * exists (String c pre), post. cbn. now rewrite E.
    + intros [[| c' pre] [post E]].
      * left. now exists post.
      * right. injection E as -> E. now exists pre, post.
Qed.

Lemma contains_false (needle s : string) :
  contains needle s = false <-> ~ substring_of needle s.
Proof. rewrite <- contains_spec. now destruct (contains needle s). Qed.

(** C8. [get] lowercases the key and tries the tokens in the order
    gauss, ising, bern, expo, each as a substring: a class is returned
    exactly when its token occurs and no earlier one does, [ValueError]
    is raised exactly when none of the four occurs, and ["GAUSSIAN"],
    ["gauss"] and ["Gauss_layer"] all give the Gaussian layer. *)
Theorem get_first_matching_token (key : string) :
  let has token := substring_of token (lower key) in
  (get key = Ok GaussianLayer <-> has "gauss") /\
  (get key = Ok IsingLayer <-> ~ has "gauss" /\ has "ising") /\
  (get key = Ok BernoulliLayer <->
     ~ has "gauss" /\ ~ has "ising" /\ has "bern") /\
  (get key = Ok ExponentialLayer <->
     ~ has "gauss" /\ ~ has "ising" /\ ~ has "bern" /\ has "expo") /\
  (get key = Raise ValueError <->
     ~ has "gauss" /\ ~ has "ising" /\ ~ has "bern" /\ ~ has "expo") /\
  get "GAUSSIAN" = Ok GaussianLayer /\
  get "gauss" = Ok GaussianLayer /\
  get "Gauss_layer" = Ok GaussianLayer /\
  get "quux" = Raise ValueError.
Proof.
  intros has. subst has. cbn beta.
  rewrite <- !contains_false, <- !contains_spec. unfold get.
  destruct (contains "gauss" (lower key)), (contains "ising" (lower key)),
    (contains "bern" (lower key)), (contains "expo" (lower key));
    repeat split; intros; destruct_and?; try done.
Qed.

(** ** [sample_size] *)

Lemma keeps_bind {A B} (m : St unit_layer A) (k : A -> St unit_layer B) :
  keeps_size m -> (forall a, keeps_size (k a)) -> keeps_size (bind m k).
Proof.
  intros Hm Hk s. unfold bind. specialize (Hm s).
  destruct (m s) as [s' [a | e]]; cbn in *; [| done].
  now rewrite Hk.
Qed.

Lemma sets_size_bind {A B} new (m : St unit_layer A)
    (k : A -> St unit_layer B) :
  keeps_size m -> (forall a, sets_size_on_return new (k a)) ->
  sets_size_on_return new (bind m k).
Proof.
  intros Hm Hk s. unfold bind. specialize (Hm s).
  destruct (m s) as [s' [a | e]]; cbn in *; [| done].
  rewrite Hk. now rewrite Hm.
Qed.

Lemma keeps_lift {A} (r : result A) : keeps_size (lift r).
Proof. now intros s. Qed.
Lemma keeps_reads {A} (f : unit_layer -> result A) : keeps_size (reads f).
Proof. now intros s. Qed.
Lemma keeps_gets {A} (f : unit_layer -> A) : keeps_size (gets f).
Proof. now intros s. Qed.
Lemma keeps_ret {A} (a : A) : keeps_size (ret a).
Proof. now intros s. Qed.
Lemma keeps_raise {A} e : keeps_size (raise (A:=A) e).
Proof. now intros s. Qed.
Lemma keeps_get_int name : keeps_size (get_int name).
Proof. now intros s. Qed.
Lemma keeps_set_int name v : keeps_size (set_int name v).
Proof. now intros s. Qed.
Lemma keeps_get_ext name : keeps_size (get_ext name).
Proof. now intros s. Qed.
Lemma keeps_set_ext name v : keeps_size (set_ext name v).
Proof. now intros s. Qed.
Lemma keeps_inherited {A} (m : St Layer.t A) : keeps_size (inherited m).
Proof. intros s. unfold inherited, zoom. now destruct (m (base s)). Qed.
Lemma keeps_call_method {A X} arity (args : list X) (m : St unit_layer A) :
  keeps_size m -> keeps_size (call_method arity args m).
Proof.
  intros H. unfold call_method. case_decide; [done | apply keeps_raise].
Qed.

Create HintDb keeps discriminated.
#[local] Hint Resolve keeps_lift keeps_reads keeps_gets keeps_ret keeps_raise
  keeps_get_int keeps_set_int keeps_get_ext keeps_set_ext keeps_inherited
  keeps_call_method : keeps.

Ltac keeps :=
  repeat first
    [ apply keeps_bind; [| intros ?]
    | match goal with |- keeps_size (match ?b with _ => _ end) => destruct b end
    | progress cbv zeta
    | solve [auto with keeps] ].

Lemma update_keeps_size backend cls scaled_units weights beta :
  keeps_size (update backend cls scaled_units weights beta).
Proof.
  destruct cls; cbn [update];
    [ unfold GaussianLayer.update | unfold IsingLayer.update
    | unfold BernoulliLayer.update | unfold ExponentialLayer.update ];
    keeps.
Qed.

Lemma shrink_parameters_keeps_size backend cls shrinkage :
  keeps_size (shrink_parameters backend cls shrinkage).
Proof.
  destruct cls; cbn [shrink_parameters];
    [ unfold GaussianLayer.shrink_parameters
    | unfold IsingLayer.shrink_parameters
    | unfold BernoulliLayer.shrink_parameters
    | unfold ExponentialLayer.shrink_parameters ];
    keeps.
Qed.

Ltac sets_size :=
  repeat first
    [ apply sets_size_bind; [solve [keeps] | intros ?]
    | progress cbv zeta ].

Lemma online_param_update_size backend cls data (self : unit_layer) :
  sample_size (online_param_update backend cls data self).1 =
  match (online_param_update backend cls data self).2 with
  | Ok _ => py_len data + sample_size self
  | Raise _ => sample_size self
  end.
Proof.
  assert (forall A (k : nat -> St unit_layer A) new,
             (forall ss, ss = sample_size self ->
                         sets_size_on_return new (k ss)) ->
             sample_size (bind (gets sample_size) k self).1 =
             match (bind (gets sample_size) k self).2 with
             | Ok _ => new
             | Raise _ => sample_size self
             end) as Hstart.
  { intros A k new Hk. unfold bind, gets. now apply Hk. }
  destruct cls; cbn [online_param_update];
    [ unfold GaussianLayer.online_param_update
    | unfold IsingLayer.online_param_update
    | unfold BernoulliLayer.online_param_update
    | unfold ExponentialLayer.online_param_update ];
    cbv zeta; apply Hstart; intros ss ->; sets_size;
    intros s; reflexivity.
Qed.

(** The effect of one call on [sample_size]. *)
Lemma call_sample_size backend cls (m : method) (self : unit_layer) :
  sample_size (call backend cls m self).1 =
  sample_size self + rows_of m (call backend cls m self).2.
Proof.
  destruct m; cbn [call rows_of].
  1-4: rewrite keeps_inherited; lia.
  - rewrite online_param_update_size.
    destruct (online_param_update backend cls data self).2; lia.
  - rewrite shrink_parameters_keeps_size; lia.
  - rewrite update_keeps_size; lia.
Qed.

Lemma run_app backend cls (ms1 ms2 : list method) (self : unit_layer) :
  run backend cls (ms1 ++ ms2) self =
  run backend cls ms2 (run backend cls ms1 self).
Proof. revert self. induction ms1 as [| m ms1 IH]; intros self; cbn; auto. Qed.

Lemma run_sample_size backend cls (ms : list method) (self : unit_layer) :
  sample_size (run backend cls ms self) =
  sample_size self + rows_absorbed backend cls ms self.
Proof.
  revert self. induction ms as [| m ms IH]; intros self; [cbn; lia |].
  cbn [run rows_absorbed]. rewrite IH.
  generalize (call_sample_size backend cls m self).
  destruct (call backend cls m self) as [self' r]; cbn [fst snd].
  intros ->. lia.
Qed.

Lemma init_sample_size backend cls (num_units : nat) (self : unit_layer) :
  init backend cls num_units = Ok self -> sample_size self = 0.
Proof.
  destruct cls; cbn [init];
    [ unfold GaussianLayer.init | unfold IsingLayer.init
    | unfold BernoulliLayer.init | unfold ExponentialLayer.init ];
    repeat (destruct (be_zeros backend num_units); cbn [rbind];
            [| discriminate]);
    now intros [= <-].
Qed.

(** C5. For each of the four unit-layer classes, over any backend:
    a call changes [sample_size] only when it is an [online_param_update]
    that returns, and then adds the number of rows of its batch; so along
    any sequence of calls [sample_size] never decreases, it is its
    initial value plus the rows of all the batches absorbed so far, and
    for a layer fresh from its constructor it is the number of rows ever
    absorbed. *)
Theorem sample_size_counts_rows (backend : Backend) (cls : layer_class) :
  (forall (m : method) (self : unit_layer),
     sample_size (call backend cls m self).1 =
     sample_size self + rows_of m (call backend cls m self).2) /\
  (forall (ms more : list method) (self : unit_layer),
     sample_size (run backend cls ms self) <=
     sample_size (run backend cls (ms ++ more) self)) /\
  (forall (ms : list method) (self : unit_layer),
     sample_size (run backend cls ms self) =
     sample_size self + rows_absorbed backend cls ms self) /\
  (forall (num_units : nat) (ms : list method) (self : unit_layer),
     init backend cls num_units = Ok self ->
     sample_size (run backend cls ms self) =
     rows_absorbed backend cls ms self).
Proof.
  split; [apply call_sample_size |].
  split; [| split; [apply run_sample_size |]].
  - intros ms more self. rewrite run_app, (run_sample_size _ _ more). lia.
  - intros num_units ms self Hinit.
    now rewrite run_sample_size, (init_sample_size _ _ _ _ Hinit).
Qed.

(** The count does move: over the reference backend a fresh Bernoulli
    layer absorbs a batch of two rows. *)
Example bernoulli_absorbs_two_rows :
  let fresh := {| base := Layer.set_int_params Layer.init
                            {[ "loc" := Vec [0%R] ]};
                  len := 1; sample_size := 0;
                  ext_params := {[ "field" := None ]} |} in
  BernoulliLayer.init reference.backend 1 = Ok fresh /\
  (call reference.backend BernoulliLayer
     (OnlineParamUpdate (Mat [[1%R]; [0%R]])) fresh).2 = Ok tt /\
  sample_size (call reference.backend BernoulliLayer
                 (OnlineParamUpdate (Mat [[1%R]; [0%R]])) fresh).1 = 2.
Proof. repeat split. Qed.

(** ** Tensors: shapes and entries *)

Lemma tabulate_length n m f : length (tabulate n m f) = n.
Proof. unfold tabulate. now rewrite length_fmap, length_seq. Qed.

Lemma tabulate_lookup n m f k :
  k < n -> tabulate n m f !! k = Some (fmap (M:=list) (f k) (seq 0 m)).
Proof.
  intros Hk. unfold tabulate. rewrite list_lookup_fmap.
  now rewrite lookup_seq_lt.
Qed.

(** A matrix is the tabulation of [f] when it has the right shape and the
    right entries. *)
Lemma tabulate_eq (a : list (list R)) n m f :
  length a = n ->
  (forall k row, a !! k = Some row ->
     length row = m /\ forall j x, row !! j = Some x -> x = f k j) ->
  a = tabulate n m f.
Proof.
  intros Hn Hrows.
  apply (list_eq_same_length _ _ n); [apply tabulate_length | done |].
  intros k row row' Hk Hrow Hrow'.
  rewrite tabulate_lookup in Hrow' by done. injection Hrow' as <-.
  destruct (Hrows k row Hrow) as [Hm Hentries].
  apply (list_eq_same_length _ _ m);
    [now rewrite length_fmap, length_seq | done |].
  intros j x y Hj Hx Hy.
  rewrite list_lookup_fmap, lookup_seq_lt in Hy by done.
  injection Hy as <-. now apply Hentries.
Qed.

Lemma nth_lookup_R (v : list R) j x : v !! j = Some x -> vec_at v j = x.
Proof.
  intros H. unfold vec_at. now apply nth_lookup_Some with (d := 0%R) in H.
Qed.

Lemma mat_at_lookup (a : list (list R)) k j row x :
  a !! k = Some row -> row !! j = Some x -> mat_at a k j = x.
Proof.
  intros Hk Hj. unfold mat_at.
  apply nth_lookup_Some with (d := []) in Hk. rewrite Hk.
  now apply nth_lookup_Some.
Qed.

Lemma broadcast_row (v : list R) (a : list (list R)) :
  Forall (fun r => length r = length v) a ->
  be.broadcast (Vec v) (Mat a) = Ok (Mat (fmap (M:=list) (fun _ => v) a)).
Proof. intros H. unfold be.broadcast. now rewrite decide_True. Qed.

Lemma broadcast_column (bs : list R) (a : list (list R)) :
  length bs = length a ->
  be.broadcast (Mat (fmap (M:=list) (fun b => [b]) bs)) (Mat a) =
  Ok (Mat (zip_with (fun b r => fmap (M:=list) (fun _ => b) r) bs a)).
Proof.
  intros H. unfold be.broadcast. rewrite decide_True.
  - do 2 f_equal. now rewrite zip_with_fmap_l.
  - split; [now rewrite length_fmap |].
    apply Forall_fmap. now apply Forall_true.
Qed.

Lemma tzip_mat f (a b : list (list R)) :
  shape2 a = shape2 b ->
  tzip f (Mat a) (Mat b) = Ok (Mat (zip_with (zip_with f) a b)).
Proof. intros H. unfold tzip. now rewrite decide_True. Qed.

(** ** Running a computation forwards *)

Lemma bind_assoc {S A B C} (m : St S A) (k : A -> St S B) (h : B -> St S C)
    (s : S) :
  bind (bind m k) h s = bind m (fun a => bind (k a) h) s.
Proof. unfold bind. now destruct (m s) as [s' [a | e]]. Qed.

Lemma bind_lift {S A B} (r : result A) (k : A -> St S B) (s : S) a :
  r = Ok a -> bind (lift r) k s = k a s.
Proof. now intros ->. Qed.

Lemma bind_ret {S A B} (a : A) (k : A -> St S B) (s : S) :
  bind (ret a) k s = k a s.
Proof. reflexivity. Qed.

Lemma bind_get_int {B} name v (k : tensor -> St unit_layer B) s :
  int_params s !! name = Some v -> bind (get_int name) k s = k v s.
Proof. intros H. unfold bind, get_int, reads, getitem. now rewrite H. Qed.

Lemma bind_get_ext {B} name v (k : option tensor -> St unit_layer B) s :
  ext_params s !! name = Some v -> bind (get_ext name) k s = k v s.
Proof. intros H. unfold bind, get_ext, reads, getitem. now rewrite H. Qed.

Lemma bind_set_ext {B} name v (k : unit -> St unit_layer B) s :
  bind (set_ext name v) k s =
  k tt (set_ext_params s (<[name := Some v]> (ext_params s))).
Proof. reflexivity. Qed.

Ltac fwd_lift tac := rewrite ?bind_assoc; erewrite bind_lift by tac; cbv beta.
Ltac fwd_get_ext :=
  rewrite ?bind_assoc;
  erewrite bind_get_ext by (cbn; apply lookup_insert_eq); cbv beta.
Ltac fwd_get_int H :=
  rewrite ?bind_assoc; erewrite bind_get_int by exact H; cbv beta.
Ltac fwd_set_ext := rewrite ?bind_assoc; rewrite bind_set_ext; cbv beta.

(** ** The tensor arithmetic of [update] *)

Lemma zip_with_const_r (f : R -> R -> R) (r : list R) (b : R) :
  zip_with f r (fmap (M:=list) (fun _ => b) r) =
  fmap (M:=list) (fun x => f x b) r.
Proof. induction r as [| x r IH]; cbn; [done | now rewrite IH]. Qed.

Lemma fmap_fmap_R (f g : R -> R) (r : list R) :
  fmap (M:=list) g (fmap (M:=list) f r) = fmap (M:=list) (fun x => g (f x)) r.
Proof. induction r as [| x r IH]; cbn; [done | now rewrite IH]. Qed.

Lemma mul_column (phi : list (list R)) (bs : list R) :
  length bs = length phi ->
  mul (Mat phi)
      (Mat (zip_with (fun b r => fmap (M:=list) (fun _ => b) r) bs phi)) =
  Ok (Mat (zip_with (fun b r => fmap (M:=list) (fun x => x * b)%R r) bs phi)).
Proof.
  intros Hlen. unfold mul. rewrite tzip_mat.
  - do 2 f_equal. revert bs Hlen.
    induction phi as [| r phi IH]; intros [| b bs] Hlen; try done.
    cbn. rewrite zip_with_const_r. f_equal. apply IH. now injection Hlen.
  - unfold shape2. revert bs Hlen.
    induction phi as [| r phi IH]; intros [| b bs] Hlen; try done.
    cbn. rewrite length_fmap. f_equal. apply IH. now injection Hlen.
Qed.

Lemma add_row (a : list (list R)) (loc : list R) :
  Forall (fun r => length r = length loc) a ->
  add (Mat a) (Mat (fmap (M:=list) (fun _ => loc) a)) =
  Ok (Mat (fmap (M:=list) (fun r => zip_with Rplus r loc) a)).
Proof.
  intros Hshape. unfold add. rewrite tzip_mat.
  - do 2 f_equal. clear Hshape.
    induction a as [| r a IH]; cbn; [done | now rewrite IH].
  - unfold shape2. induction Hshape as [| r a Hr _ IH]; cbn; [done |].
    now rewrite Hr, IH.
Qed.

Lemma Forall_length_scaled (phi : list (list R)) (bs : list R) (m : nat)
    (g : R -> R -> R) :
  Forall (fun r => length r = m) phi ->
  Forall (fun r => length r = m)
    (zip_with (fun b r => fmap (M:=list) (g b) r) bs phi).
Proof.
  intros H. revert bs. induction H as [| r phi Hr _ IH]; intros [| b bs];
    cbn; try done.
  constructor; [now rewrite length_fmap | apply IH].
Qed.

Lemma Forall_length_fmap (phi : list (list R)) (m : nat) (u : R -> R) :
  Forall (fun r => length r = m) phi ->
  Forall (fun r => length r = m) (fmap (M:=list) (fmap (M:=list) u) phi).
Proof.
  intros H. apply Forall_fmap. apply (Forall_impl _ _ _ H).
  intros r Hr. cbn. now rewrite length_fmap.
Qed.

(** What the three steps of [update] leave, entry by entry: the field,
    mapped by [u] (the sign), tempered, plus the bias. *)
Lemma affine_entries (u : R -> R) (betas : option (list R))
    (phi : list (list R)) (loc : list R) :
  Forall (fun r => length r = length loc) phi ->
  (forall bs, betas = Some bs -> length bs = length phi) ->
  fmap (M:=list) (fun r => zip_with Rplus r loc)
    (match betas with
     | Some bs =>
         zip_with (fun b r => fmap (M:=list) (fun x => x * b)%R r) bs
           (fmap (M:=list) (fmap (M:=list) u) phi)
     | None => fmap (M:=list) (fmap (M:=list) u) phi
     end) =
  tabulate (length phi) (length loc)
    (fun k j => tempered betas k (u (mat_at phi k j)) + vec_at loc j)%R.
Proof.
  intros Hshape Hbetas. apply tabulate_eq.
  - destruct betas as [bs |].
    + rewrite length_fmap, length_zip_with, length_fmap.
      specialize (Hbetas bs eq_refl). lia.
    + now rewrite !length_fmap.
  - intros k row Hrow.
    apply list_lookup_fmap_Some_1 in Hrow as (srow & -> & Hsrow).
    assert (exists prow, phi !! k = Some prow /\
              srow = fmap (M:=list)
                       (fun x => tempered betas k (u x)) prow)
      as (prow & Hprow & ->).
    { destruct betas as [bs |].
      - apply lookup_zip_with_Some in Hsrow as (b & urow & -> & Hb & Hurow).
        apply list_lookup_fmap_Some_1 in Hurow as (prow & -> & Hprow).
        exists prow. split; [done |].
        rewrite fmap_fmap_R. apply list_fmap_ext.
        intros i x _. cbn. rewrite (nth_lookup_R _ _ _ Hb). lra.
      - apply list_lookup_fmap_Some_1 in Hsrow as (prow & -> & Hprow).
        exists prow. split; [done | reflexivity]. }
    assert (length prow = length loc) as Hlen.
    { rewrite Forall_lookup in Hshape. now apply (Hshape k). }
    split.
    + rewrite length_zip_with, length_fmap. lia.
    + intros j x Hx.
      apply lookup_zip_with_Some in Hx as (t & a & -> & Ht & Ha).
      apply list_lookup_fmap_Some_1 in Ht as (p & -> & Hp).
      now rewrite (mat_at_lookup _ _ _ _ _ Hprow Hp), (nth_lookup_R _ _ _ Ha).
Qed.
Lemma mat_fmap_id (phi : list (list R)) :
  fmap (M:=list) (fmap (M:=list) (fun x : R => x)) phi = phi.
Proof.
  induction phi as [| r phi IH]; cbn; [done |].
  rewrite IH. f_equal.
  induction r as [| x r IHr]; cbn; [done | now rewrite IHr].
Qed.

Lemma tabulate_ext n m (f g : nat -> nat -> R) :
  (forall k j, f k j = g k j) -> tabulate n m f = tabulate n m g.
Proof.
  intros H. unfold tabulate. apply list_fmap_ext. intros _ k _.
  apply list_fmap_ext. intros _ j _. apply H.
Qed.

Lemma Forall_length_tabulate n m f :
  Forall (fun r => length r = m) (tabulate n m f).
Proof.
  unfold tabulate. apply Forall_fmap, Forall_true. intros k. cbn.
  now rewrite length_fmap, length_seq.
Qed.

(** A row of per-unit values repeated along the sample axis. *)
Lemma rows_tabulate (a : list (list R)) (v : list R) (h : R -> R) :
  fmap (M:=list) (fun _ => fmap (M:=list) h v) a =
  tabulate (length a) (length v) (fun _ j => h (vec_at v j)).
Proof.
  apply tabulate_eq; [now rewrite length_fmap |].
  intros k row Hrow. apply list_lookup_fmap_Some_1 in Hrow as (_ & -> & _).
  split; [now rewrite length_fmap |].
  intros j x Hx. apply list_lookup_fmap_Some_1 in Hx as (y & -> & Hy).
  now rewrite (nth_lookup_R _ _ _ Hy).
Qed.

(** The steps every [update] shares, from the assignment of the field to
    the addition of the bias. *)
Ltac affine_steps Hloc Hbetas Hshape :=
  fwd_set_ext;
  match goal with
  | |- context [beta_column ?betas] =>
      destruct betas as [bs |]; cbn [beta_column];
      [ specialize (Hbetas bs eq_refl);
        fwd_get_ext; fwd_lift ltac:(reflexivity);
        fwd_lift ltac:(apply broadcast_column;
                       rewrite ?length_fmap; exact Hbetas);
        fwd_lift ltac:(apply mul_column; rewrite ?length_fmap; exact Hbetas);
        fwd_set_ext
      | rewrite ?bind_assoc; rewrite bind_ret ]
  end;
  fwd_get_ext; fwd_lift ltac:(reflexivity); fwd_get_int Hloc;
  fwd_lift ltac:(apply broadcast_row;
                 first [ apply Forall_length_scaled | idtac ];
                 first [ exact Hshape | now apply Forall_length_fmap ]);
  fwd_lift ltac:(apply add_row;
                 first [ apply Forall_length_scaled | idtac ];
                 first [ exact Hshape | now apply Forall_length_fmap ]).

Ltac store_extrinsic :=
  unfold set_ext, modify, set_ext_params; cbn;
  rewrite !insert_insert_eq; now rewrite insert_union_singleton_l.

Lemma ising_update backend self su w betas phi loc log_var :
  be_dot backend su w = Ok (Mat phi) ->
  int_params self !! "loc" = Some (Vec loc) ->
  Forall (fun r => length r = length loc) phi ->
  (forall bs, betas = Some bs -> length bs = length phi) ->
  IsingLayer.update backend su w (beta_column betas) self =
  (set_ext_params self
     (extrinsic IsingLayer betas phi loc log_var ∪ ext_params self), Ok tt).
Proof.
  intros Hdot Hloc Hshape Hbetas.
  pose proof (affine_entries (fun x => x) betas phi loc Hshape Hbetas) as E.
  rewrite mat_fmap_id in E.
  unfold IsingLayer.update. fwd_lift ltac:(exact Hdot).
  affine_steps Hloc Hbetas Hshape; rewrite E; store_extrinsic.
Qed.

Lemma bernoulli_update backend self su w betas phi loc log_var :
  be_dot backend su w = Ok (Mat phi) ->
  int_params self !! "loc" = Some (Vec loc) ->
  Forall (fun r => length r = length loc) phi ->
  (forall bs, betas = Some bs -> length bs = length phi) ->
  BernoulliLayer.update backend su w (beta_column betas) self =
  (set_ext_params self
     (extrinsic BernoulliLayer betas phi loc log_var ∪ ext_params self),
   Ok tt).
Proof.
  intros Hdot Hloc Hshape Hbetas.
  pose proof (affine_entries (fun x => x) betas phi loc Hshape Hbetas) as E.
  rewrite mat_fmap_id in E.
  unfold BernoulliLayer.update. fwd_lift ltac:(exact Hdot).
  affine_steps Hloc Hbetas Hshape; rewrite E; store_extrinsic.
Qed.

Lemma exponential_update backend self su w betas phi loc log_var :
  be_dot backend su w = Ok (Mat phi) ->
  int_params self !! "loc" = Some (Vec loc) ->
  Forall (fun r => length r = length loc) phi ->
  (forall bs, betas = Some bs -> length bs = length phi) ->
  ExponentialLayer.update backend su w (beta_column betas) self =
  (set_ext_params self
     (extrinsic ExponentialLayer betas phi loc log_var ∪ ext_params self),
   Ok tt).
Proof.
  intros Hdot Hloc Hshape Hbetas.
  pose proof (affine_entries Ropp betas phi loc Hshape Hbetas) as E.
  rewrite (tabulate_ext _ _ _
             (fun k j => vec_at loc j - tempered betas k (mat_at phi k j))%R)
    in E by (intros k j; destruct betas; cbn; lra).
  unfold ExponentialLayer.update. fwd_lift ltac:(exact Hdot).
  cbn [neg tmap].
  affine_steps Hloc Hbetas Hshape; rewrite E; store_extrinsic.
Qed.
Lemma gaussian_update backend self su w betas phi loc log_var :
  be_dot backend su w = Ok (Mat phi) ->
  int_params self !! "loc" = Some (Vec loc) ->
  int_params self !! "log_var" = Some (Vec log_var) ->
  length log_var = length loc ->
  Forall (fun r => length r = length loc) phi ->
  (forall bs, betas = Some bs -> length bs = length phi) ->
  GaussianLayer.update backend su w (beta_column betas) self =
  (set_ext_params self
     (extrinsic GaussianLayer betas phi loc log_var ∪ ext_params self),
   Ok tt).
Proof.
  intros Hdot Hloc Hlv Hlen Hshape Hbetas.
  pose proof (affine_entries (fun x => x) betas phi loc Hshape Hbetas) as E.
  rewrite mat_fmap_id in E.
  assert (forall f,
    be.broadcast (be.exp (Vec log_var))
      (Mat (tabulate (length phi) (length loc) f)) =
    Ok (Mat (tabulate (length phi) (length loc)
               (fun _ j => Rtrigo_def.exp (vec_at log_var j))))) as V.
  { intros f. cbn [be.exp tmap]. rewrite broadcast_row.
    - now rewrite rows_tabulate, tabulate_length, Hlen.
    - rewrite length_fmap, Hlen. apply Forall_length_tabulate. }
  unfold GaussianLayer.update. fwd_lift ltac:(exact Hdot).
  affine_steps Hloc Hbetas Hshape; rewrite E;
    fwd_set_ext; fwd_get_int Hlv; fwd_get_ext; fwd_lift ltac:(reflexivity);
    fwd_lift ltac:(apply V);
    unfold set_ext, modify, set_ext_params; cbn;
    rewrite ?insert_insert_eq;
    rewrite <- insert_union_l, <- insert_union_singleton_l;
    now rewrite insert_insert_ne.
Qed.

(** C6. When [be.dot(scaled_units, weights)] returns the field [phi]
    (one row per sample, one column per unit), [update] returns and
    writes, entry by entry: [field = beta*phi + loc] for the Ising and
    Bernoulli layers, [mean = beta*phi + loc] and [variance = exp(log_var)]
    for the Gaussian layer, [rate = loc - beta*phi] for the Exponential
    layer, with [phi] unscaled when [beta] is [None]. Nothing else of the
    layer changes, and the written entries are the same whatever
    [ext_params] held before. *)
Theorem update_sets_extrinsic (backend : Backend) (cls : layer_class)
    (self : unit_layer) (scaled_units weights : tensor)
    (betas : option (list R)) (phi : list (list R)) (loc log_var : list R) :
  be_dot backend scaled_units weights = Ok (Mat phi) ->
  int_params self !! "loc" = Some (Vec loc) ->
  (cls = GaussianLayer ->
   int_params self !! "log_var" = Some (Vec log_var) /\
   length log_var = length loc) ->
  Forall (fun row => length row = length loc) phi ->
  (forall bs, betas = Some bs -> length bs = length phi) ->
  update backend cls scaled_units weights (beta_column betas) self =
    (set_ext_params self
       (extrinsic cls betas phi loc log_var ∪ ext_params self), Ok tt) /\
  (forall (previous : gmap string (option tensor)) (name : string)
          (value : option tensor),
     extrinsic cls betas phi loc log_var !! name = Some value ->
     ext_params
       (update backend cls scaled_units weights (beta_column betas)
          (set_ext_params self previous)).1 !! name = Some value).
Proof.
  intros Hdot Hloc Hlv Hshape Hbetas.
  assert (forall s : unit_layer,
            int_params s = int_params self ->
            update backend cls scaled_units weights (beta_column betas) s =
            (set_ext_params s
               (extrinsic cls betas phi loc log_var ∪ ext_params s), Ok tt))
    as Hall.
  { intros s Hs. rewrite <- Hs in Hloc, Hlv.
    destruct cls; cbn [update].
    - destruct (Hlv eq_refl). now apply gaussian_update.
    - now apply ising_update.
    - now apply bernoulli_update.
    - now apply exponential_update. }
  split; [now apply Hall |].
  intros previous name value Hvalue.
  rewrite (Hall (set_ext_params self previous)) by reflexivity. cbn.
  now apply lookup_union_Some_l.
Qed.

Lemma update_sets_extrinsic_witness :
  update reference.backend GaussianLayer (Mat [[1%R]]) (Mat [[2%R]])
    (beta_column (Some [3%R])) standard_gaussian =
    (set_ext_params standard_gaussian
       (extrinsic GaussianLayer (Some [3%R]) [[(1 * 2 + 0)%R]] [0%R] [0%R]
        ∪ ext_params standard_gaussian), Ok tt) /\
  (forall (previous : gmap string (option tensor)) (name : string)
          (value : option tensor),
     extrinsic GaussianLayer (Some [3%R]) [[(1 * 2 + 0)%R]] [0%R] [0%R]
       !! name = Some value ->
     ext_params
       (update reference.backend GaussianLayer (Mat [[1%R]]) (Mat [[2%R]])
          (beta_column (Some [3%R]))
          (set_ext_params standard_gaussian previous)).1 !! name =
     Some value).
Proof.
  apply (update_sets_extrinsic reference.backend GaussianLayer
           standard_gaussian (Mat [[1%R]]) (Mat [[2%R]]) (Some [3%R])
           [[(1 * 2 + 0)%R]] [0%R] [0%R]).
  - reflexivity.
  - reflexivity.
  - intros _. split; reflexivity.
  - repeat constructor.
  - intros bs [= <-]. reflexivity.
Defined.

(** ** Moment matching: the link functions *)

Lemma tanh_atanh (x : R) :
  (-1 < x < 1)%R -> Rtrigo_def.tanh (be.atanh1 x) = x.
Proof.
  intros [Hlo Hhi]. unfold be.atanh1, Rtrigo_def.tanh, sinh, cosh.
  set (a := (ln ((1 + x) / (1 - x)) / 2)%R).
  assert (0 < (1 + x) / (1 - x))%R as Hy.
  { apply Rdiv_lt_0_compat; lra. }
  pose proof (exp_pos a) as He.
  assert (Rtrigo_def.exp a * Rtrigo_def.exp a = (1 + x) / (1 - x))%R as Hee.
  { rewrite <- exp_plus. replace (a + a)%R with (ln ((1 + x) / (1 - x)))
      by (unfold a; lra). now apply exp_ln. }
  rewrite exp_Ropp. set (e := Rtrigo_def.exp a) in *.
  assert (e * e * (1 - x) = 1 + x)%R as Hx by (rewrite Hee; field; lra).
  assert ((e * e - 1) / (e * e + 1) = x)%R as Hq.
  { apply (Rmult_eq_reg_r (e * e + 1)); [| nra]. field_simplify; nra. }
  transitivity ((e * e - 1) / (e * e + 1))%R; [| exact Hq].
  field. split; nra.
Qed.

Lemma expit_logit (x : R) : (0 < x < 1)%R -> be.expit1 (be.logit1 x) = x.
Proof.
  intros [Hlo Hhi]. unfold be.expit1, be.logit1.
  rewrite exp_Ropp, exp_ln by (apply Rdiv_lt_0_compat; lra).
  field. lra.
Qed.

Lemma mean_of_loc_of_mean (cls : layer_class) (x : R) :
  interior cls x -> mean_of_loc cls (loc_of_mean cls x) = x.
Proof. destruct cls; cbn; auto using tanh_atanh, expit_logit. Qed.
(** ** Moment matching: one batch *)

Lemma bind_gets {S A B} (f : S -> A) (k : A -> St S B) (s : S) :
  bind (gets f) k s = k (f s) s.
Proof. reflexivity. Qed.

Lemma truediv_ok (a b : nat) :
  b <> 0 -> truediv a b = Ok (INR a / INR b)%R.
Proof. intros H. unfold truediv. now rewrite decide_False. Qed.

Lemma vtab_length m f : length (vtab m f) = m.
Proof. unfold vtab. now rewrite length_fmap, length_seq. Qed.

Lemma vtab_lookup m f j : j < m -> vtab m f !! j = Some (f j).
Proof.
  intros H. unfold vtab. now rewrite list_lookup_fmap, lookup_seq_lt.
Qed.

Lemma vtab_ext m (f g : nat -> R) :
  (forall j, j < m -> f j = g j) -> vtab m f = vtab m g.
Proof.
  intros H. unfold vtab. apply list_fmap_ext. intros i j Hj.
  apply lookup_seq in Hj as [-> Hlt]. now apply H.
Qed.

Lemma vtab_eq (v : list R) m f :
  length v = m -> (forall j x, v !! j = Some x -> x = f j) -> v = vtab m f.
Proof.
  intros Hm Hv.
  apply (list_eq_same_length _ _ m); [apply vtab_length | done |].
  intros j x y Hj Hx Hy. rewrite vtab_lookup in Hy by done.
  injection Hy as <-. now apply Hv.
Qed.

Lemma vec_at_vtab m f j : j < m -> vec_at (vtab m f) j = f j.
Proof. intros H. apply nth_lookup_R. now apply vtab_lookup. Qed.

Lemma width_nonempty (a : list (list R)) m :
  a <> [] -> Forall (fun r => length r = m) a -> reference.width a = m.
Proof. intros Ha H. destruct H; [done | done]. Qed.

(** The reference mean along the sample axis is the column mean. *)
Lemma reference_mean_columns (a : list (list R)) (m : nat) :
  a <> [] -> Forall (fun r => length r = m) a ->
  reference.mean (Mat a) 0 =
  Ok (Vec (vtab m (fun j =>
             reference.vsum (reference.column j a) / INR (length a))%R)).
Proof.
  intros Ha Hshape. unfold reference.mean, reference.tsum.
  rewrite decide_True.
  - cbn. rewrite (width_nonempty a m Ha Hshape). unfold vtab.
    do 2 f_equal. induction (seq 0 m) as [| j js IH]; cbn; [done |].
    now rewrite IH.
  - split; [done |]. unfold reference.rectangular.
    now rewrite (width_nonempty a m Ha Hshape).
Qed.
Lemma vtab_lookup_Some m f j y : vtab m f !! j = Some y -> y = f j.
Proof.
  intros H. unfold vtab in H.
  apply list_lookup_fmap_Some_1 in H as (i & -> & Hi).
  now apply lookup_seq in Hi as [-> _].
Qed.

(** The running mean as [online_param_update] computes it. *)
Lemma add_weighted_means (inv : R -> R) (loc : list R) (r c n : R)
    (g : nat -> R) :
  add (Vec (fmap (M:=list) (fun e => e * r)%R (fmap (M:=list) inv loc)))
      (Vec (fmap (M:=list) (fun e => e / c)%R
              (fmap (M:=list) (Rmult n) (vtab (length loc) g)))) =
  Ok (Vec (vtab (length loc)
             (fun j => inv (vec_at loc j) * r + n * g j / c)%R)).
Proof.
  unfold add, tzip. rewrite decide_True
    by now rewrite !length_fmap, vtab_length.
  do 2 f_equal. apply vtab_eq.
  - rewrite length_zip_with, !length_fmap, vtab_length. lia.
  - intros j x Hx.
    apply lookup_zip_with_Some in Hx as (t & u & -> & Ht & Hu).
    apply list_lookup_fmap_Some_1 in Ht as (t' & -> & Ht').
    apply list_lookup_fmap_Some_1 in Ht' as (l & -> & Hl).
    apply list_lookup_fmap_Some_1 in Hu as (u' & -> & Hu').
    apply list_lookup_fmap_Some_1 in Hu' as (y & -> & Hy).
    apply vtab_lookup_Some in Hy as ->.
    now rewrite (nth_lookup_R _ _ _ Hl).
Qed.

Lemma nonempty_total {A} (a : list A) (n : nat) : a <> [] -> length a + n <> 0.
Proof. destruct a; [done | cbn; lia]. Qed.

Ltac moment_steps Hmean Hloc Ha Hshape :=
  cbv zeta; cbn [py_len]; rewrite bind_gets;
  fwd_get_int Hloc;
  fwd_lift ltac:(apply truediv_ok; exact (nonempty_total _ _ Ha));
  fwd_lift ltac:(rewrite Hmean;
                 exact (reference_mean_columns _ _ Ha Hshape));
  cbn [be.tanh be.expit tmap muls divs smul];
  fwd_lift ltac:(apply add_weighted_means);
  reflexivity.

Lemma ising_online_param_update backend (self : unit_layer) loc a :
  (forall b, be_mean backend (Mat b) 0 = reference.mean (Mat b) 0) ->
  int_params self !! "loc" = Some (Vec loc) ->
  a <> [] ->
  Forall (fun row => length row = length loc) a ->
  IsingLayer.online_param_update backend (Mat a) self =
  (absorbed self
     (fmap (M:=list) (loc_of_mean IsingLayer)
        (running_mean IsingLayer loc (sample_size self) a))
     (length a + sample_size self), Ok tt).
Proof.
  intros Hmean Hloc Ha Hshape.
  unfold IsingLayer.online_param_update.
  moment_steps Hmean Hloc Ha Hshape.
Qed.

Lemma bernoulli_online_param_update backend (self : unit_layer) loc a :
  (forall b, be_mean backend (Mat b) 0 = reference.mean (Mat b) 0) ->
  int_params self !! "loc" = Some (Vec loc) ->
  a <> [] ->
  Forall (fun row => length row = length loc) a ->
  BernoulliLayer.online_param_update backend (Mat a) self =
  (absorbed self
     (fmap (M:=list) (loc_of_mean BernoulliLayer)
        (running_mean BernoulliLayer loc (sample_size self) a))
     (length a + sample_size self), Ok tt).
Proof.
  intros Hmean Hloc Ha Hshape.
  unfold BernoulliLayer.online_param_update.
  moment_steps Hmean Hloc Ha Hshape.
Qed.
(** ** Moment matching: two batches *)

Lemma online_param_update_one_batch backend cls (self : unit_layer) loc a :
  cls = IsingLayer \/ cls = BernoulliLayer ->
  (forall b, be_mean backend (Mat b) 0 = reference.mean (Mat b) 0) ->
  int_params self !! "loc" = Some (Vec loc) ->
  a <> [] ->
  Forall (fun row => length row = length loc) a ->
  online_param_update backend cls (Mat a) self =
  (absorbed self
     (fmap (M:=list) (loc_of_mean cls)
        (running_mean cls loc (sample_size self) a))
     (length a + sample_size self), Ok tt).
Proof.
  intros [-> | ->]; cbn [online_param_update];
    auto using ising_online_param_update, bernoulli_online_param_update.
Qed.

Lemma vsum_app (u v : list R) :
  reference.vsum (u ++ v) = (reference.vsum u + reference.vsum v)%R.
Proof.
  unfold reference.vsum. induction u as [| x u IH]; cbn; [lra |].
  rewrite IH. lra.
Qed.

Lemma column_app j (a b : list (list R)) :
  reference.column j (a ++ b) = reference.column j a ++ reference.column j b.
Proof. unfold reference.column. apply fmap_app. Qed.

Lemma INR_length_pos {A} (a : list A) : a <> [] -> (0 < INR (length a))%R.
Proof.
  intros Ha. apply lt_0_INR. destruct a; [done | cbn; lia].
Qed.

Lemma running_mean_length cls loc n a :
  length (running_mean cls loc n a) = length loc.
Proof. apply vtab_length. Qed.

(** Absorbing [d2] after [d1] leaves the running mean of the joint batch. *)
Lemma running_mean_two_batches cls (loc : list R) (n_prev : nat)
    (d1 d2 : list (list R)) :
  d1 <> [] -> d2 <> [] ->
  Forall (interior cls) (running_mean cls loc n_prev d1) ->
  running_mean cls
    (fmap (M:=list) (loc_of_mean cls) (running_mean cls loc n_prev d1))
    (length d1 + n_prev) d2 =
  running_mean cls loc n_prev (d1 ++ d2).
Proof.
  intros H1 H2 Hin.
  unfold running_mean at 1 3.
  rewrite length_fmap, running_mean_length. apply vtab_ext. intros j Hj.
  assert (vec_at (fmap (M:=list) (loc_of_mean cls)
                    (running_mean cls loc n_prev d1)) j =
          loc_of_mean cls (vec_at (running_mean cls loc n_prev d1) j)) as ->.
  { apply nth_lookup_R. rewrite list_lookup_fmap.
    unfold running_mean at 1 2. rewrite vtab_lookup, vec_at_vtab by done.
    reflexivity. }
  rewrite mean_of_loc_of_mean.
  2:{ rewrite Forall_lookup in Hin. apply (Hin j).
      unfold running_mean. rewrite vtab_lookup, vec_at_vtab by done.
      reflexivity. }
  unfold running_mean. rewrite vec_at_vtab by done.
  rewrite length_app, column_app, vsum_app, !plus_INR.
  pose proof (INR_length_pos d1 H1). pose proof (INR_length_pos d2 H2).
  pose proof (pos_INR n_prev).
  field. repeat split; lra.
Qed.

Lemma running_mean_app_comm cls (loc : list R) (n_prev : nat)
    (d1 d2 : list (list R)) :
  running_mean cls loc n_prev (d2 ++ d1) =
  running_mean cls loc n_prev (d1 ++ d2).
Proof.
  unfold running_mean. apply vtab_ext. intros j _.
  rewrite !length_app, !column_app, !vsum_app.
  rewrite (Nat.add_comm (length d2) (length d1)).
  now rewrite (Rplus_comm (reference.vsum (reference.column j d2))).
Qed.

Lemma absorbed_twice (self : unit_layer) l1 n1 l2 n2 :
  absorbed (absorbed self l1 n1) l2 n2 = absorbed self l2 n2.
Proof.
  unfold absorbed, set_sample_size, set_base, Layer.set_int_params. cbn.
  now rewrite insert_insert_eq.
Qed.

Lemma online_param_update_two_batches backend cls (self : unit_layer) loc
    (d1 d2 : list (list R)) :
  cls = IsingLayer \/ cls = BernoulliLayer ->
  (forall b, be_mean backend (Mat b) 0 = reference.mean (Mat b) 0) ->
  int_params self !! "loc" = Some (Vec loc) ->
  d1 <> [] -> d2 <> [] ->
  Forall (fun row => length row = length loc) d1 ->
  Forall (fun row => length row = length loc) d2 ->
  Forall (interior cls) (running_mean cls loc (sample_size self) d1) ->
  (online_param_update backend cls (Mat d1) ;;
   online_param_update backend cls (Mat d2)) self =
  (absorbed self
     (fmap (M:=list) (loc_of_mean cls)
        (running_mean cls loc (sample_size self) (d1 ++ d2)))
     (length (d1 ++ d2) + sample_size self), Ok tt).
Proof.
  intros Hcls Hmean Hloc H1 H2 Hs1 Hs2 Hin.
  erewrite bind_ok
    by exact (online_param_update_one_batch _ _ _ _ _ Hcls Hmean Hloc H1 Hs1).
  erewrite online_param_update_one_batch; [| done | done | | done |].
  - rewrite absorbed_twice. cbn [absorbed sample_size set_sample_size].
    rewrite running_mean_two_batches by done.
    do 2 f_equal. rewrite length_app. lia.
  - unfold absorbed, int_params. cbn. apply lookup_insert_eq.
  - now rewrite length_fmap, running_mean_length.
Qed.
(** Over exact reals, for an Ising or a Bernoulli layer whose backend
    computes column means, a data set of rows [d1 ++ d2] fed as one batch,
    as [d1] then [d2], or as [d2] then [d1], leaves one and the same layer:
    the same [loc], the inverse link of the running mean of all rows, and
    the same [sample_size]. The batches are non-empty and the running mean
    after the first batch lies strictly inside the range of the link, where
    [loc] is a finite real. Of the 32-bit floats of the source this says
    that the three feeds agree up to rounding, not bit for bit. *)
Theorem split_batches_agree (backend : Backend) (cls : layer_class)
    (self : unit_layer) (loc : list R) (d1 d2 : list (list R)) :
  cls = IsingLayer \/ cls = BernoulliLayer ->
  (forall b, be_mean backend (Mat b) 0 = reference.mean (Mat b) 0) ->
  int_params self !! "loc" = Some (Vec loc) ->
  d1 <> [] -> d2 <> [] ->
  Forall (fun row => length row = length loc) (d1 ++ d2) ->
  Forall (interior cls) (running_mean cls loc (sample_size self) d1) ->
  Forall (interior cls) (running_mean cls loc (sample_size self) d2) ->
  exists final : unit_layer,
    online_param_update backend cls (Mat (d1 ++ d2)) self = (final, Ok tt) /\
    (online_param_update backend cls (Mat d1) ;;
     online_param_update backend cls (Mat d2)) self = (final, Ok tt) /\
    (online_param_update backend cls (Mat d2) ;;
     online_param_update backend cls (Mat d1)) self = (final, Ok tt) /\
    int_params final !! "loc" =
      Some (Vec (fmap (M:=list) (loc_of_mean cls)
                   (running_mean cls loc (sample_size self) (d1 ++ d2)))) /\
    sample_size final = sample_size self + length d1 + length d2.
Proof.
  intros Hcls Hmean Hloc H1 H2 Hshape Hin1 Hin2.
  apply Forall_app in Hshape as [Hs1 Hs2].
  eexists. split; [| split; [| split; [| split]]].
  - apply (online_param_update_one_batch _ _ _ loc); try done.
    + intros E. apply app_eq_nil in E as [E _]. done.
    + now apply Forall_app.
  - now apply online_param_update_two_batches.
  - rewrite (online_param_update_two_batches _ _ _ loc d2 d1) by done.
    rewrite running_mean_app_comm. do 2 f_equal.
    rewrite !length_app. lia.
  - unfold absorbed, int_params. cbn. apply lookup_insert_eq.
  - cbn. rewrite length_app. lia.
Qed.

Lemma split_batches_agree_witness :
  exists final : unit_layer,
    online_param_update reference.backend BernoulliLayer
      (Mat ([[1%R]; [0%R]] ++ [[0%R]; [1%R]])) fresh_bernoulli =
      (final, Ok tt) /\
    (online_param_update reference.backend BernoulliLayer
       (Mat [[1%R]; [0%R]]) ;;
     online_param_update reference.backend BernoulliLayer
       (Mat [[0%R]; [1%R]])) fresh_bernoulli = (final, Ok tt) /\
    (online_param_update reference.backend BernoulliLayer
       (Mat [[0%R]; [1%R]]) ;;
     online_param_update reference.backend BernoulliLayer
       (Mat [[1%R]; [0%R]])) fresh_bernoulli = (final, Ok tt) /\
    int_params final !! "loc" =
      Some (Vec (fmap (M:=list) (loc_of_mean BernoulliLayer)
                   (running_mean BernoulliLayer [0%R]
                      (sample_size fresh_bernoulli)
                      ([[1%R]; [0%R]] ++ [[0%R]; [1%R]])))) /\
    sample_size final =
      sample_size fresh_bernoulli + length [[1%R]; [0%R]]
      + length [[0%R]; [1%R]].
Proof.
  apply (split_batches_agree reference.backend BernoulliLayer
           fresh_bernoulli [0%R] [[1%R]; [0%R]] [[0%R]; [1%R]]).
  - now right.
  - reflexivity.
  - reflexivity.
  - discriminate.
  - discriminate.
  - repeat constructor.
  - repeat constructor; cbn; lra.
  - repeat constructor; cbn; lra.
Defined.

(** ** Finite sums *)

Lemma vsum_vtab_S n f :
  reference.vsum (vtab (S n) f) = (reference.vsum (vtab n f) + f n)%R.
Proof.
  unfold vtab. rewrite seq_S, fmap_app, vsum_app. cbn. lra.
Qed.

Lemma vsum_vtab_ext n (f g : nat -> R) :
  (forall i, i < n -> f i = g i) ->
  reference.vsum (vtab n f) = reference.vsum (vtab n g).
Proof. intros H. now rewrite (vtab_ext n f g). Qed.

Lemma vsum_vtab_scale n (f : nat -> R) (c : R) :
  reference.vsum (vtab n (fun i => f i * c)%R) =
  (reference.vsum (vtab n f) * c)%R.
Proof.
  induction n as [| n IH]; [cbn; lra |].
  rewrite !vsum_vtab_S, IH. lra.
Qed.

Lemma vsum_vtab_plus n (f g : nat -> R) :
  reference.vsum (vtab n (fun i => f i + g i)%R) =
  (reference.vsum (vtab n f) + reference.vsum (vtab n g))%R.
Proof.
  induction n as [| n IH]; [cbn; lra |].
  rewrite !vsum_vtab_S, IH. lra.
Qed.

(** Two nested loops may be exchanged. *)
Lemma vsum_vtab_exchange n m (f : nat -> nat -> R) :
  reference.vsum (vtab m (fun j => reference.vsum (vtab n (fun i => f i j)))) =
  reference.vsum (vtab n (fun i => reference.vsum (vtab m (fun j => f i j)))).
Proof.
  induction n as [| n IH].
  - cbn. induction m as [| m IHm]; [reflexivity |].
    rewrite vsum_vtab_S, IHm. cbn. lra.
  - rewrite vsum_vtab_S, <- IH, <- vsum_vtab_plus.
    apply vsum_vtab_ext. intros j _. now rewrite vsum_vtab_S.
Qed.

(** The sum of an elementwise product, as a loop over the index. *)
Lemma vsum_zip_with_mult (a b : list R) :
  length a = length b ->
  reference.vsum (zip_with Rmult a b) =
  reference.vsum (vtab (length a) (fun i => vec_at a i * vec_at b i)%R).
Proof.
  intros Hlen. f_equal. apply vtab_eq.
  - rewrite length_zip_with. lia.
  - intros i x Hx.
    apply lookup_zip_with_Some in Hx as (p & q & -> & Hp & Hq).
    now rewrite (nth_lookup_R _ _ _ Hp), (nth_lookup_R _ _ _ Hq).
Qed.

Lemma vec_at_column (w : list (list R)) i j :
  i < length w -> vec_at (reference.column j w) i = mat_at w i j.
Proof.
  intros Hi. unfold reference.column, mat_at.
  destruct (lookup_lt_is_Some_2 w i Hi) as [row Hrow].
  apply nth_lookup_R. rewrite list_lookup_fmap, Hrow. cbn.
  now rewrite (nth_lookup_Some _ _ [] _ Hrow).
Qed.

(** One sample of the batched contraction against the double loop. *)
Lemma contraction_by_loops (w : list (list R)) (v h : list R) :
  length v = length w -> length h = reference.width w ->
  (- reference.vsum
       (zip_with Rmult
          (fmap (M:=list)
             (fun j => reference.vsum (zip_with Rmult v (reference.column j w)))
             (seq 0 (reference.width w)))
          h))%R =
  energy_by_loops w v h.
Proof.
  intros Hv Hh. unfold energy_by_loops. f_equal.
  change (fmap (M:=list) ?f (seq 0 ?m)) with (vtab m f).
  rewrite vsum_zip_with_mult by now rewrite vtab_length.
  rewrite vtab_length, <- Hh, <- vsum_vtab_exchange.
  apply vsum_vtab_ext. intros j Hj.
  rewrite vec_at_vtab by lia.
  rewrite vsum_zip_with_mult
    by (unfold reference.column; now rewrite length_fmap).
  rewrite <- vsum_vtab_scale. apply vsum_vtab_ext. intros i Hi.
  rewrite vec_at_column by lia. lra.
Qed.

(** Over a backend whose [batch_dot] is the vectorised contraction its
    docstring describes, [Weights.energy] is the double loop, sample by
    sample. *)
Lemma weights_energy_reference (self : Weights.t) (w vis hid : list (list R)) :
  Weights.W self = Ok (Mat w) ->
  reference.rectangular w ->
  Forall (fun v => length v = length w) vis ->
  Forall (fun h => length h = reference.width w) hid ->
  length vis = length hid ->
  Weights.energy reference.backend self (Mat vis) (Mat hid) =
  Ok (Vec (zip_with (energy_by_loops w) vis hid)).
Proof.
  intros HW Hw Hvis Hhid Hlen.
  unfold Weights.energy, Weights.W in *. rewrite HW. cbn [rbind].
  cbn [be_batch_dot reference.backend].
  unfold reference.batch_dot, reference.dot.
  rewrite decide_True by done. cbn [rbind]. unfold mul. rewrite tzip_mat.
  - cbn. do 2 f_equal.
    revert hid Hhid Hlen.
    induction Hvis as [| v vis Hv _ IH]; intros [| h hid] Hhid Hlen;
      try done.
    apply Forall_cons in Hhid as [Hh Hhid]. cbn.
    rewrite contraction_by_loops by done. f_equal.
    apply IH; [done | now injection Hlen].
  - unfold shape2. revert hid Hhid Hlen.
    induction vis as [| v vis IH]; intros [| h hid] Hhid Hlen; try done.
    apply Forall_cons in Hhid as [Hh Hhid]. cbn.
    rewrite length_fmap, length_seq, Hh. f_equal.
    apply Forall_cons in Hvis as [_ Hvis].
    apply IH; [done | done | now injection Hlen].
Qed.

(** C7. [Weights.energy] is the negative bilinear form, sample by sample.
    Over a backend whose [batch_dot] is the contraction its docstring
    documents, for a weight matrix [W] and batches [vis] and [hid] with the
    same number of rows, of the widths [W] has rows and columns, the call
    returns a vector with one entry per sample row, and entry [k] is what
    the explicit double loop [- sum_i sum_j W_ij * vis_ki * hid_kj]
    computes. *)
Theorem weights_energy_is_bilinear_form (backend : Backend)
    (self : Weights.t) (w vis hid : list (list R)) :
  (forall v m h, be_batch_dot backend v m h 1 = reference.batch_dot v m h 1) ->
  Weights.W self = Ok (Mat w) ->
  reference.rectangular w ->
  Forall (fun v => length v = length w) vis ->
  Forall (fun h => length h = reference.width w) hid ->
  length vis = length hid ->
  exists e : list R,
    Weights.energy backend self (Mat vis) (Mat hid) = Ok (Vec e) /\
    length e = length vis /\
    forall k v h, vis !! k = Some v -> hid !! k = Some h ->
      e !! k = Some (energy_by_loops w v h).
Proof.
  intros Hbd HW Hw Hvis Hhid Hlen.
  exists (zip_with (energy_by_loops w) vis hid). split; [| split].
  - pose proof (weights_energy_reference self w vis hid HW Hw Hvis Hhid Hlen)
      as E.
    unfold Weights.energy in *. unfold Weights.W in HW. rewrite HW in *.
    cbn [rbind] in *. rewrite Hbd. exact E.
  - rewrite length_zip_with. lia.
  - intros k v h Hv Hh. apply lookup_zip_with_Some. now exists v, h.
Qed.

Lemma weights_energy_is_bilinear_form_witness :
  exists e : list R,
    Weights.energy reference.backend
      (Weights.mk
         (Layer.set_int_params Layer.init
            {[ "matrix" := Mat [[1%R; 2%R]; [3%R; 4%R]] ]}) (2, 2))
      (Mat [[1%R; 0%R]; [0%R; 1%R]]) (Mat [[1%R; 1%R]; [2%R; 0%R]]) =
      Ok (Vec e) /\
    length e = length [[1%R; 0%R]; [0%R; 1%R]] /\
    forall k v h,
      [[1%R; 0%R]; [0%R; 1%R]] !! k = Some v ->
      [[1%R; 1%R]; [2%R; 0%R]] !! k = Some h ->
      e !! k = Some (energy_by_loops [[1%R; 2%R]; [3%R; 4%R]] v h).
Proof.
  apply (weights_energy_is_bilinear_form reference.backend
           (Weights.mk
              (Layer.set_int_params Layer.init
                 {[ "matrix" := Mat [[1%R; 2%R]; [3%R; 4%R]] ]}) (2, 2))
           [[1%R; 2%R]; [3%R; 4%R]]
           [[1%R; 0%R]; [0%R; 1%R]] [[1%R; 1%R]; [2%R; 0%R]]).
  - reflexivity.
  - reflexivity.
  - repeat constructor.
  - repeat constructor.
  - repeat constructor.
  - reflexivity.
Defined.

(** ** [GaussianLayer.energy] *)

Lemma tzip_rows (f : R -> R -> R) (a b : list (list R)) (v : list R) :
  length b = length a ->
  Forall (fun r => length r = length v) a ->
  tzip f (Mat a) (Mat (fmap (M:=list) (fun _ => v) b)) =
  Ok (Mat (fmap (M:=list) (fun r => zip_with f r v) a)).
Proof.
  intros Hlen Hshape. rewrite tzip_mat.
  - do 2 f_equal. clear Hshape. revert b Hlen.
    induction a as [| r a IH]; intros [| r' b] Hlen; try done.
    cbn. f_equal. apply IH. now injection Hlen.
  - unfold shape2. revert b Hlen.
    induction Hshape as [| r a Hr _ IH]; intros [| r' b] Hlen; try done.
    cbn. rewrite Hr. f_equal. apply IH. now injection Hlen.
Qed.

Lemma zip_with_vtab (f : R -> R -> R) (r v : list R) :
  length r = length v ->
  zip_with f r v = vtab (length v) (fun j => f (vec_at r j) (vec_at v j)).
Proof.
  intros Hlen. apply vtab_eq.
  - rewrite length_zip_with. lia.
  - intros j x Hx. apply lookup_zip_with_Some in Hx as (y & z & -> & Hy & Hz).
    now rewrite (nth_lookup_R _ _ _ Hy), (nth_lookup_R _ _ _ Hz).
Qed.

Lemma fmap_vtab (g : R -> R) m f :
  fmap (M:=list) g (vtab m f) = vtab m (fun j => g (f j)).
Proof. unfold vtab. now rewrite <- list_fmap_compose. Qed.

Lemma vec_at_fmap (g : R -> R) (v : list R) j :
  j < length v -> vec_at (fmap (M:=list) g v) j = g (vec_at v j).
Proof.
  intros Hj. destruct (lookup_lt_is_Some_2 v j Hj) as [x Hx].
  rewrite (nth_lookup_R _ _ _ Hx). apply nth_lookup_R.
  now rewrite list_lookup_fmap, Hx.
Qed.

(** The rows of the energy, as the code computes them. *)
Lemma gaussian_energy_rows (backend : Backend) (self : unit_layer)
    (loc log_var : list R) (a : list (list R)) :
  (forall x, be_mean backend (Mat x) 1 = reference.mean (Mat x) 1) ->
  int_params self !! "loc" = Some (Vec loc) ->
  int_params self !! "log_var" = Some (Vec log_var) ->
  length log_var = length loc ->
  Forall (fun row => length row = length loc) a ->
  GaussianLayer.energy backend self (Mat a) =
  Ok (Vec (fmap (M:=list) (quadratic_energy loc log_var) a)).
Proof.
  intros Hmean Hloc Hvar Hlen Hshape. unfold GaussianLayer.energy, getitem.
  rewrite Hvar, Hloc. cbn [rbind be.exp tmap].
  rewrite (broadcast_row loc a Hshape). cbn [rbind].
  unfold sub. rewrite (tzip_rows Rminus a a loc eq_refl Hshape). cbn [rbind].
  rewrite broadcast_row by now rewrite length_fmap, Hlen.
  cbn [rbind be.square tmap]. unfold div. rewrite tzip_rows.
  - cbn [rbind]. rewrite Hmean. cbn [reference.mean rbind smul tmap].
    do 2 f_equal. rewrite <- !list_fmap_compose.
    apply list_fmap_ext. intros k row Hrow. cbn.
    assert (Hr : length row = length loc)
      by exact (proj1 (Forall_lookup _ a) Hshape k row Hrow).
    unfold quadratic_energy. f_equal.
    rewrite length_zip_with, !length_fmap, length_zip_with.
    replace ((length row `min` length loc) `min` length log_var)
      with (length loc) by lia.
    f_equal. f_equal.
    rewrite (zip_with_vtab Rminus row loc Hr), fmap_vtab.
    rewrite zip_with_vtab by now rewrite vtab_length, length_fmap.
    rewrite length_fmap, Hlen. apply vtab_ext. intros j Hj.
    rewrite vec_at_vtab by done. now rewrite vec_at_fmap by lia.
  - now rewrite !length_fmap.
  - apply Forall_fmap, Forall_fmap. apply (Forall_impl _ _ _ Hshape).
    intros r Hr. cbn. rewrite !length_fmap, length_zip_with. lia.
Qed.

Lemma vsum_nonneg (v : list R) :
  Forall (fun x => 0 <= x)%R v -> (0 <= reference.vsum v)%R.
Proof.
  induction 1 as [| x v Hx _ IH]; cbn; [lra |].
  unfold reference.vsum in IH. lra.
Qed.

Lemma quadratic_term_nonneg (x l s : R) :
  (0 <= (x - l) * (x - l) / Rtrigo_def.exp s)%R.
Proof.
  apply Rmult_le_pos; [apply Rle_0_sqr |].
  left. apply Rinv_0_lt_compat, exp_pos.
Qed.

Lemma quadratic_terms_nonneg (loc log_var row : list R) :
  Forall (fun x => 0 <= x)%R
    (vtab (length loc) (fun j =>
       (vec_at row j - vec_at loc j) * (vec_at row j - vec_at loc j)
       / Rtrigo_def.exp (vec_at log_var j))%R).
Proof.
  apply Forall_lookup. intros j x Hx.
  rewrite (vtab_lookup_Some _ _ _ _ Hx). apply quadratic_term_nonneg.
Qed.

Lemma quadratic_energy_nonneg (loc log_var row : list R) :
  (0 <= quadratic_energy loc log_var row)%R.
Proof.
  unfold quadratic_energy.
  pose proof (vsum_nonneg _ (quadratic_terms_nonneg loc log_var row)) as Hs.
  apply Rmult_le_pos; [lra |]. apply Rmult_le_pos; [done |].
  destruct loc as [| l loc]; [cbn; rewrite Rinv_0; lra |].
  left. apply Rinv_0_lt_compat, lt_0_INR. cbn. lia.
Qed.

Lemma quadratic_energy_at_loc (loc log_var : list R) :
  quadratic_energy loc log_var loc = 0%R.
Proof.
  unfold quadratic_energy.
  rewrite (vtab_ext _ _ (fun _ => 0%R)).
  - assert (Hz : forall n, reference.vsum (vtab n (fun _ => 0%R)) = 0%R).
    { intros n. unfold vtab. induction (seq 0 n) as [| i l IH]; cbn; [done |].
      unfold reference.vsum in IH. rewrite IH. lra. }
    rewrite Hz. lra.
  - intros j _. unfold Rdiv. rewrite Rminus_diag. lra.
Qed.

(** X1. [GaussianLayer.energy] takes the mean over the units where its
    docstring writes a sum. Over a backend whose [mean] along axis 1 is the
    row mean, on a batch of rows as long as [loc], the call returns one
    value per sample: the documented [1/2 * sum_i (v_i - loc_i)^2 / var_i]
    divided by the number of units. *)
Theorem gaussian_energy_is_mean_over_units (backend : Backend)
    (self : unit_layer) (loc log_var : list R) (a : list (list R)) :
  (forall x, be_mean backend (Mat x) 1 = reference.mean (Mat x) 1) ->
  int_params self !! "loc" = Some (Vec loc) ->
  int_params self !! "log_var" = Some (Vec log_var) ->
  length log_var = length loc ->
  Forall (fun row => length row = length loc) a ->
  GaussianLayer.energy backend self (Mat a) =
  Ok (Vec (fmap (M:=list)
             (fun row => documented_energy loc log_var row
                         / INR (length loc))%R a)).
Proof.
  intros Hmean Hloc Hvar Hlen Hshape.
  rewrite (gaussian_energy_rows backend self loc log_var a) by done.
  do 2 f_equal. apply list_fmap_ext. intros k row _.
  unfold quadratic_energy, documented_energy.
  rewrite (vtab_ext _ _ (fun j =>
             (vec_at row j - vec_at loc j) ^ 2
             / Rtrigo_def.exp (vec_at log_var j))%R).
  - unfold Rdiv. now rewrite Rmult_assoc.
  - intros j _. f_equal. ring.
Qed.

Lemma gaussian_energy_is_mean_over_units_witness :
  GaussianLayer.energy reference.backend (gaussian_unit 1 0)
    (Mat [[1%R]; [3%R]]) =
  Ok (Vec (fmap (M:=list)
             (fun row => documented_energy [1%R] [0%R] row
                         / INR (length [1%R]))%R [[1%R]; [3%R]])).
Proof.
  apply (gaussian_energy_is_mean_over_units reference.backend
           (gaussian_unit 1 0) [1%R] [0%R] [[1%R]; [3%R]]).
  - reflexivity.
  - reflexivity.
  - reflexivity.
  - reflexivity.
  - repeat constructor.
Defined.

(** X2. The energy of a Gaussian layer is never negative, and it is zero
    on a sample that equals [loc]: under the conditions of X1 the call
    returns one value per sample, each [>= 0], and the value of sample [k]
    is [0] when row [k] is [loc]. *)
Theorem gaussian_energy_nonneg (backend : Backend)
    (self : unit_layer) (loc log_var : list R) (a : list (list R)) :
  (forall x, be_mean backend (Mat x) 1 = reference.mean (Mat x) 1) ->
  int_params self !! "loc" = Some (Vec loc) ->
  int_params self !! "log_var" = Some (Vec log_var) ->
  length log_var = length loc ->
  Forall (fun row => length row = length loc) a ->
  exists e : list R,
    GaussianLayer.energy backend self (Mat a) = Ok (Vec e) /\
    length e = length a /\
    forall k row x, a !! k = Some row -> e !! k = Some x ->
      (0 <= x)%R /\ (row = loc -> x = 0%R).
Proof.
  intros Hmean Hloc Hvar Hlen Hshape.
  exists (fmap (M:=list) (quadratic_energy loc log_var) a).
  split; [now apply gaussian_energy_rows |].
  split; [now rewrite length_fmap |].
  intros k row x Hrow Hx. rewrite list_lookup_fmap, Hrow in Hx.
  injection Hx as <-. split; [apply quadratic_energy_nonneg |].
  intros ->. apply quadratic_energy_at_loc.
Qed.

Lemma gaussian_energy_nonneg_witness :
  exists e : list R,
    GaussianLayer.energy reference.backend (gaussian_unit 1 0)
      (Mat [[1%R]; [3%R]]) = Ok (Vec e) /\
    length e = length [[1%R]; [3%R]] /\
    forall k row x, [[1%R]; [3%R]] !! k = Some row -> e !! k = Some x ->
      (0 <= x)%R /\ (row = [1%R] -> x = 0%R).
Proof.
  apply (gaussian_energy_nonneg reference.backend
           (gaussian_unit 1 0) [1%R] [0%R] [[1%R]; [3%R]]).
  - reflexivity.
  - reflexivity.
  - reflexivity.
  - reflexivity.
  - repeat constructor.
Defined.

(** ** [mode] and [mean] of the Ising and Bernoulli layers *)

Lemma tmap_tmap (f g : R -> R) (t : tensor) :
  tmap g (tmap f t) = tmap (fun x => g (f x)) t.
Proof.
  destruct t as [v | a]; cbn; f_equal.
  - now rewrite <- list_fmap_compose.
  - rewrite <- list_fmap_compose. apply list_fmap_ext. intros i r _. cbn.
    now rewrite <- list_fmap_compose.
Qed.

Lemma tmap_ext (f g : R -> R) (t : tensor) :
  (forall x, f x = g x) -> tmap f t = tmap g t.
Proof.
  intros H. destruct t as [v | a]; cbn; f_equal.
  - apply list_fmap_ext. intros i x _. apply H.
  - apply list_fmap_ext. intros i r _. apply list_fmap_ext.
    intros j x _. apply H.
Qed.

Lemma float_tensor_gts (t : tensor) (c : R) :
  float_tensor (gts t c) = tmap (step_above c) t.
Proof.
  assert (E : forall x, float_of_bool (Rgtb x c) = step_above c x).
  { intros x. unfold Rgtb, step_above. now destruct (Rlt_dec c x). }
  destruct t as [v | a]; cbn; f_equal.
  - rewrite <- list_fmap_compose. apply list_fmap_ext. intros i x _. apply E.
  - rewrite <- list_fmap_compose. apply list_fmap_ext. intros i r _. cbn.
    rewrite <- list_fmap_compose. apply list_fmap_ext. intros j x _. apply E.
Qed.

Lemma elements_tmap (f : R -> R) (t : tensor) :
  elements (tmap f t) = fmap (M:=list) f (elements t).
Proof.
  destruct t as [v | a]; cbn; [done |].
  induction a as [| r a IH]; cbn; [done |]. now rewrite fmap_app, IH.
Qed.

Lemma tanh_range (x : R) : (-1 < Rtrigo_def.tanh x < 1)%R.
Proof.
  unfold Rtrigo_def.tanh, sinh, cosh.
  pose proof (exp_pos x) as H1. pose proof (exp_pos (- x)) as H2.
  set (e := Rtrigo_def.exp x) in *. set (e' := Rtrigo_def.exp (- x)) in *.
  replace ((e - e') / 2 / ((e + e') / 2))%R with ((e - e') / (e + e'))%R
    by (field; lra).
  split.
  - apply (Rmult_lt_reg_r (e + e')); [lra |]. field_simplify; lra.
  - apply (Rmult_lt_reg_r (e + e')); [lra |]. field_simplify; lra.
Qed.

Lemma tanh_pos_iff (x : R) : (0 < Rtrigo_def.tanh x <-> 0 < x)%R.
Proof.
  unfold Rtrigo_def.tanh, sinh, cosh.
  pose proof (exp_pos x) as H1. pose proof (exp_pos (- x)) as H2.
  assert (Hc : (0 < (Rtrigo_def.exp x + Rtrigo_def.exp (- x)) / 2)%R) by lra.
  split.
  - intros H.
    assert (Hs : (0 < (Rtrigo_def.exp x - Rtrigo_def.exp (- x)) / 2)%R).
    { pose proof (Rinv_0_lt_compat _ Hc) as Hi. unfold Rdiv in H at 1.
      destruct (Rle_or_lt ((Rtrigo_def.exp x - Rtrigo_def.exp (- x)) / 2) 0)
        as [Hle | Hgt]; [| done].
      nra. }
    assert (Rtrigo_def.exp (- x) < Rtrigo_def.exp x)%R as Hlt by lra.
    apply exp_lt_inv in Hlt. lra.
  - intros H. apply Rdiv_lt_0_compat; [| done].
    assert (Rtrigo_def.exp (- x) < Rtrigo_def.exp x)%R
      by (apply exp_increasing; lra).
    lra.
Qed.

Lemma expit_range (x : R) : (0 < be.expit1 x < 1)%R.
Proof.
  unfold be.expit1. pose proof (exp_pos (- x)) as H.
  split.
  - apply Rdiv_lt_0_compat; lra.
  - apply (Rmult_lt_reg_r (1 + Rtrigo_def.exp (- x))); [lra |].
    field_simplify; lra.
Qed.

Lemma expit_half_iff (x : R) : (1 / 2 < be.expit1 x <-> 0 < x)%R.
Proof.
  unfold be.expit1. pose proof (exp_pos (- x)) as H.
  assert (He : (Rtrigo_def.exp (- x) < 1 <-> 0 < x)%R).
  { rewrite <- exp_0. split; intros Hl.
    - apply exp_lt_inv in Hl. lra.
    - apply exp_increasing. lra. }
  rewrite <- He. set (e := Rtrigo_def.exp (- x)) in *.
  assert (E : (1 / (1 + e) - 1 / 2 = (1 - e) * / (2 * (1 + e)))%R)
    by (field; lra).
  assert (Hi : (0 < / (2 * (1 + e)))%R) by (apply Rinv_0_lt_compat; lra).
  split; intros Hh.
  - destruct (Rle_or_lt 1 e) as [Hle | Hlt]; [| done]. nra.
  - assert (0 < (1 - e) * / (2 * (1 + e)))%R by (apply Rmult_lt_0_compat; lra).
    lra.
Qed.

(** X3. The mode of an Ising layer is the sign of its mean. Whatever the
    state, [mode()] behaves as [mean()] followed by a threshold at 0, entry
    by entry: [+1] where the mean is positive and [-1] elsewhere (a mean of
    exactly 0 gives [-1]); and where [mean()] raises, [mode()] raises the
    same exception. *)
Theorem ising_mode_is_sign_of_mean (self : unit_layer) :
  IsingLayer.mode self =
  (m <~ IsingLayer.mean self ;; Ok (tmap (sign_above 0) m)).
Proof.
  unfold IsingLayer.mode, IsingLayer.mean, getitem.
  destruct (ext_params self !! "field") as [[f |] |]; cbn [rbind operand];
    try reflexivity.
  f_equal. rewrite float_tensor_gts. unfold subs, smul, be.tanh.
  rewrite !tmap_tmap. apply tmap_ext. intros x.
  unfold step_above, sign_above.
  destruct (Rlt_dec 0 x) as [Hx | Hx], (Rlt_dec 0 (Rtrigo_def.tanh x))
    as [Ht | Ht]; try lra.
  - exfalso. apply Ht. now apply tanh_pos_iff.
  - exfalso. apply Hx. now apply tanh_pos_iff.
Qed.

(** X4. The mode of a Bernoulli layer is on the side of one half where
    its mean is. In a state whose field is a tensor, [mode()] and [mean()]
    both return, entry for entry: where the mode is [1] the mean is at
    least [1/2], and where the mode is [0] the mean is at most [1/2]. *)
Theorem bernoulli_mode_agrees_with_mean (self : unit_layer) (f : tensor) :
  ext_params self !! "field" = Some (Some f) ->
  exists d m : tensor,
    BernoulliLayer.mode self = Ok d /\
    BernoulliLayer.mean self = Ok m /\
    Forall2 (fun x y => (x = 1 /\ 1 / 2 <= y) \/ (x = 0 /\ y <= 1 / 2))%R
      (elements d) (elements m).
Proof.
  intros Hf. unfold BernoulliLayer.mode, BernoulliLayer.mean, getitem.
  rewrite Hf. cbn [rbind operand]. do 2 eexists.
  split; [reflexivity |]. split; [reflexivity |].
  rewrite float_tensor_gts. unfold be.expit. rewrite !elements_tmap.
  induction (elements f) as [| x l IH]; cbn; constructor; [| exact IH].
  unfold step_above. destruct (Rlt_dec 0 x) as [Hx | Hx]; [left | right].
  - split; [reflexivity |]. apply expit_half_iff in Hx. lra.
  - split; [reflexivity |].
    destruct (Rle_or_lt (be.expit1 x) (1 / 2)) as [Hle | Hgt]; [exact Hle |].
    exfalso. apply Hx. now apply expit_half_iff.
Qed.

Lemma bernoulli_mode_agrees_with_mean_witness :
  exists d m : tensor,
    BernoulliLayer.mode
      {| base := Layer.set_int_params Layer.init {[ "loc" := Vec [0%R] ]};
         len := 1; sample_size := 0;
         ext_params := {[ "field" := Some (Mat [[2%R]; [(-1)%R]]) ]} |} =
      Ok d /\
    BernoulliLayer.mean
      {| base := Layer.set_int_params Layer.init {[ "loc" := Vec [0%R] ]};
         len := 1; sample_size := 0;
         ext_params := {[ "field" := Some (Mat [[2%R]; [(-1)%R]]) ]} |} =
      Ok m /\
    Forall2 (fun x y => (x = 1 /\ 1 / 2 <= y) \/ (x = 0 /\ y <= 1 / 2))%R
      (elements d) (elements m).
Proof.
  apply (bernoulli_mode_agrees_with_mean
           {| base := Layer.set_int_params Layer.init {[ "loc" := Vec [0%R] ]};
              len := 1; sample_size := 0;
              ext_params := {[ "field" := Some (Mat [[2%R]; [(-1)%R]]) ]} |}
           (Mat [[2%R]; [(-1)%R]])).
  reflexivity.
Defined.

Lemma ising_update_stores_field (backend : Backend)
    (scaled_units weights : tensor) (beta : option tensor)
    (self self' : unit_layer) :
  IsingLayer.update backend scaled_units weights beta self = (self', Ok tt) ->
  exists f : tensor, ext_params self' !! "field" = Some (Some f).
Proof.
  intros H. unfold IsingLayer.update, get_ext, get_int, set_ext in H.
  apply bind_inv in H as (? & ? & _ & H).
  apply bind_inv in H as (? & ? & _ & H).
  apply bind_inv in H as (? & ? & _ & H).
  st_inv H. eexists. cbn. now rewrite lookup_insert_eq.
Qed.

Lemma bernoulli_update_stores_field (backend : Backend)
    (scaled_units weights : tensor) (beta : option tensor)
    (self self' : unit_layer) :
  BernoulliLayer.update backend scaled_units weights beta self =
    (self', Ok tt) ->
  exists f : tensor, ext_params self' !! "field" = Some (Some f).
Proof.
  intros H. unfold BernoulliLayer.update, get_ext, get_int, set_ext in H.
  apply bind_inv in H as (? & ? & _ & H).
  apply bind_inv in H as (? & ? & _ & H).
  apply bind_inv in H as (? & ? & _ & H).
  st_inv H. eexists. cbn. now rewrite lookup_insert_eq.
Qed.

(** X5. After any [update] that returns, over any backend, the readout of
    an Ising layer is defined and in range: [mean()] returns a tensor whose
    entries lie between [-1] and [1], bounds included, and [mode()] returns
    one whose entries are [+1] or [-1]. *)
Theorem ising_readout_after_update (backend : Backend)
    (scaled_units weights : tensor) (beta : option tensor)
    (self self' : unit_layer) :
  IsingLayer.update backend scaled_units weights beta self = (self', Ok tt) ->
  exists m d : tensor,
    IsingLayer.mean self' = Ok m /\
    IsingLayer.mode self' = Ok d /\
    Forall (fun x => -1 <= x <= 1)%R (elements m) /\
    Forall (fun x => x = 1 \/ x = -1)%R (elements d).
Proof.
  intros H. apply ising_update_stores_field in H as [f Hf].
  unfold IsingLayer.mean, IsingLayer.mode, getitem. rewrite Hf.
  cbn [rbind operand]. do 2 eexists. split; [reflexivity |].
  split; [reflexivity |]. split.
  - unfold be.tanh. rewrite elements_tmap. apply Forall_fmap, Forall_true.
    intros x. cbn. pose proof (tanh_range x). lra.
  - rewrite float_tensor_gts. unfold subs, smul. rewrite !tmap_tmap.
    rewrite elements_tmap. apply Forall_fmap, Forall_true.
    intros x. cbn. unfold step_above. destruct (Rlt_dec 0 x); [left | right]; lra.
Qed.

Lemma ising_readout_after_update_witness :
  exists self' : unit_layer,
    IsingLayer.update reference.backend (Mat [[1%R]]) (Mat [[2%R]]) None
      {| base := Layer.set_int_params Layer.init {[ "loc" := Vec [0%R] ]};
         len := 1; sample_size := 0;
         ext_params := {[ "field" := None ]} |} = (self', Ok tt) /\
    exists m d : tensor,
      IsingLayer.mean self' = Ok m /\
      IsingLayer.mode self' = Ok d /\
      Forall (fun x => -1 <= x <= 1)%R (elements m) /\
      Forall (fun x => x = 1 \/ x = -1)%R (elements d).
Proof.
  eexists. split; [reflexivity |].
  apply (ising_readout_after_update reference.backend (Mat [[1%R]])
           (Mat [[2%R]]) None
           {| base := Layer.set_int_params Layer.init {[ "loc" := Vec [0%R] ]};
              len := 1; sample_size := 0;
              ext_params := {[ "field" := None ]} |}).
  reflexivity.
Defined.

(** X6. After any [update] that returns, over any backend, the readout of
    a Bernoulli layer is defined and in range: [mean()] returns a tensor
    whose entries lie between [0] and [1], bounds included, and [mode()]
    returns one whose entries are [0] or [1]. *)
Theorem bernoulli_readout_after_update (backend : Backend)
    (scaled_units weights : tensor) (beta : option tensor)
    (self self' : unit_layer) :
  BernoulliLayer.update backend scaled_units weights beta self =
    (self', Ok tt) ->
  exists m d : tensor,
    BernoulliLayer.mean self' = Ok m /\
    BernoulliLayer.mode self' = Ok d /\
    Forall (fun x => 0 <= x <= 1)%R (elements m) /\
    Forall (fun x => x = 0 \/ x = 1)%R (elements d).
Proof.
  intros H. apply bernoulli_update_stores_field in H as [f Hf].
  unfold BernoulliLayer.mean, BernoulliLayer.mode, getitem. rewrite Hf.
  cbn [rbind operand]. do 2 eexists. split; [reflexivity |].
  split; [reflexivity |]. split.
  - unfold be.expit. rewrite elements_tmap. apply Forall_fmap, Forall_true.
    intros x. cbn. pose proof (expit_range x). lra.
  - rewrite float_tensor_gts, elements_tmap. apply Forall_fmap, Forall_true.
    intros x. cbn. unfold step_above. destruct (Rlt_dec 0 x); [right | left]; lra.
Qed.

Lemma bernoulli_readout_after_update_witness :
  exists self' : unit_layer,
    BernoulliLayer.update reference.backend (Mat [[1%R]]) (Mat [[2%R]]) None
      fresh_bernoulli = (self', Ok tt) /\
    exists m d : tensor,
      BernoulliLayer.mean self' = Ok m /\
      BernoulliLayer.mode self' = Ok d /\
      Forall (fun x => 0 <= x <= 1)%R (elements m) /\
      Forall (fun x => x = 0 \/ x = 1)%R (elements d).
Proof.
  eexists. split; [reflexivity |].
  apply (bernoulli_readout_after_update reference.backend (Mat [[1%R]])
           (Mat [[2%R]]) None fresh_bernoulli).
  reflexivity.
Defined.

(** X7. [mode()] on a layer fresh from its constructor, before any
    [update]: a Gaussian layer returns [None], an Ising or a Bernoulli
    layer raises [TypeError] (the comparison of [None] with a number), and
    an Exponential layer raises [NotImplementedError]. *)
Theorem mode_before_update (backend : Backend) (cls : layer_class)
    (num_units : nat) (self : unit_layer) :
  init backend cls num_units = Ok self ->
  match cls with
  | GaussianLayer => GaussianLayer.mode self = Ok None
  | IsingLayer => IsingLayer.mode self = Raise TypeError
  | BernoulliLayer => BernoulliLayer.mode self = Raise TypeError
  | ExponentialLayer => ExponentialLayer.mode self = Raise NotImplementedError
  end.
Proof.
  intros H. destruct cls; cbn [init] in H.
  - unfold GaussianLayer.init in H.
    destruct (be_zeros backend num_units) as [z |]; [| discriminate].
    now injection H as <-.
  - unfold IsingLayer.init in H.
    destruct (be_zeros backend num_units) as [z |]; [| discriminate].
    now injection H as <-.
  - unfold BernoulliLayer.init in H.
    destruct (be_zeros backend num_units) as [z |]; [| discriminate].
    now injection H as <-.
  - reflexivity.
Qed.

Lemma mode_before_update_witness :
  IsingLayer.mode
    {| base := Layer.set_int_params Layer.init
                 {[ "loc" := Vec (replicate 2 0%R) ]};
       len := 2; sample_size := 0;
       ext_params := {[ "field" := None ]} |} = Raise TypeError.
Proof.
  apply (mode_before_update pytorch_backend IsingLayer 2). reflexivity.
Defined.

(** ** [ExponentialLayer]: log-partition function and mean *)

Lemma tabulate_ext_lt n m (f g : nat -> nat -> R) :
  (forall k j, k < n -> j < m -> f k j = g k j) ->
  tabulate n m f = tabulate n m g.
Proof.
  intros H. unfold tabulate. apply list_fmap_ext. intros i k Hk.
  apply lookup_seq in Hk as [-> Hk].
  apply list_fmap_ext. intros i' j Hj. apply lookup_seq in Hj as [-> Hj].
  now apply H.
Qed.

Lemma fmap_tabulate (g : R -> R) n m f :
  fmap (M:=list) (fmap (M:=list) g) (tabulate n m f) =
  tabulate n m (fun k j => g (f k j)).
Proof.
  unfold tabulate. rewrite <- list_fmap_compose. apply list_fmap_ext.
  intros i k _. cbn. now rewrite <- list_fmap_compose.
Qed.

Lemma zip_row_tabulate (h : R -> R -> R) (v : list R) n f :
  fmap (M:=list) (fun r => zip_with h v r) (tabulate n (length v) f) =
  tabulate n (length v) (fun k j => h (vec_at v j) (f k j)).
Proof.
  apply tabulate_eq; [now rewrite length_fmap, tabulate_length |].
  intros k row Hrow. apply list_lookup_fmap_Some_1 in Hrow as (r & -> & Hr).
  pose proof (lookup_lt_Some _ _ _ Hr) as Hk. rewrite tabulate_length in Hk.
  rewrite tabulate_lookup in Hr by done. injection Hr as <-.
  split; [rewrite length_zip_with, length_fmap, length_seq; lia |].
  intros j x Hx. apply lookup_zip_with_Some in Hx as (y & z & -> & Hy & Hz).
  rewrite (nth_lookup_R _ _ _ Hy). f_equal.
  apply list_lookup_fmap_Some_1 in Hz as (i & -> & Hi).
  now apply lookup_seq in Hi as [-> _].
Qed.

Lemma tzip_rows_l (f : R -> R -> R) (a : list (list R)) (v : list R) :
  Forall (fun r => length r = length v) a ->
  tzip f (Mat (fmap (M:=list) (fun _ => v) a)) (Mat a) =
  Ok (Mat (fmap (M:=list) (fun r => zip_with f v r) a)).
Proof.
  intros Hshape. rewrite tzip_mat.
  - do 2 f_equal. clear Hshape.
    induction a as [| r a IH]; cbn; [done | now rewrite IH].
  - unfold shape2. induction Hshape as [| r a Hr _ IH]; cbn; [done |].
    now rewrite Hr, IH.
Qed.

(** X8. For an Exponential layer the log-partition function at a field is
    the logarithm of the mean the layer reads out after an [update] with
    that field. When the field [beta * phi] stays below [loc] at every
    entry, [update] returns, [mean()] returns [1 / (loc - beta * phi)], and
    [log_partition_function] at the field [beta * phi] returns the
    logarithm of that mean, entry by entry. *)
Theorem exponential_log_partition_is_log_mean (backend : Backend)
    (self : unit_layer) (su w : tensor) (betas : option (list R))
    (phi : list (list R)) (loc : list R) :
  be_dot backend su w = Ok (Mat phi) ->
  int_params self !! "loc" = Some (Vec loc) ->
  Forall (fun r => length r = length loc) phi ->
  (forall bs, betas = Some bs -> length bs = length phi) ->
  (forall k j, k < length phi -> j < length loc ->
     (tempered betas k (mat_at phi k j) < vec_at loc j)%R) ->
  exists self' : unit_layer,
    ExponentialLayer.update backend su w (beta_column betas) self =
      (self', Ok tt) /\
    ExponentialLayer.mean self' =
      Ok (Mat (tabulate (length phi) (length loc) (fun k j =>
                 / (vec_at loc j - tempered betas k (mat_at phi k j)))%R)) /\
    ExponentialLayer.log_partition_function self'
      (Mat (tabulate (length phi) (length loc) (fun k j =>
              tempered betas k (mat_at phi k j)))) =
      (m <~ ExponentialLayer.mean self' ;; Ok (be.log m)).
Proof.
  intros Hdot Hloc Hshape Hbetas Hpos.
  eexists. split.
  { exact (exponential_update backend self su w betas phi loc []
             Hdot Hloc Hshape Hbetas). }
  assert (Hmean : ExponentialLayer.mean
            (set_ext_params self
               (extrinsic ExponentialLayer betas phi loc [] ∪ ext_params self))
          = Ok (Mat (tabulate (length phi) (length loc) (fun k j =>
                 / (vec_at loc j - tempered betas k (mat_at phi k j)))%R))).
  { unfold ExponentialLayer.mean, getitem. cbn [ext_params set_ext_params].
    erewrite lookup_union_Some_l by (cbn; apply lookup_insert_eq).
    cbn [rbind operand be.reciprocal tmap]. now rewrite fmap_tabulate. }
  split; [exact Hmean |]. rewrite Hmean. cbn [rbind be.log tmap].
  unfold ExponentialLayer.log_partition_function, getitem.
  replace (int_params (set_ext_params self
             (extrinsic ExponentialLayer betas phi loc [] ∪ ext_params self)))
    with (int_params self) by reflexivity.
  rewrite Hloc. cbn [rbind].
  rewrite broadcast_row by apply Forall_length_tabulate. cbn [rbind].
  unfold sub. rewrite tzip_rows_l by apply Forall_length_tabulate.
  cbn [rbind neg be.log tmap]. do 2 f_equal.
  rewrite zip_row_tabulate, !fmap_tabulate.
  apply tabulate_ext_lt. intros k j Hk Hj.
  rewrite ln_Rinv; [done |]. specialize (Hpos k j Hk Hj). lra.
Qed.

Lemma exponential_log_partition_is_log_mean_witness :
  exists self' : unit_layer,
    ExponentialLayer.update reference.backend (Mat [[1%R]]) (Mat [[2%R]])
      (beta_column None)
      {| base := Layer.set_int_params Layer.init {[ "loc" := Vec [5%R] ]};
         len := 1; sample_size := 0;
         ext_params := {[ "rate" := None ]} |} = (self', Ok tt) /\
    ExponentialLayer.mean self' =
      Ok (Mat (tabulate (length [[(1 * 2 + 0)%R]]) (length [5%R]) (fun k j =>
                 / (vec_at [5%R] j
                    - tempered None k (mat_at [[(1 * 2 + 0)%R]] k j)))%R)) /\
    ExponentialLayer.log_partition_function self'
      (Mat (tabulate (length [[(1 * 2 + 0)%R]]) (length [5%R]) (fun k j =>
              tempered None k (mat_at [[(1 * 2 + 0)%R]] k j)))) =
      (m <~ ExponentialLayer.mean self' ;; Ok (be.log m)).
Proof.
  apply (exponential_log_partition_is_log_mean reference.backend
           {| base := Layer.set_int_params Layer.init {[ "loc" := Vec [5%R] ]};
              len := 1; sample_size := 0;
              ext_params := {[ "rate" := None ]} |}
           (Mat [[1%R]]) (Mat [[2%R]]) None [[(1 * 2 + 0)%R]] [5%R]).
  - reflexivity.
  - reflexivity.
  - repeat constructor.
  - discriminate.
  - intros [| k] [| j] Hk Hj; cbn in *; try lia. unfold mat_at, vec_at. cbn. lra.
Defined.

(** ** [Layer]: penalties *)

Lemma layer_add_penalty (p : gmap string Layer.penalty) (self : Layer.t) :
  Layer.add_penalty p self =
  (Layer.set_penalties self (p ∪ Layer.penalties self), Ok tt).
Proof. reflexivity. Qed.

(** X9. [add_penalty] registers, and the last write wins. After
    [add_penalty(p1)] and then [add_penalty(p2)] a name carries the penalty
    [p2] gives it, else the one [p1] gives it, else the one it had; the
    parameters and the constraints are untouched; and registering the same
    dictionary a second time changes nothing. *)
Theorem add_penalty_last_write_wins (p1 p2 : gmap string Layer.penalty)
    (self : Layer.t) :
  exists self' : Layer.t,
    (Layer.add_penalty p1 ;; Layer.add_penalty p2) self = (self', Ok tt) /\
    (forall name,
       Layer.penalties self' !! name =
       match p2 !! name, p1 !! name with
       | Some pen, _ => Some pen
       | None, Some pen => Some pen
       | None, None => Layer.penalties self !! name
       end) /\
    Layer.int_params self' = Layer.int_params self /\
    Layer.constraints self' = Layer.constraints self /\
    (Layer.add_penalty p1 ;; Layer.add_penalty p1) self =
      Layer.add_penalty p1 self.
Proof.
  eexists. split; [reflexivity |]. cbn. split; [| split; [done |]; split; [done |]].
  - intros name. rewrite !lookup_union.
    destruct (p2 !! name), (p1 !! name),
      (Layer.penalties self !! name); reflexivity.
  - unfold bind. rewrite !layer_add_penalty. cbn.
    unfold Layer.set_penalties. cbn. do 2 f_equal.
    now rewrite (assoc_L (∪)), (idemp_L (∪)).
Qed.

(** The body of the loops of [get_penalties] and [get_penalty_gradients],
    at a name that carries a penalty. *)
Lemma penalty_value_step (self : Layer.t) (name : string) pen :
  Layer.penalties self !! name = Some pen ->
  (a <- Layer.getattr "penalties" ;;
   d <- lift (Layer.as_penalties a) ;;
   pen <- lift (getitem d name) ;;
   a <- Layer.getattr "int_params" ;;
   ps <- lift (Layer.as_params a) ;;
   p <- lift (getitem ps name) ;;
   let _ := Layer.value pen p in
   ret tt) self =
  (self, match Layer.int_params self !! name with
         | Some _ => Ok tt
         | None => Raise KeyError
         end).
Proof.
  intros Hpen.
  erewrite bind_ok by reflexivity.
  erewrite bind_ok by reflexivity.
  erewrite bind_ok by (unfold lift, getitem; now rewrite Hpen).
  erewrite bind_ok by reflexivity.
  erewrite bind_ok by reflexivity.
  unfold bind, lift, getitem, ret. cbn.
  now destruct (Layer.int_params self !! name).
Qed.

Lemma penalty_grad_step (self : Layer.t) (name : string) pen :
  Layer.penalties self !! name = Some pen ->
  (a <- Layer.getattr "penalties" ;;
   d <- lift (Layer.as_penalties a) ;;
   pen <- lift (getitem d name) ;;
   a <- Layer.getattr "int_params" ;;
   ps <- lift (Layer.as_params a) ;;
   p <- lift (getitem ps name) ;;
   ret (Layer.grad pen p)) self =
  (self, match Layer.int_params self !! name with
         | Some p => Ok (Layer.grad pen p)
         | None => Raise KeyError
         end).
Proof.
  intros Hpen.
  erewrite bind_ok by reflexivity.
  erewrite bind_ok by reflexivity.
  erewrite bind_ok by (unfold lift, getitem; now rewrite Hpen).
  erewrite bind_ok by reflexivity.
  erewrite bind_ok by reflexivity.
  unfold bind, lift, getitem, ret. cbn.
  now destruct (Layer.int_params self !! name).
Qed.

Lemma for_each_reader {S} (self : S) (keys : list string)
    (body : string -> St S unit) (ok : string -> Prop) :
  (forall k, ok k \/ ~ ok k) ->
  (forall k, k ∈ keys -> ok k -> body k self = (self, Ok tt)) ->
  (forall k, k ∈ keys -> ~ ok k -> body k self = (self, Raise KeyError)) ->
  (Forall ok keys -> for_each keys body self = (self, Ok tt)) /\
  (~ Forall ok keys -> for_each keys body self = (self, Raise KeyError)).
Proof.
  intros Hdec Hok Hbad. induction keys as [| k keys IH]; cbn [for_each].
  - split; [done |]. intros H. now destruct H.
  - destruct IH as [IH1 IH2].
    { intros k' Hk'. apply Hok. now right. }
    { intros k' Hk'. apply Hbad. now right. }
    split.
    + intros H. apply Forall_cons in H as [Hk Hkeys].
      unfold bind. rewrite Hok by (done || now left). now apply IH1.
    + intros H. unfold bind.
      destruct (Hdec k) as [Hk | Hk].
      * rewrite Hok by (done || now left). apply IH2.
        intros Hkeys. apply H. now constructor.
      * now rewrite Hbad by (done || now left).
Qed.

Lemma penalised_names (self : Layer.t) (k : string) :
  k ∈ (map_to_list (Layer.penalties self)).*1 <->
  is_Some (Layer.penalties self !! k).
Proof.
  rewrite list_elem_of_fmap. split.
  - intros [[k' pen] [-> H]]. apply elem_of_map_to_list in H. now exists pen.
  - intros [pen H]. exists (k, pen). split; [done |].
    now apply elem_of_map_to_list.
Qed.

Lemma penalties_bound_keys (self : Layer.t) :
  penalties_bound self <->
  Forall (fun k => is_Some (Layer.int_params self !! k))
    (map_to_list (Layer.penalties self)).*1.
Proof.
  rewrite Forall_forall. unfold penalties_bound. split.
  - intros H k Hk. now apply H, penalised_names.
  - intros H k Hk. now apply H, penalised_names.
Qed.

(** X10. [get_penalties] returns [None] and never a value. It returns
    when every penalised name is a parameter of the layer and raises
    [KeyError] when some penalised name is not; either way the layer is
    left as it was. *)
Theorem get_penalties_returns_none (self : Layer.t) :
  (penalties_bound self -> Layer.get_penalties self = (self, Ok tt)) /\
  (~ penalties_bound self ->
   Layer.get_penalties self = (self, Raise KeyError)).
Proof.
  rewrite penalties_bound_keys. unfold Layer.get_penalties.
  erewrite bind_ok by reflexivity.
  erewrite bind_ok by reflexivity.
  apply for_each_reader.
  - intros k. destruct (Layer.int_params self !! k); [left | right]; [done |].
    now intros [? ?].
  - intros k Hk [p Hp]. apply penalised_names in Hk as [pen Hpen]. cbv beta.
    pose proof (penalty_value_step self k pen Hpen) as E. cbv zeta in E.
    rewrite E. now rewrite Hp.
  - intros k Hk Hno. apply penalised_names in Hk as [pen Hpen]. cbv beta.
    pose proof (penalty_value_step self k pen Hpen) as E. cbv zeta in E.
    rewrite E.
    destruct (Layer.int_params self !! k) as [p |] eqn:Ep; [| done].
    exfalso. apply Hno. now exists p.
Qed.

Lemma dict_of_reader {S V} (self : S) (keys : list string)
    (body : string -> St S V) (val : string -> option V) :
  (forall k, k ∈ keys ->
     body k self = (self, match val k with
                          | Some v => Ok v
                          | None => Raise KeyError
                          end)) ->
  forall acc : gmap string V,
    (Forall (fun k => is_Some (val k)) keys ->
     exists g : gmap string V,
       dict_of keys body acc self = (self, Ok g) /\
       forall name,
         g !! name = if decide (name ∈ keys) then val name else acc !! name) /\
    (~ Forall (fun k => is_Some (val k)) keys ->
     dict_of keys body acc self = (self, Raise KeyError)).
Proof.
  induction keys as [| k keys IH]; intros Hbody acc; cbn [dict_of].
  - split.
    + intros _. exists acc. split; [done |]. intros name.
      rewrite decide_False; [done |]. apply not_elem_of_nil.
    + intros H. now destruct H.
  - assert (Hrest : forall k', k' ∈ keys ->
              body k' self = (self, match val k' with
                                    | Some v => Ok v
                                    | None => Raise KeyError
                                    end))
      by (intros k' Hk'; apply Hbody; now right).
    unfold bind. rewrite Hbody by now left.
    destruct (val k) as [v |] eqn:Hv.
    + destruct (IH Hrest (<[k := v]> acc)) as [IH1 IH2]. split.
      * intros H. apply Forall_cons in H as [_ Hkeys].
        destruct (IH1 Hkeys) as (g & Hg & Hlook). exists g.
        split; [done |]. intros name. rewrite Hlook.
        destruct (decide (name ∈ keys)) as [Hin | Hout].
        { rewrite decide_True; [done | now right]. }
        destruct (decide (name = k)) as [-> | Hne].
        { rewrite lookup_insert_eq, decide_True; [done | now left]. }
        rewrite lookup_insert_ne by done. rewrite decide_False; [done |].
        intros Hin. apply elem_of_cons in Hin as [? | ?]; done.
      * intros H. apply IH2. intros Hkeys. apply H. constructor; [| done].
        rewrite Hv. now exists v.
    + split; [| done]. intros H. apply Forall_cons in H as [[v Hk] _].
      rewrite Hv in Hk. discriminate.
Qed.

(** X11. [get_penalty_gradients] returns the dictionary of the gradients.
    When every penalised name is a parameter of the layer it returns a
    dictionary whose keys are the penalised names, each bound to the
    gradient of its penalty at the current value of its parameter; when
    some penalised name is not a parameter it raises [KeyError]. Either
    way the layer is left as it was. *)
Theorem get_penalty_gradients_by_name (self : Layer.t) :
  (penalties_bound self ->
   exists g : gmap string tensor,
     Layer.get_penalty_gradients self = (self, Ok g) /\
     forall name,
       g !! name =
       match Layer.penalties self !! name, Layer.int_params self !! name with
       | Some pen, Some p => Some (Layer.grad pen p)
       | _, _ => None
       end) /\
  (~ penalties_bound self ->
   Layer.get_penalty_gradients self = (self, Raise KeyError)).
Proof.
  set (val name :=
         match Layer.penalties self !! name, Layer.int_params self !! name with
         | Some pen, Some p => Some (Layer.grad pen p)
         | _, _ => None
         end).
  assert (Hval : forall k, k ∈ (map_to_list (Layer.penalties self)).*1 ->
            (is_Some (val k) <-> is_Some (Layer.int_params self !! k))).
  { intros k Hk. apply penalised_names in Hk as [pen Hpen]. unfold val.
    rewrite Hpen. destruct (Layer.int_params self !! k); [done |].
    split; intros [? ?]; discriminate. }
  assert (Hkeys : penalties_bound self <->
            Forall (fun k => is_Some (val k))
              (map_to_list (Layer.penalties self)).*1).
  { rewrite penalties_bound_keys, !Forall_forall.
    split; intros H k Hk; apply (Hval k Hk); now apply H. }
  rewrite Hkeys. unfold Layer.get_penalty_gradients.
  erewrite bind_ok by reflexivity.
  erewrite bind_ok by reflexivity.
  match goal with
  | |- context [dict_of ?keys ?body ∅ self] =>
      assert (Hbody : forall k, k ∈ keys ->
                body k self = (self, match val k with
                                     | Some v => Ok v
                                     | None => Raise KeyError
                                     end));
      [| destruct (dict_of_reader self keys body val Hbody ∅) as [H1 H2] ]
  end.
  { intros k Hk. apply penalised_names in Hk as [pen Hpen]. cbv beta.
    rewrite (penalty_grad_step self k pen Hpen). unfold val. rewrite Hpen.
    now destruct (Layer.int_params self !! k). }
  split; [| exact H2].
  - intros Hall. destruct (H1 Hall) as (g & Hg & Hlook). exists g.
    split; [exact Hg |]. intros name. rewrite Hlook.
    destruct (decide _) as [Hin | Hout]; [done |].
    rewrite lookup_empty.
    destruct (Layer.penalties self !! name) as [pen |] eqn:Hpen; [| done].
    exfalso. apply Hout, penalised_names. now exists pen.
Qed.

(** ** The registry [get]: case and embedding *)

Lemma lower_char_idemp (c : ascii) : lower_char (lower_char c) = lower_char c.
Proof.
  unfold lower_char.
  destruct ((65 <=? nat_of_ascii c) && (nat_of_ascii c <=? 90)) eqn:E;
    [| now rewrite E].
  apply andb_true_iff in E as [H1 H2].
  apply Nat.leb_le in H1, H2.
  rewrite nat_ascii_embedding by lia.
  replace ((65 <=? nat_of_ascii c + 32) && (nat_of_ascii c + 32 <=? 90))
    with false; [done |].
  symmetry. apply andb_false_iff. right. apply Nat.leb_gt. lia.
Qed.

Lemma lower_idemp (s : string) : lower (lower s) = lower s.
Proof.
  induction s as [| c s IH]; cbn; [done |].
  now rewrite lower_char_idemp, IH.
Qed.

Lemma lower_app (s t : string) : lower (s +:+ t) = lower s +:+ lower t.
Proof.
  induction s as [| c s IH]; [done |].
  change (lower (String c s +:+ t))
    with (String (lower_char c) (lower (s +:+ t))).
  now rewrite IH.
Qed.

Lemma string_app_assoc (s t u : string) : (s +:+ t) +:+ u = s +:+ (t +:+ u).
Proof.
  induction s as [| c s IH]; [done |].
  change (String c ((s +:+ t) +:+ u) = String c (s +:+ (t +:+ u))).
  now rewrite IH.
Qed.

Lemma contains_embedded (token key pre post : string) :
  contains token (lower key) = true ->
  contains token (lower (pre +:+ key +:+ post)) = true.
Proof.
  rewrite !contains_spec. intros (a & b & E).
  exists (lower pre +:+ a), (b +:+ lower post).
  rewrite !lower_app, E. now rewrite !string_app_assoc.
Qed.

Lemma starts_with_length (p s : string) :
  starts_with p s = true -> String.length p <= String.length s.
Proof.
  revert s. induction p as [| a p IH]; intros [| b s] H; cbn in *;
    try lia; try discriminate.
  destruct (decide (a = b)); [| discriminate].
  specialize (IH s H). lia.
Qed.

Lemma contains_length (needle s : string) :
  contains needle s = true -> String.length needle <= String.length s.
Proof.
  induction s as [| c s IH]; cbn [contains]; intros H.
  - apply orb_true_iff in H as [H | H]; [| discriminate].
    now apply starts_with_length.
  - apply orb_true_iff in H as [H | H].
    + now apply starts_with_length.
    + specialize (IH H). cbn. lia.
Qed.

Lemma lower_length (s : string) : String.length (lower s) = String.length s.
Proof. induction s as [| c s IH]; cbn; [done | now rewrite IH]. Qed.

(** X12. [get] never rejects a key that embeds a recognised one, and it
    ignores case. When [get(key)] returns a class, [get] of any string that
    contains [key] returns a class too, the Gaussian layer whenever
    [get(key)] gave the Gaussian layer (another class may give way to an
    earlier token brought in by the surrounding text); and
    [get(key.lower())] returns the class [get(key)] returns. *)
Theorem get_accepts_embedded_key (key pre post : string)
    (cls : layer_class) :
  get key = Ok cls ->
  (exists cls' : layer_class,
     get (pre +:+ key +:+ post) = Ok cls' /\
     (cls = GaussianLayer -> cls' = GaussianLayer)) /\
  get (lower key) = Ok cls.
Proof.
  intros H. split.
  - pose proof (contains_embedded "gauss" key pre post) as Hg.
    pose proof (contains_embedded "ising" key pre post) as Hi.
    pose proof (contains_embedded "bern" key pre post) as Hb.
    pose proof (contains_embedded "expo" key pre post) as He.
    unfold get in *.
    destruct (contains "gauss" (lower key)).
    { rewrite Hg by done. exists GaussianLayer. split; [done | done]. }
    destruct (contains "gauss" (lower (pre +:+ key +:+ post))).
    { exists GaussianLayer. split; [done | done]. }
    destruct (contains "ising" (lower key)).
    { rewrite Hi by done. exists IsingLayer. split; [done |].
      intros ->. discriminate. }
    destruct (contains "ising" (lower (pre +:+ key +:+ post))).
    { exists IsingLayer. split; [done |]. intros ->.
      destruct (contains "bern" (lower key));
        [| destruct (contains "expo" (lower key))]; discriminate. }
    destruct (contains "bern" (lower key)).
    { rewrite Hb by done. exists BernoulliLayer. split; [done |].
      intros ->. discriminate. }
    destruct (contains "bern" (lower (pre +:+ key +:+ post))).
    { exists BernoulliLayer. split; [done |]. intros ->.
      destruct (contains "expo" (lower key)); discriminate. }
    destruct (contains "expo" (lower key)); [| discriminate].
    rewrite He by done. exists ExponentialLayer. split; [done |].
    intros ->. discriminate.
  - unfold get in *. now rewrite lower_idemp.
Qed.

Lemma get_accepts_embedded_key_witness :
  (exists cls' : layer_class,
     get ("gauss_" +:+ "Ising" +:+ "_layer") = Ok cls' /\
     (IsingLayer = GaussianLayer -> cls' = GaussianLayer)) /\
  get (lower "Ising") = Ok IsingLayer.
Proof.
  apply (get_accepts_embedded_key "Ising" "gauss_" "_layer" IsingLayer).
  reflexivity.
Defined.

(** X13. [get] rejects every key shorter than its shortest token: a key of
    fewer than four characters raises [ValueError]. *)
Theorem get_rejects_short_keys (key : string) :
  String.length key < 4 -> get key = Raise ValueError.
Proof.
  intros Hlen. unfold get.
  assert (Hno : forall token, 4 <= String.length token ->
            contains token (lower key) = false).
  { intros token Htoken.
    destruct (contains token (lower key)) eqn:E; [| done].
    apply contains_length in E. rewrite lower_length in E. lia. }
  rewrite !Hno by (cbn; lia). reflexivity.
Qed.

Lemma get_rejects_short_keys_witness : get "exp" = Raise ValueError.
Proof. apply (get_rejects_short_keys "exp"). cbn. lia. Defined.

(** ** What the methods leave alone *)

Lemma preserves_bind {A B C} (f : unit_layer -> C) (m : St unit_layer A)
    (k : A -> St unit_layer B) :
  preserves f m -> (forall a, preserves f (k a)) -> preserves f (bind m k).
Proof.
  intros Hm Hk s. unfold bind. specialize (Hm s).
  destruct (m s) as [s' [a | e]]; cbn in *; [| done].
  now rewrite Hk.
Qed.

Lemma update_preserves {C} (f : unit_layer -> C) backend cls su w beta :
  (forall name v, preserves f (set_ext name v)) ->
  preserves f (update backend cls su w beta).
Proof.
  intros Hset.
  destruct cls; cbn [update];
    [ unfold GaussianLayer.update | unfold IsingLayer.update
    | unfold BernoulliLayer.update | unfold ExponentialLayer.update ];
    repeat first
      [ apply Hset
      | apply preserves_bind; [| intros ?]
      | match goal with
        | |- preserves _ (match ?b with _ => _ end) => destruct b
        end
      | solve [intros ?; reflexivity] ].
Qed.

(** X14. [update] writes the extrinsic parameters and nothing else. For
    every class, over every backend, whether the call returns or raises,
    it leaves the intrinsic parameters, the penalties, the constraints,
    [len] and [sample_size] as they were. *)
Theorem update_keeps_intrinsic_state (backend : Backend) (cls : layer_class)
    (scaled_units weights : tensor) (beta : option tensor)
    (self : unit_layer) :
  base (update backend cls scaled_units weights beta self).1 = base self /\
  len (update backend cls scaled_units weights beta self).1 = len self /\
  sample_size (update backend cls scaled_units weights beta self).1 =
    sample_size self.
Proof.
  split; [| split].
  - apply (update_preserves base). now intros name v s.
  - apply (update_preserves len). now intros name v s.
  - apply (update_preserves sample_size). now intros name v s.
Qed.

Lemma online_param_update_preserves {C} (f : unit_layer -> C)
    backend cls data :
  (forall name v, preserves f (set_int name v)) ->
  (forall n, preserves f (modify (set_sample_size n))) ->
  preserves f (online_param_update backend cls data).
Proof.
  intros Hset Hsize.
  destruct cls; cbn [online_param_update];
    [ unfold GaussianLayer.online_param_update
    | unfold IsingLayer.online_param_update
    | unfold BernoulliLayer.online_param_update
    | unfold ExponentialLayer.online_param_update ];
    repeat first
      [ apply Hset
      | apply Hsize
      | apply preserves_bind; [| intros ?]
      | progress cbv zeta
      | solve [intros ?; reflexivity] ].
Qed.

Lemma shrink_parameters_preserves {C} (f : unit_layer -> C)
    backend cls shrinkage :
  (forall v, preserves f (set_int "log_var" v)) ->
  preserves f (shrink_parameters backend cls shrinkage).
Proof.
  intros Hset.
  destruct cls; cbn [shrink_parameters];
    [ unfold GaussianLayer.shrink_parameters
    | unfold IsingLayer.shrink_parameters
    | unfold BernoulliLayer.shrink_parameters
    | unfold ExponentialLayer.shrink_parameters ];
    repeat first
      [ apply Hset
      | apply preserves_bind; [| intros ?]
      | progress cbv zeta
      | solve [intros ?; reflexivity] ].
Qed.

(** X15. [online_param_update] and [shrink_parameters] write intrinsic
    parameters and nothing else. For every class, over every backend,
    whether the call returns or raises, both leave the extrinsic
    parameters, the penalties, the constraints and [len] as they were;
    [shrink_parameters] also leaves [sample_size] and the parameter [loc]
    as they were. *)
Theorem moment_methods_keep_extrinsic_state (backend : Backend)
    (cls : layer_class) (data : tensor) (shrinkage : R)
    (self : unit_layer) :
  (ext_params (online_param_update backend cls data self).1 =
     ext_params self /\
   Layer.penalties (base (online_param_update backend cls data self).1) =
     Layer.penalties (base self) /\
   Layer.constraints (base (online_param_update backend cls data self).1) =
     Layer.constraints (base self) /\
   len (online_param_update backend cls data self).1 = len self) /\
  (ext_params (shrink_parameters backend cls shrinkage self).1 =
     ext_params self /\
   Layer.penalties (base (shrink_parameters backend cls shrinkage self).1) =
     Layer.penalties (base self) /\
   Layer.constraints (base (shrink_parameters backend cls shrinkage self).1) =
     Layer.constraints (base self) /\
   len (shrink_parameters backend cls shrinkage self).1 = len self /\
   sample_size (shrink_parameters backend cls shrinkage self).1 =
     sample_size self /\
   int_params (shrink_parameters backend cls shrinkage self).1 !! "loc" =
     int_params self !! "loc").
Proof.
  split.
  - repeat split.
    + apply (online_param_update_preserves ext_params); now intros ? ?.
    + apply (online_param_update_preserves
               (fun s => Layer.penalties (base s))); now intros ? ?.
    + apply (online_param_update_preserves
               (fun s => Layer.constraints (base s))); now intros ? ?.
    + apply (online_param_update_preserves len); now intros ? ?.
  - repeat split.
    + apply (shrink_parameters_preserves ext_params); now intros ? ?.
    + apply (shrink_parameters_preserves
               (fun s => Layer.penalties (base s))); now intros ? ?.
    + apply (shrink_parameters_preserves
               (fun s => Layer.constraints (base s))); now intros ? ?.
    + apply (shrink_parameters_preserves len); now intros ? ?.
    + apply (shrink_parameters_preserves sample_size); now intros ? ?.
    + apply (shrink_parameters_preserves
               (fun s => int_params s !! "loc")).
      intros v s. cbn. now rewrite lookup_insert_ne.
Qed.
(** ** [GaussianLayer.online_param_update] *)


Lemma vec_as_vtab (v : list R) : v = vtab (length v) (vec_at v).
Proof.
  apply vtab_eq; [done |]. intros j x Hx. now rewrite (nth_lookup_R _ _ _ Hx).
Qed.

Lemma tzip_vtab (f : R -> R -> R) m (g h : nat -> R) :
  tzip f (Vec (vtab m g)) (Vec (vtab m h)) =
  Ok (Vec (vtab m (fun j => f (g j) (h j)))).
Proof.
  unfold tzip. rewrite decide_True by now rewrite !vtab_length.
  do 2 f_equal. apply vtab_eq.
  - rewrite length_zip_with, !vtab_length. lia.
  - intros j x Hx. apply lookup_zip_with_Some in Hx as (y & z & -> & Hy & Hz).
    now rewrite (vtab_lookup_Some _ _ _ _ Hy), (vtab_lookup_Some _ _ _ _ Hz).
Qed.













(** ** [GaussianLayer.shrink_parameters] *)

(** X18. [GaussianLayer.shrink_parameters] moves each variance towards 1
    as its docstring says. Over a backend whose [ones_like] gives ones and
    whose [mix_inplace(w, x, y)] stores [w*x + (1-w)*y], for a shrinkage
    between 0 and 1 the call returns, keeps the length of [log_var], and
    leaves at every unit
    [new_variance = (1 - shrinkage) * old_variance + shrinkage],
    where the variance is [exp(log_var)]. *)
Theorem gaussian_shrink_parameters (backend : Backend) (self : unit_layer)
    (log_var : list R) (shrinkage : R) :
  (forall x, be_ones_like backend x = reference.ones_like x) ->
  (forall w x y,
     be_mix_inplace backend w x y = reference.mix_inplace w x y) ->
  int_params self !! "log_var" = Some (Vec log_var) ->
  (0 <= shrinkage <= 1)%R ->
  exists (self' : unit_layer) (log_var' : list R),
    GaussianLayer.shrink_parameters backend shrinkage self = (self', Ok tt) /\
    int_params self' !! "log_var" = Some (Vec log_var') /\
    length log_var' = length log_var /\
    forall j x x', log_var !! j = Some x -> log_var' !! j = Some x' ->
      Rtrigo_def.exp x' =
      ((1 - shrinkage) * Rtrigo_def.exp x + shrinkage)%R.
Proof.
  intros Hones Hmix Hvar Hs.
  exists (set_base self
            (Layer.set_int_params (base self)
               (<["log_var" :=
                    Vec (vtab (length log_var) (fun j =>
                           ln ((1 - shrinkage)
                               * Rtrigo_def.exp (vec_at log_var j)
                               + (1 - (1 - shrinkage)) * 1))%R)]>
                  (int_params self)))).
  eexists. split; [| split; [| split]].
  - rewrite (vec_as_vtab log_var) in Hvar.
    unfold GaussianLayer.shrink_parameters.
    fwd_get_int Hvar. cbn [be.exp tmap]. rewrite fmap_vtab.
    fwd_lift ltac:(rewrite Hones; reflexivity).
    cbn [tmap]. rewrite fmap_vtab.
    fwd_lift ltac:(rewrite Hmix; unfold reference.mix_inplace, add;
                   cbn [smul tmap]; rewrite !fmap_vtab; apply tzip_vtab).
    cbn [be.log tmap]. rewrite fmap_vtab. reflexivity.
  - unfold int_params. cbn. apply lookup_insert_eq.
  - apply vtab_length.
  - intros j x x' Hx Hx'. apply vtab_lookup_Some in Hx'.
    rewrite (nth_lookup_R _ _ _ Hx) in Hx'. subst x'.
    pose proof (exp_pos x) as He. rewrite exp_ln; [lra | nra].
Qed.

Lemma gaussian_shrink_parameters_witness :
  exists (self' : unit_layer) (log_var' : list R),
    GaussianLayer.shrink_parameters reference.backend (1 / 2)
      (gaussian_unit 0 1) = (self', Ok tt) /\
    int_params self' !! "log_var" = Some (Vec log_var') /\
    length log_var' = length [1%R] /\
    forall j x x', [1%R] !! j = Some x -> log_var' !! j = Some x' ->
      Rtrigo_def.exp x' = ((1 - 1 / 2) * Rtrigo_def.exp x + 1 / 2)%R.
Proof.
  apply (gaussian_shrink_parameters reference.backend (gaussian_unit 0 1)
           [1%R] (1 / 2)).
  - reflexivity.
  - reflexivity.
  - reflexivity.
  - lra.
Defined.

(** ** The log-partition function and the mean *)

Lemma softplus_derivative (l x : R) :
  derivable_pt_lim (fun z => be.softplus1 (l + z)) x (be.expit1 (l + x)).
Proof.
  pose proof (exp_pos (l + x)) as He.
  assert (H1 : derivable_pt_lim (fct_cte l + id)%F x (0 + 1)%R)
    by (apply derivable_pt_lim_plus;
        [apply derivable_pt_lim_const | apply derivable_pt_lim_id]).
  assert (H2 : derivable_pt_lim (comp Rtrigo_def.exp (fct_cte l + id)%F) x
                 (Rtrigo_def.exp (l + x) * (0 + 1))%R)
    by (apply derivable_pt_lim_comp; [exact H1 | apply derivable_pt_lim_exp]).
  assert (H3 : derivable_pt_lim
                 (fct_cte 1 + comp Rtrigo_def.exp (fct_cte l + id))%F x
                 (0 + Rtrigo_def.exp (l + x) * (0 + 1))%R)
    by (apply derivable_pt_lim_plus; [apply derivable_pt_lim_const | exact H2]).
  assert (H4 : derivable_pt_lim
                 (comp ln (fct_cte 1 + comp Rtrigo_def.exp (fct_cte l + id))%F)
                 x
                 (/ (1 + Rtrigo_def.exp (l + x))
                  * (0 + Rtrigo_def.exp (l + x) * (0 + 1)))%R).
  { apply derivable_pt_lim_comp; [exact H3 |].
    apply derivable_pt_lim_ln.
    unfold plus_fct, fct_cte, comp, id. lra. }
  replace (be.expit1 (l + x))
    with (/ (1 + Rtrigo_def.exp (l + x))
          * (0 + Rtrigo_def.exp (l + x) * (0 + 1)))%R.
  - apply (derivable_pt_lim_ext _ _ _ _ (fun z => eq_refl) H4).
  - unfold be.expit1. rewrite exp_Ropp. field. split; lra.
Qed.

Lemma cosh_pos (x : R) : (0 < cosh x)%R.
Proof.
  unfold cosh. pose proof (exp_pos x). pose proof (exp_pos (- x)). lra.
Qed.

Lemma logcosh_derivative (l x : R) :
  derivable_pt_lim (fun z => be.logcosh1 (l + z)) x
    (Rtrigo_def.tanh (l + x)).
Proof.
  pose proof (cosh_pos (l + x)) as Hc.
  assert (H1 : derivable_pt_lim (fct_cte l + id)%F x (0 + 1)%R)
    by (apply derivable_pt_lim_plus;
        [apply derivable_pt_lim_const | apply derivable_pt_lim_id]).
  assert (H2 : derivable_pt_lim (comp cosh (fct_cte l + id)%F) x
                 (sinh (l + x) * (0 + 1))%R)
    by (apply derivable_pt_lim_comp; [exact H1 | apply derivable_pt_lim_cosh]).
  assert (H3 : derivable_pt_lim (comp ln (comp cosh (fct_cte l + id)%F)) x
                 (/ cosh (l + x) * (sinh (l + x) * (0 + 1)))%R).
  { apply derivable_pt_lim_comp; [exact H2 |].
    apply derivable_pt_lim_ln. exact Hc. }
  replace (Rtrigo_def.tanh (l + x))
    with (/ cosh (l + x) * (sinh (l + x) * (0 + 1)))%R.
  - apply (derivable_pt_lim_ext _ _ _ _ (fun z => eq_refl) H3).
  - unfold Rtrigo_def.tanh. field. lra.
Qed.

Lemma neg_log_derivative (l x : R) :
  (x < l)%R ->
  derivable_pt_lim (fun z => - ln (l - z))%R x (/ (l - x))%R.
Proof.
  intros Hx.
  assert (H1 : derivable_pt_lim (fct_cte l - id)%F x (0 - 1)%R)
    by (apply derivable_pt_lim_minus;
        [apply derivable_pt_lim_const | apply derivable_pt_lim_id]).
  assert (H2 : derivable_pt_lim (comp ln (fct_cte l - id)%F) x
                 (/ (l - x) * (0 - 1))%R).
  { apply derivable_pt_lim_comp; [exact H1 |].
    apply derivable_pt_lim_ln. unfold minus_fct, fct_cte, id. lra. }
  apply derivable_pt_lim_opp in H2.
  replace (/ (l - x))%R with (- (/ (l - x) * (0 - 1)))%R by (field; lra).
  apply (derivable_pt_lim_ext _ _ _ _ (fun z => eq_refl) H2).
Qed.

Lemma mat_as_tabulate (a : list (list R)) m :
  Forall (fun r => length r = m) a ->
  a = tabulate (length a) m (mat_at a).
Proof.
  intros Hshape. apply tabulate_eq; [done |].
  intros k row Hrow. split.
  - exact (proj1 (Forall_lookup _ a) Hshape k row Hrow).
  - intros j x Hx. symmetry. exact (mat_at_lookup a k j row x Hrow Hx).
Qed.

Lemma mat_at_tabulate n m f k j :
  k < n -> j < m -> mat_at (tabulate n m f) k j = f k j.
Proof.
  intros Hk Hj. apply (mat_at_lookup _ _ _ (fmap (M:=list) (f k) (seq 0 m))).
  - now apply tabulate_lookup.
  - rewrite list_lookup_fmap. now rewrite lookup_seq_lt.
Qed.

(** The entries [loc_j + phi_kj] that both log-partition functions start
    from. *)
Lemma biased_field (loc : list R) (phi : list (list R)) :
  Forall (fun r => length r = length loc) phi ->
  (b <~ be.broadcast (Vec loc) (Mat phi) ;; add b (Mat phi)) =
  Ok (Mat (tabulate (length phi) (length loc)
             (fun k j => vec_at loc j + mat_at phi k j)%R)).
Proof.
  intros Hshape. rewrite (broadcast_row loc phi Hshape). cbn [rbind].
  unfold add. rewrite (tzip_rows_l Rplus phi loc Hshape). do 2 f_equal.
  rewrite (mat_as_tabulate phi _ Hshape) at 1.
  now rewrite zip_row_tabulate.
Qed.

(** X19. For a Bernoulli layer the derivative of the log-partition
    function with respect to the field is the mean. After an [update] with
    the field [phi] (no [beta]), [log_partition_function(phi)] and [mean()]
    both return, entry [(k, j)] of the first is [softplus(loc_j + phi_kj)],
    and the derivative of [x |-> softplus(loc_j + x)] at [phi_kj] is entry
    [(k, j)] of the mean. *)
Theorem bernoulli_log_partition_derivative (backend : Backend)
    (self : unit_layer) (su w : tensor) (phi : list (list R))
    (loc : list R) :
  be_dot backend su w = Ok (Mat phi) ->
  int_params self !! "loc" = Some (Vec loc) ->
  Forall (fun r => length r = length loc) phi ->
  exists (self' : unit_layer) (logZ m : list (list R)),
    BernoulliLayer.update backend su w None self = (self', Ok tt) /\
    BernoulliLayer.log_partition_function self' (Mat phi) = Ok (Mat logZ) /\
    BernoulliLayer.mean self' = Ok (Mat m) /\
    forall k j, k < length phi -> j < length loc ->
      mat_at logZ k j = be.softplus1 (vec_at loc j + mat_at phi k j) /\
      derivable_pt_lim (fun x => be.softplus1 (vec_at loc j + x))
        (mat_at phi k j) (mat_at m k j).
Proof.
  intros Hdot Hloc Hshape.
  pose proof (bernoulli_update backend self su w None phi loc [] Hdot Hloc
                Hshape ltac:(discriminate)) as Hupd.
  cbn [beta_column] in Hupd.
  do 3 eexists. split; [exact Hupd |]. split; [| split].
  - unfold BernoulliLayer.log_partition_function, getitem.
    replace (int_params (set_ext_params self
               (extrinsic BernoulliLayer None phi loc [] ∪ ext_params self)))
      with (int_params self) by reflexivity.
    rewrite Hloc. cbn [rbind].
    pose proof (biased_field loc phi Hshape) as Hb.
    destruct (be.broadcast (Vec loc) (Mat phi)) as [b |]; [| discriminate].
    cbn [rbind] in Hb |- *. rewrite Hb. cbn [rbind be.softplus tmap].
    now rewrite fmap_tabulate.
  - unfold BernoulliLayer.mean, getitem. cbn [ext_params set_ext_params].
    erewrite lookup_union_Some_l by (cbn; apply lookup_insert_eq).
    cbn [rbind operand be.expit tmap]. now rewrite fmap_tabulate.
  - intros k j Hk Hj. rewrite !mat_at_tabulate by done. split; [done |].
    cbn [tempered].
    rewrite (Rplus_comm (mat_at phi k j)). apply softplus_derivative.
Qed.

Lemma bernoulli_log_partition_derivative_witness :
  exists (self' : unit_layer) (logZ m : list (list R)),
    BernoulliLayer.update reference.backend (Mat [[1%R]]) (Mat [[2%R]]) None
      fresh_bernoulli = (self', Ok tt) /\
    BernoulliLayer.log_partition_function self' (Mat [[(1 * 2 + 0)%R]]) =
      Ok (Mat logZ) /\
    BernoulliLayer.mean self' = Ok (Mat m) /\
    forall k j, k < length [[(1 * 2 + 0)%R]] -> j < length [0%R] ->
      mat_at logZ k j =
        be.softplus1 (vec_at [0%R] j + mat_at [[(1 * 2 + 0)%R]] k j) /\
      derivable_pt_lim (fun x => be.softplus1 (vec_at [0%R] j + x))
        (mat_at [[(1 * 2 + 0)%R]] k j) (mat_at m k j).
Proof.
  apply (bernoulli_log_partition_derivative reference.backend fresh_bernoulli
           (Mat [[1%R]]) (Mat [[2%R]]) [[(1 * 2 + 0)%R]] [0%R]).
  - reflexivity.
  - reflexivity.
  - repeat constructor.
Defined.

(** X20. For an Ising layer the derivative of the log-partition function
    with respect to the field is the mean. After an [update] with the field
    [phi] (no [beta]), [log_partition_function(phi)] and [mean()] both
    return, entry [(k, j)] of the first is [logcosh(loc_j + phi_kj)], and
    the derivative of [x |-> logcosh(loc_j + x)] at [phi_kj] is entry
    [(k, j)] of the mean. *)
Theorem ising_log_partition_derivative (backend : Backend)
    (self : unit_layer) (su w : tensor) (phi : list (list R))
    (loc : list R) :
  be_dot backend su w = Ok (Mat phi) ->
  int_params self !! "loc" = Some (Vec loc) ->
  Forall (fun r => length r = length loc) phi ->
  exists (self' : unit_layer) (logZ m : list (list R)),
    IsingLayer.update backend su w None self = (self', Ok tt) /\
    IsingLayer.log_partition_function self' (Mat phi) = Ok (Mat logZ) /\
    IsingLayer.mean self' = Ok (Mat m) /\
    forall k j, k < length phi -> j < length loc ->
      mat_at logZ k j = be.logcosh1 (vec_at loc j + mat_at phi k j) /\
      derivable_pt_lim (fun x => be.logcosh1 (vec_at loc j + x))
        (mat_at phi k j) (mat_at m k j).
Proof.
  intros Hdot Hloc Hshape.
  pose proof (ising_update backend self su w None phi loc [] Hdot Hloc
                Hshape ltac:(discriminate)) as Hupd.
  cbn [beta_column] in Hupd.
  do 3 eexists. split; [exact Hupd |]. split; [| split].
  - unfold IsingLayer.log_partition_function, getitem.
    replace (int_params (set_ext_params self
               (extrinsic IsingLayer None phi loc [] ∪ ext_params self)))
      with (int_params self) by reflexivity.
    rewrite Hloc. cbn [rbind].
    pose proof (biased_field loc phi Hshape) as Hb.
    destruct (be.broadcast (Vec loc) (Mat phi)) as [b |]; [| discriminate].
    cbn [rbind] in Hb |- *. rewrite Hb. cbn [rbind be.logcosh tmap].
    now rewrite fmap_tabulate.
  - unfold IsingLayer.mean, getitem. cbn [ext_params set_ext_params].
    erewrite lookup_union_Some_l by (cbn; apply lookup_insert_eq).
    cbn [rbind operand be.tanh tmap]. now rewrite fmap_tabulate.
  - intros k j Hk Hj. rewrite !mat_at_tabulate by done. split; [done |].
    cbn [tempered].
    rewrite (Rplus_comm (mat_at phi k j)). apply logcosh_derivative.
Qed.

Lemma ising_log_partition_derivative_witness :
  exists (self' : unit_layer) (logZ m : list (list R)),
    IsingLayer.update reference.backend (Mat [[1%R]]) (Mat [[2%R]]) None
      {| base := Layer.set_int_params Layer.init {[ "loc" := Vec [0%R] ]};
         len := 1; sample_size := 0;
         ext_params := {[ "field" := None ]} |} = (self', Ok tt) /\
    IsingLayer.log_partition_function self' (Mat [[(1 * 2 + 0)%R]]) =
      Ok (Mat logZ) /\
    IsingLayer.mean self' = Ok (Mat m) /\
    forall k j, k < length [[(1 * 2 + 0)%R]] -> j < length [0%R] ->
      mat_at logZ k j =
        be.logcosh1 (vec_at [0%R] j + mat_at [[(1 * 2 + 0)%R]] k j) /\
      derivable_pt_lim (fun x => be.logcosh1 (vec_at [0%R] j + x))
        (mat_at [[(1 * 2 + 0)%R]] k j) (mat_at m k j).
Proof.
  apply (ising_log_partition_derivative reference.backend
           {| base := Layer.set_int_params Layer.init {[ "loc" := Vec [0%R] ]};
              len := 1; sample_size := 0;
              ext_params := {[ "field" := None ]} |}
           (Mat [[1%R]]) (Mat [[2%R]]) [[(1 * 2 + 0)%R]] [0%R]).
  - reflexivity.
  - reflexivity.
  - repeat constructor.
Defined.

(** X21. For an Exponential layer the derivative of the log-partition
    function with respect to the field is the mean, where the field stays
    below [loc]. After an [update] with such a field [phi] (no [beta]),
    [log_partition_function(phi)] and [mean()] both return, entry [(k, j)]
    of the first is [-log(loc_j - phi_kj)], and the derivative of
    [x |-> -log(loc_j - x)] at [phi_kj] is entry [(k, j)] of the mean. *)
Theorem exponential_log_partition_derivative (backend : Backend)
    (self : unit_layer) (su w : tensor) (phi : list (list R))
    (loc : list R) :
  be_dot backend su w = Ok (Mat phi) ->
  int_params self !! "loc" = Some (Vec loc) ->
  Forall (fun r => length r = length loc) phi ->
  (forall k j, k < length phi -> j < length loc ->
     (mat_at phi k j < vec_at loc j)%R) ->
  exists (self' : unit_layer) (logZ m : list (list R)),
    ExponentialLayer.update backend su w None self = (self', Ok tt) /\
    ExponentialLayer.log_partition_function self' (Mat phi) =
      Ok (Mat logZ) /\
    ExponentialLayer.mean self' = Ok (Mat m) /\
    forall k j, k < length phi -> j < length loc ->
      mat_at logZ k j = (- ln (vec_at loc j - mat_at phi k j))%R /\
      derivable_pt_lim (fun x => - ln (vec_at loc j - x))%R
        (mat_at phi k j) (mat_at m k j).
Proof.
  intros Hdot Hloc Hshape Hpos.
  pose proof (exponential_update backend self su w None phi loc [] Hdot Hloc
                Hshape ltac:(discriminate)) as Hupd.
  cbn [beta_column] in Hupd.
  do 3 eexists. split; [exact Hupd |]. split; [| split].
  - unfold ExponentialLayer.log_partition_function, getitem.
    replace (int_params (set_ext_params self
               (extrinsic ExponentialLayer None phi loc [] ∪ ext_params self)))
      with (int_params self) by reflexivity.
    rewrite Hloc. cbn [rbind].
    rewrite (broadcast_row loc phi Hshape). cbn [rbind].
    unfold sub. rewrite (tzip_rows_l Rminus phi loc Hshape).
    cbn [rbind neg be.log tmap].
    rewrite (mat_as_tabulate phi _ Hshape) at 1.
    now rewrite zip_row_tabulate, !fmap_tabulate.
  - unfold ExponentialLayer.mean, getitem. cbn [ext_params set_ext_params].
    erewrite lookup_union_Some_l by (cbn; apply lookup_insert_eq).
    cbn [rbind operand be.reciprocal tmap]. now rewrite fmap_tabulate.
  - intros k j Hk Hj. rewrite !mat_at_tabulate by done. split; [done |].
    cbn [tempered]. apply neg_log_derivative. now apply Hpos.
Qed.

Lemma exponential_log_partition_derivative_witness :
  exists (self' : unit_layer) (logZ m : list (list R)),
    ExponentialLayer.update reference.backend (Mat [[1%R]]) (Mat [[2%R]]) None
      {| base := Layer.set_int_params Layer.init {[ "loc" := Vec [5%R] ]};
         len := 1; sample_size := 0;
         ext_params := {[ "rate" := None ]} |} = (self', Ok tt) /\
    ExponentialLayer.log_partition_function self' (Mat [[(1 * 2 + 0)%R]]) =
      Ok (Mat logZ) /\
    ExponentialLayer.mean self' = Ok (Mat m) /\
    forall k j, k < length [[(1 * 2 + 0)%R]] -> j < length [5%R] ->
      mat_at logZ k j =
        (- ln (vec_at [5%R] j - mat_at [[(1 * 2 + 0)%R]] k j))%R /\
      derivable_pt_lim (fun x => - ln (vec_at [5%R] j - x))%R
        (mat_at [[(1 * 2 + 0)%R]] k j) (mat_at m k j).
Proof.
  apply (exponential_log_partition_derivative reference.backend
           {| base := Layer.set_int_params Layer.init {[ "loc" := Vec [5%R] ]};
              len := 1; sample_size := 0;
              ext_params := {[ "rate" := None ]} |}
           (Mat [[1%R]]) (Mat [[2%R]]) [[(1 * 2 + 0)%R]] [5%R]).
  - reflexivity.
  - reflexivity.
  - repeat constructor.
  - intros [| k] [| j] Hk Hj; cbn in *; try lia. unfold mat_at, vec_at. cbn. lra.
Defined.

Lemma shape2_tabulate n m f :
  shape2 (tabulate n m f) = fmap (M:=list) (fun _ => m) (seq 0 n).
Proof.
  unfold shape2, tabulate. rewrite <- list_fmap_compose.
  apply list_fmap_ext. intros i k _. cbn. now rewrite length_fmap, length_seq.
Qed.

Lemma tzip_tabulate (f : R -> R -> R) n m (g h : nat -> nat -> R) :
  tzip f (Mat (tabulate n m g)) (Mat (tabulate n m h)) =
  Ok (Mat (tabulate n m (fun k j => f (g k j) (h k j)))).
Proof.
  rewrite tzip_mat by now rewrite !shape2_tabulate.
  do 2 f_equal. apply tabulate_eq.
  - rewrite length_zip_with, !tabulate_length. lia.
  - intros k row Hrow.
    apply lookup_zip_with_Some in Hrow as (r1 & r2 & -> & H1 & H2).
    pose proof (lookup_lt_Some _ _ _ H1) as Hk.
    rewrite tabulate_length in Hk.
    rewrite tabulate_lookup in H1, H2 by done.
    injection H1 as <-. injection H2 as <-. split.
    + rewrite length_zip_with, !length_fmap, length_seq. lia.
    + intros j x Hx.
      apply lookup_zip_with_Some in Hx as (y & z & -> & Hy & Hz).
      apply list_lookup_fmap_Some_1 in Hy as (i & -> & Hi).
      apply list_lookup_fmap_Some_1 in Hz as (i' & -> & Hi').
      apply lookup_seq in Hi as [-> _]. now apply lookup_seq in Hi' as [-> _].
Qed.

Lemma rows_tabulate_id (a : list (list R)) (v : list R) :
  fmap (M:=list) (fun _ => v) a =
  tabulate (length a) (length v) (fun _ j => vec_at v j).
Proof.
  pose proof (rows_tabulate a v id) as E. now rewrite list_fmap_id in E.
Qed.

Lemma gaussian_log_partition_entries (self : unit_layer)
    (loc log_var : list R) (phi : list (list R)) :
  int_params self !! "loc" = Some (Vec loc) ->
  int_params self !! "log_var" = Some (Vec log_var) ->
  length log_var = length loc ->
  Forall (fun r => length r = length loc) phi ->
  GaussianLayer.log_partition_function self (Mat phi) =
  Ok (Mat (tabulate (length phi) (length loc) (fun k j =>
             vec_at loc j * mat_at phi k j
             + Rtrigo_def.exp (vec_at log_var j)
               * (mat_at phi k j * mat_at phi k j)
             + ln (Rtrigo_def.exp (vec_at log_var j)))%R)).
Proof.
  intros Hloc Hvar Hlen Hshape.
  assert (Hscale : Forall (fun r => length r =
                      length (fmap (M:=list) Rtrigo_def.exp log_var)) phi)
    by now rewrite length_fmap, Hlen.
  unfold GaussianLayer.log_partition_function, getitem.
  rewrite Hvar, Hloc. cbn [rbind be.exp tmap].
  rewrite (broadcast_row loc phi Hshape).
  rewrite (broadcast_row _ phi Hscale). cbn [rbind].
  rewrite rows_tabulate, Hlen. rewrite (rows_tabulate_id phi loc).
  pose proof (mat_as_tabulate phi _ Hshape) as HT.
  set (T := tabulate (length phi) (length loc) (mat_at phi)) in HT.
  assert (HM : Mat phi = Mat T) by now f_equal.
  rewrite !HM. subst T. cbn [be.square be.log tmap].
  rewrite !fmap_tabulate. unfold mul, add.
  rewrite !tzip_tabulate. cbn [rbind]. rewrite !tzip_tabulate. cbn [rbind].
  rewrite !tzip_tabulate. reflexivity.
Qed.

(** X22. For a Gaussian layer the derivative of the log-partition function
    with respect to the field is not the mean. After an [update] with the
    field [phi] (no [beta]), entry [(k, j)] of
    [log_partition_function(phi)] is
    [loc_j * phi_kj + var_j * phi_kj^2 + log(var_j)] with
    [var = exp(log_var)], whose derivative in [phi_kj] is
    [loc_j + 2 * var_j * phi_kj], while entry [(k, j)] of [mean()] is
    [phi_kj + loc_j]. The two differ by [(2 * var_j - 1) * phi_kj]: wherever
    [phi_kj] is not 0 and [var_j] is not [1/2], the mean is not the
    derivative. *)
Theorem gaussian_log_partition_derivative (backend : Backend)
    (self : unit_layer) (su w : tensor) (phi : list (list R))
    (loc log_var : list R) :
  be_dot backend su w = Ok (Mat phi) ->
  int_params self !! "loc" = Some (Vec loc) ->
  int_params self !! "log_var" = Some (Vec log_var) ->
  length log_var = length loc ->
  Forall (fun r => length r = length loc) phi ->
  exists (self' : unit_layer) (logZ m : list (list R)),
    GaussianLayer.update backend su w None self = (self', Ok tt) /\
    GaussianLayer.log_partition_function self' (Mat phi) = Ok (Mat logZ) /\
    GaussianLayer.mean self' = Ok (Some (Mat m)) /\
    forall k j, k < length phi -> j < length loc ->
      let var := Rtrigo_def.exp (vec_at log_var j) in
      let f x := (vec_at loc j * x + var * (x * x) + ln var)%R in
      mat_at logZ k j = f (mat_at phi k j) /\
      derivable_pt_lim f (mat_at phi k j)
        (vec_at loc j + 2 * var * mat_at phi k j)%R /\
      mat_at m k j = (mat_at phi k j + vec_at loc j)%R /\
      (mat_at phi k j <> 0%R -> var <> (1 / 2)%R ->
       ~ derivable_pt_lim f (mat_at phi k j) (mat_at m k j)).
Proof.
  intros Hdot Hloc Hvar Hlen Hshape.
  pose proof (gaussian_update backend self su w None phi loc log_var Hdot
                Hloc Hvar Hlen Hshape ltac:(discriminate)) as Hupd.
  cbn [beta_column] in Hupd.
  do 3 eexists. split; [exact Hupd |]. split; [| split].
  - exact (gaussian_log_partition_entries _ loc log_var phi
             Hloc Hvar Hlen Hshape).
  - unfold GaussianLayer.mean, getitem. cbn [ext_params set_ext_params].
    erewrite lookup_union_Some_l by (cbn; apply lookup_insert_eq).
    reflexivity.
  - intros k j Hk Hj var f. rewrite !mat_at_tabulate by done.
    cbn [tempered].
    set (l := vec_at loc j) in *. set (x := mat_at phi k j).
    assert (Hd : derivable_pt_lim f x (l + 2 * var * x)%R).
    { assert (H1 : derivable_pt_lim (mult_real_fct l id) x (l * 1)%R)
        by apply derivable_pt_lim_scal, derivable_pt_lim_id.
      assert (H2 : derivable_pt_lim (mult_real_fct var (id * id)%F) x
                     (var * (1 * x + x * 1))%R).
      { apply derivable_pt_lim_scal.
        apply (derivable_pt_lim_mult id id x 1 1); apply derivable_pt_lim_id. }
      assert (H3 : derivable_pt_lim
                     (mult_real_fct l id + mult_real_fct var (id * id)
                      + fct_cte (ln var))%F x
                     (l * 1 + var * (1 * x + x * 1) + 0)%R).
      { apply derivable_pt_lim_plus;
          [apply derivable_pt_lim_plus; [exact H1 | exact H2] |].
        apply derivable_pt_lim_const. }
      replace (l + 2 * var * x)%R
        with (l * 1 + var * (1 * x + x * 1) + 0)%R by ring.
      apply (derivable_pt_lim_ext _ _ _ _ (fun z => eq_refl) H3). }
    split; [reflexivity |]. split; [exact Hd |]. split; [reflexivity |].
    intros Hx Hv Hm.
    pose proof (uniqueness_limite f x _ _ Hd Hm) as E.
    assert (Hz : ((2 * var - 1) * x = 0)%R) by lra.
    apply Rmult_integral in Hz as [Hz | Hz]; [apply Hv; lra | now apply Hx].
Qed.

Lemma gaussian_log_partition_derivative_witness :
  exists (self' : unit_layer) (logZ m : list (list R)),
    GaussianLayer.update reference.backend (Mat [[1%R]]) (Mat [[2%R]]) None
      standard_gaussian = (self', Ok tt) /\
    GaussianLayer.log_partition_function self' (Mat [[(1 * 2 + 0)%R]]) =
      Ok (Mat logZ) /\
    GaussianLayer.mean self' = Ok (Some (Mat m)) /\
    forall k j, k < length [[(1 * 2 + 0)%R]] -> j < length [0%R] ->
      let var := Rtrigo_def.exp (vec_at [0%R] j) in
      let f x := (vec_at [0%R] j * x + var * (x * x) + ln var)%R in
      mat_at logZ k j = f (mat_at [[(1 * 2 + 0)%R]] k j) /\
      derivable_pt_lim f (mat_at [[(1 * 2 + 0)%R]] k j)
        (vec_at [0%R] j + 2 * var * mat_at [[(1 * 2 + 0)%R]] k j)%R /\
      mat_at m k j = (mat_at [[(1 * 2 + 0)%R]] k j + vec_at [0%R] j)%R /\
      (mat_at [[(1 * 2 + 0)%R]] k j <> 0%R -> var <> (1 / 2)%R ->
       ~ derivable_pt_lim f (mat_at [[(1 * 2 + 0)%R]] k j) (mat_at m k j)).
Proof.
  apply (gaussian_log_partition_derivative reference.backend standard_gaussian
           (Mat [[1%R]]) (Mat [[2%R]]) [[(1 * 2 + 0)%R]] [0%R] [0%R]).
  - reflexivity.
  - reflexivity.
  - reflexivity.
  - reflexivity.
  - repeat constructor.
Defined.

(** ** Constraints are never registered *)

Lemma init_constraints (backend : Backend) (cls : layer_class)
    (num_units : nat) (self : unit_layer) :
  init backend cls num_units = Ok self ->
  Layer.constraints (base self) = ∅.
Proof.
  intros H. destruct cls; cbn [init] in H;
    [ unfold GaussianLayer.init in H | unfold IsingLayer.init in H
    | unfold BernoulliLayer.init in H | unfold ExponentialLayer.init in H ];
    destruct (be_zeros backend num_units) as [z |]; try discriminate;
    now injection H as <-.
Qed.

Lemma inherited_enforce_constraints_empty (self : unit_layer) :
  Layer.constraints (base self) = ∅ ->
  inherited Layer.enforce_constraints self = (self, Ok tt).
Proof.
  intros He. unfold inherited, zoom.
  rewrite (layer_enforce_constraints_empty (base self) He).
  now rewrite set_base_id.
Qed.

Lemma call_keeps_constraints_empty (backend : Backend) (cls : layer_class)
    (m : method) (self : unit_layer) :
  Layer.constraints (base self) = ∅ ->
  Layer.constraints (base (call backend cls m self).1) = ∅.
Proof.
  intros He. destruct m; cbn [call].
  - unfold inherited, zoom. rewrite layer_add_constraint_raises.
    now rewrite set_base_id.
  - now rewrite inherited_enforce_constraints_empty.
  - unfold inherited, zoom. now rewrite layer_add_penalty.
  - unfold inherited, zoom, Layer.parameter_step, bind.
    pose proof (subtract_keeps_constraints deltas (base self)) as Hc.
    destruct (zoom Layer.int_params Layer.set_int_params
                (be.subtract_dicts_inplace deltas) (base self))
      as [b' [[] | e]]; cbn in Hc.
    + rewrite layer_enforce_constraints_empty by now rewrite Hc.
      cbn. now rewrite Hc.
    + cbn. now rewrite Hc.
  - rewrite <- He.
    apply (online_param_update_preserves
             (fun s => Layer.constraints (base s))); now intros ? ?.
  - rewrite <- He.
    apply (shrink_parameters_preserves
             (fun s => Layer.constraints (base s))); now intros ? ?.
  - rewrite <- He.
    apply (update_preserves (fun s => Layer.constraints (base s))).
    now intros ? ? ?.
Qed.

Lemma run_keeps_constraints_empty (backend : Backend) (cls : layer_class)
    (ms : list method) (self : unit_layer) :
  Layer.constraints (base self) = ∅ ->
  Layer.constraints (base (run backend cls ms self)) = ∅.
Proof.
  revert self. induction ms as [| m ms IH]; intros self He; cbn [run].
  - exact He.
  - apply IH. now apply call_keeps_constraints_empty.
Qed.

(** X23. No sequence of method calls ever registers a constraint. On a
    layer built by its constructor, after any calls of [add_constraint],
    [enforce_constraints], [add_penalty], [parameter_step],
    [online_param_update], [shrink_parameters] and [update], in any order
    and whether they return or raise, the [constraints] dictionary is still
    empty, and so [enforce_constraints] returns at once and changes
    nothing. *)
Theorem constraints_stay_empty (backend : Backend) (cls : layer_class)
    (num_units : nat) (ms : list method) (self : unit_layer) :
  init backend cls num_units = Ok self ->
  Layer.constraints (base (run backend cls ms self)) = ∅ /\
  call backend cls EnforceConstraints (run backend cls ms self) =
    (run backend cls ms self, Ok tt).
Proof.
  intros Hinit.
  assert (He : Layer.constraints (base (run backend cls ms self)) = ∅).
  { apply run_keeps_constraints_empty.
    exact (init_constraints backend cls num_units self Hinit). }
  split; [exact He |]. cbn [call].
  now apply inherited_enforce_constraints_empty.
Qed.

Lemma constraints_stay_empty_witness :
  Layer.constraints
    (base (run pytorch_backend IsingLayer
             [AddConstraint {[ "loc" := fun t : tensor => t ]};
              ParameterStep ∅]
             {| base := Layer.set_int_params Layer.init
                          {[ "loc" := Vec (replicate 2 0%R) ]};
                len := 2; sample_size := 0;
                ext_params := {[ "field" := None ]} |})) = ∅ /\
  call pytorch_backend IsingLayer EnforceConstraints
    (run pytorch_backend IsingLayer
       [AddConstraint {[ "loc" := fun t : tensor => t ]};
        ParameterStep ∅]
       {| base := Layer.set_int_params Layer.init
                    {[ "loc" := Vec (replicate 2 0%R) ]};
          len := 2; sample_size := 0;
          ext_params := {[ "field" := None ]} |}) =
  (run pytorch_backend IsingLayer
     [AddConstraint {[ "loc" := fun t : tensor => t ]};
      ParameterStep ∅]
     {| base := Layer.set_int_params Layer.init
                  {[ "loc" := Vec (replicate 2 0%R) ]};
        len := 2; sample_size := 0;
        ext_params := {[ "field" := None ]} |}, Ok tt).
Proof.
  apply (constraints_stay_empty pytorch_backend IsingLayer 2).
  reflexivity.
Defined.

(** ** The sign of the energy *)

(** X24. The Ising and the Bernoulli layer compute one and the same energy,
    and the Exponential layer computes its negation: in every state, on
    every batch and over every backend, [IsingLayer.energy] and
    [BernoulliLayer.energy] agree (value or exception), and
    [ExponentialLayer.energy] is [IsingLayer.energy] with the sign of every
    entry flipped, raising where it raises. *)
Theorem energy_sign_convention (backend : Backend) (self : unit_layer)
    (data : tensor) :
  IsingLayer.energy backend self data =
    BernoulliLayer.energy backend self data /\
  ExponentialLayer.energy backend self data =
    (e <~ IsingLayer.energy backend self data ;; Ok (neg e)).
Proof.
  split; [reflexivity |].
  unfold ExponentialLayer.energy, IsingLayer.energy.
  destruct (getitem (int_params self) "loc") as [loc | e]; [| reflexivity].
  cbn [rbind].
  destruct (be_dot backend data loc) as [d | e]; [| reflexivity].
  cbn [rbind]. f_equal. unfold divs, neg. rewrite !tmap_tmap.
  apply tmap_ext. intros x. unfold Rdiv. ring.
Qed.

(** ** [online_param_update] keeps the shape of [loc] *)

Lemma same_shape_refl (x : tensor) : same_shape x x.
Proof. now destruct x. Qed.

Lemma same_shape_trans (x y z : tensor) :
  same_shape x y -> same_shape y z -> same_shape x z.
Proof.
  destruct x, y, z; cbn; try done; intros -> ->; reflexivity.
Qed.

Lemma same_shape_tmap (f : R -> R) (x : tensor) : same_shape x (tmap f x).
Proof.
  destruct x as [v | a]; cbn.
  - now rewrite length_fmap.
  - unfold shape2. rewrite <- list_fmap_compose.
    apply list_fmap_ext. intros i r _. cbn. now rewrite length_fmap.
Qed.

Lemma same_shape_tzip (f : R -> R -> R) (x y z : tensor) :
  tzip f x y = Ok z -> same_shape x z.
Proof.
  destruct x as [v | a], y as [w | b]; cbn; try discriminate.
  - case_decide as Hlen; [| discriminate]. intros [= <-]. cbn.
    rewrite length_zip_with. lia.
  - case_decide as Hs; [| discriminate]. intros [= <-]. cbn.
    unfold shape2 in *. revert b Hs.
    induction a as [| r a IH]; intros [| r' b] Hs; try done.
    cbn in *. injection Hs as Hr Hs.
    rewrite length_zip_with, <- Hr, Nat.min_id. f_equal. now apply IH.
Qed.

Lemma gets_inv {S A} (f : S -> A) (s s' : S) a :
  gets f s = (s', Ok a) -> s' = s /\ f s = a.
Proof. unfold gets. now intros [= -> ->]. Qed.

Lemma getitem_inv {V} (d : gmap string V) (key : string) (v : V) :
  getitem d key = Ok v -> d !! key = Some v.
Proof. unfold getitem. destruct (d !! key); [now intros [= ->] | done]. Qed.

Ltac moment_inv H :=
  cbv zeta in H;
  apply bind_inv in H as (? & ? & [-> _]%gets_inv & H);
  st_inv H;
  repeat match goal with
         | Hg : getitem _ _ = Ok _ |- _ => apply getitem_inv in Hg
         end.

Lemma ising_online_param_update_shape backend data self self' name p :
  IsingLayer.online_param_update backend data self = (self', Ok tt) ->
  int_params self !! name = Some p ->
  exists p', int_params self' !! name = Some p' /\ same_shape p p'.
Proof.
  intros H Hp.
  unfold IsingLayer.online_param_update, get_int, set_int in H.
  moment_inv H. unfold int_params. cbn.
  destruct (decide (name = "loc")) as [-> | Hne].
  - rewrite lookup_insert_eq. eexists. split; [reflexivity |].
    match goal with
    | Hg : int_params self !! "loc" = Some ?l, Ha : add _ _ = Ok _ |- _ =>
        rewrite Hp in Hg; injection Hg as <-;
        apply same_shape_tzip in Ha;
        eapply same_shape_trans; [| apply same_shape_tmap];
        eapply same_shape_trans; [| exact Ha];
        unfold muls, be.tanh;
        eapply same_shape_trans; apply same_shape_tmap
    end.
  - rewrite lookup_insert_ne by done. exists p.
    split; [exact Hp | apply same_shape_refl].
Qed.

Lemma bernoulli_online_param_update_shape backend data self self' name p :
  BernoulliLayer.online_param_update backend data self = (self', Ok tt) ->
  int_params self !! name = Some p ->
  exists p', int_params self' !! name = Some p' /\ same_shape p p'.
Proof.
  intros H Hp.
  unfold BernoulliLayer.online_param_update, get_int, set_int in H.
  moment_inv H. unfold int_params. cbn.
  destruct (decide (name = "loc")) as [-> | Hne].
  - rewrite lookup_insert_eq. eexists. split; [reflexivity |].
    match goal with
    | Hg : int_params self !! "loc" = Some ?l, Ha : add _ _ = Ok _ |- _ =>
        rewrite Hp in Hg; injection Hg as <-;
        apply same_shape_tzip in Ha;
        eapply same_shape_trans; [| apply same_shape_tmap];
        eapply same_shape_trans; [| exact Ha];
        unfold muls, be.expit;
        eapply same_shape_trans; apply same_shape_tmap
    end.
  - rewrite lookup_insert_ne by done. exists p.
    split; [exact Hp | apply same_shape_refl].
Qed.

Lemma exponential_online_param_update_never_returns backend data self self' :
  ExponentialLayer.online_param_update backend data self <> (self', Ok tt).
Proof.
  intros H.
  unfold ExponentialLayer.online_param_update, get_int in H. cbv zeta in H.
  apply bind_inv in H as (? & ? & [-> _]%gets_inv & H).
  apply bind_inv in H as (? & ? & [-> _]%reads_inv & H).
  apply bind_inv in H as (? & ? & Hcall & _).
  discriminate Hcall.
Qed.

Lemma gaussian_online_param_update_shape backend data self self' name p :
  GaussianLayer.online_param_update backend data self = (self', Ok tt) ->
  int_params self !! name = Some p ->
  exists p', int_params self' !! name = Some p' /\ same_shape p p'.
Proof.
  intros H Hp.
  unfold GaussianLayer.online_param_update, get_int, set_int in H.
  moment_inv H.
  repeat match goal with
         | Hg : int_params (set_base _ _) !! "loc" = Some _ |- _ =>
             unfold int_params in Hg; cbn in Hg;
             rewrite lookup_insert_eq in Hg; injection Hg as <-
         end.
  unfold int_params. cbn.
  destruct (decide (name = "log_var")) as [-> | Hnv].
  - rewrite lookup_insert_eq. eexists. split; [reflexivity |].
    match goal with
    | Hg : int_params self !! "log_var" = Some ?l,
      H1 : add (be.exp ?l) _ = Ok ?x2,
      H2 : add (muls ?x2 _) _ = Ok ?x2',
      H3 : sub ?x2' _ = Ok _ |- _ =>
        rewrite Hp in Hg; injection Hg as <-;
        apply same_shape_tzip in H1, H2, H3;
        eapply same_shape_trans; [| apply same_shape_tmap];
        eapply same_shape_trans; [| exact H3];
        eapply same_shape_trans; [| exact H2];
        eapply same_shape_trans; [| apply same_shape_tmap];
        eapply same_shape_trans; [| exact H1];
        apply same_shape_tmap
    end.
  - rewrite lookup_insert_ne by done.
    destruct (decide (name = "loc")) as [-> | Hnl].
    + rewrite lookup_insert_eq. eexists. split; [reflexivity |].
      match goal with
      | Hg : int_params self !! "loc" = Some ?l,
        Ha : add (muls ?l _) _ = Ok _ |- _ =>
          rewrite Hp in Hg; injection Hg as <-;
          apply same_shape_tzip in Ha;
          eapply same_shape_trans; [| exact Ha];
          apply same_shape_tmap
      end.
    + rewrite !lookup_insert_ne by done. exists p.
      split; [exact Hp | apply same_shape_refl].
Qed.

(** X25. [online_param_update] keeps every intrinsic parameter under its
    name and in its shape. For every class and over every backend, when
    the call returns, each parameter the layer had is still there and has
    the shape it had, [loc] (and [log_var] of a Gaussian layer)
    included. *)
Theorem online_param_update_keeps_shapes (backend : Backend)
    (cls : layer_class) (data : tensor) (self self' : unit_layer)
    (name : string) (p : tensor) :
  online_param_update backend cls data self = (self', Ok tt) ->
  int_params self !! name = Some p ->
  exists p' : tensor,
    int_params self' !! name = Some p' /\ same_shape p p'.
Proof.
  intros H Hp. destruct cls; cbn [online_param_update] in H.
  - exact (gaussian_online_param_update_shape _ _ _ _ _ _ H Hp).
  - exact (ising_online_param_update_shape _ _ _ _ _ _ H Hp).
  - exact (bernoulli_online_param_update_shape _ _ _ _ _ _ H Hp).
  - now apply exponential_online_param_update_never_returns in H.
Qed.

Lemma online_param_update_keeps_shapes_witness :
  exists self' : unit_layer,
    online_param_update reference.backend BernoulliLayer
      (Mat [[1%R]; [0%R]]) fresh_bernoulli = (self', Ok tt) /\
    exists p' : tensor,
      int_params self' !! "loc" = Some p' /\ same_shape (Vec [0%R]) p'.
Proof.
  eexists. split.
  { exact (bernoulli_online_param_update reference.backend fresh_bernoulli
             [0%R] [[1%R]; [0%R]] (fun b => eq_refl) eq_refl
             ltac:(discriminate) ltac:(repeat constructor)). }
  apply (online_param_update_keeps_shapes reference.backend BernoulliLayer
           (Mat [[1%R]; [0%R]]) fresh_bernoulli).
  - exact (bernoulli_online_param_update reference.backend fresh_bernoulli
             [0%R] [[1%R]; [0%R]] (fun b => eq_refl) eq_refl
             ltac:(discriminate) ltac:(repeat constructor)).
  - reflexivity.
Defined.
